(** * Bish front end: tokenizer, scoping and recursive-descent parser

    A shallow embedding of [src/Parser.cpp].  The C++ classes become
    records, the member functions become functions over explicit state, and
    the four ways in which a call can end are the constructors of
    [outcome]:

    - [Ok]        the call returns;
    - [Abort]     [Parser::abort]: the message goes to the error stream and
                  the process exits with status 1;
    - [Fault]     the C++ behaviour is not defined by the program text
                  (a read outside the text buffer, [top()] of an empty
                  stack) or an uncaught library exception ends the
                  process;
    - [OutOfFuel] the loop or recursion did not finish within the given
                  number of steps.  A call that is [OutOfFuel] for every
                  amount of fuel does not terminate. *)

From Stdlib Require Import NArith Ascii String DecimalString.
From stdpp Require Import gmap strings list.

#[local] Set Warnings "-register-all".

Local Open Scope N_scope.

(** ** Outcomes and the state monad threading them *)

Inductive fault : Type :=
| OutOfBounds (index : N)   (* text[index] with index > text.length() *)
| SubstrOutOfRange          (* text.substr(pos, _) with pos > text.length() *)
| EmptyStackTop             (* top() or pop() of an empty std::stack *)
| NullTokenizer             (* tokenizer-> before parse_string has set it *)
| DanglingModule            (* a Module pointer that was never allocated *)
| AssertionFailed.          (* assert(v) on a failed dynamic_cast *)

Inductive outcome (S A : Type) : Type :=
| Ok (a : A) (s : S)
| Abort (msg : string)
| Fault (f : fault)
| OutOfFuel.

Arguments Ok {S A} a s.
Arguments Abort {S A} msg.
Arguments Fault {S A} f.
Arguments OutOfFuel {S A}.

Definition M (S A : Type) : Type := S -> outcome S A.

Definition ret {S A} (a : A) : M S A := fun s => Ok a s.

Definition bind {S A B} (m : M S A) (k : A -> M S B) : M S B :=
  fun s =>
    match m s with
    | Ok a s' => k a s'
    | Abort msg => Abort msg
    | Fault f => Fault f
    | OutOfFuel => OutOfFuel
    end.

Definition gets {S A} (f : S -> A) : M S A := fun s => Ok (f s) s.
Definition modify {S} (f : S -> S) : M S unit := fun s => Ok tt (f s).
Definition raise {S A} (f : fault) : M S A := fun _ => Fault f.
Definition out_of_fuel {S A} : M S A := fun _ => OutOfFuel.

Declare Scope monad_scope.
Delimit Scope monad_scope with monad.
Notation "x <- m ;; k" := (bind m (fun x => k))
  (at level 90, m at next level, right associativity) : monad_scope.
Notation "m ;;; k" := (bind m (fun _ => k))
  (at level 90, right associativity) : monad_scope.
Local Open Scope monad_scope.

(** ** Characters *)

Definition NUL : ascii := ascii_of_N 0.
Definition LF : ascii := ascii_of_N 10.
Definition TAB : ascii := ascii_of_N 9.
Definition DQUOTE : ascii := ascii_of_N 34.

(** [s += c] on a [std::string]. *)
Definition push_back (s : string) (c : ascii) : string :=
  s +:+ String c EmptyString.

(** The range tests of the source compare a [char] with constants below
    0x80, so they give the same answer whether [char] is signed or not;
    the model compares the character code. *)
Definition is_newline (c : ascii) : bool := Ascii.eqb c LF.

Definition is_whitespace (c : ascii) : bool :=
  Ascii.eqb c " " || Ascii.eqb c TAB || is_newline c.

Definition is_digit (c : ascii) : bool :=
  (0x30 <=? N_of_ascii c) && (N_of_ascii c <=? 0x39).

Definition is_paren (c : ascii) : bool :=
  Ascii.eqb c "(" || Ascii.eqb c ")".

Definition is_brace (c : ascii) : bool :=
  Ascii.eqb c "{" || Ascii.eqb c "}".

Definition is_alphanumeric (c : ascii) : bool :=
  is_digit c
  || ((0x41 <=? N_of_ascii c) && (N_of_ascii c <=? 0x5a))
  || ((0x61 <=? N_of_ascii c) && (N_of_ascii c <=? 0x7a)).

(** ** Machine integers

    [idx], [lineno] and the local indices are [unsigned]: 32 bits,
    arithmetic modulo [2^32]. *)

Definition UINT_MOD : N := 2 ^ 32.
Definition uadd (a b : N) : N := (a + b) mod UINT_MOD.
Definition usub (a b : N) : N := (a + UINT_MOD - b mod UINT_MOD) mod UINT_MOD.

(** ** Tokens *)

Module Token.

Inductive Type_ : Type :=
| EOSType | LParenType | RParenType | LBraceType | RBraceType
| AtType | DollarType | SharpType | SemicolonType | CommaType
| EqualsType | DoubleEqualsType
| PlusType | MinusType | StarType | SlashType
| QuoteType | IntType | FractionalType | SymbolType
| IfType | DefType.

#[global] Instance Type_eq_dec : EqDecision Type_.
Proof. solve_decision. Defined.

(** Modelled from the spec: class [Token] is declared in [Parser.h], which
    is not part of the sources.  A token is a tag with an optional payload;
    the reserved words carry their spelling, which [get_multichar_token]
    compares with the symbol read. *)
Record t : Type := mk { type : Type_; value : string }.

Definition isa (tok : t) (ty : Type_) : bool := bool_decide (type tok = ty).

Definition EOS : t := mk EOSType EmptyString.
Definition LParen : t := mk LParenType EmptyString.
Definition RParen : t := mk RParenType EmptyString.
Definition LBrace : t := mk LBraceType EmptyString.
Definition RBrace : t := mk RBraceType EmptyString.
Definition At : t := mk AtType EmptyString.
Definition Dollar : t := mk DollarType EmptyString.
Definition Sharp : t := mk SharpType EmptyString.
Definition Semicolon : t := mk SemicolonType EmptyString.
Definition Comma : t := mk CommaType EmptyString.
Definition Equals : t := mk EqualsType EmptyString.
Definition DoubleEquals : t := mk DoubleEqualsType EmptyString.
Definition Plus : t := mk PlusType EmptyString.
Definition Minus : t := mk MinusType EmptyString.
Definition Star : t := mk StarType EmptyString.
Definition Slash : t := mk SlashType EmptyString.
Definition Quote : t := mk QuoteType EmptyString.
Definition Int (s : string) : t := mk IntType s.
Definition Fractional (s : string) : t := mk FractionalType s.
Definition Symbol (s : string) : t := mk SymbolType s.
Definition If : t := mk IfType "if".
Definition Def : t := mk DefType "def".

End Token.

(** ** The tokenizer *)

Record Tokenizer : Type := mkTokenizer {
  text : string;      (* const std::string &text *)
  idx : N;            (* unsigned idx *)
  lineno : N          (* unsigned lineno *)
}.

(** [Tokenizer(t) : text(t), idx(0), lineno(1)] *)
Definition Tokenizer_new (t : string) : Tokenizer := mkTokenizer t 0 1.

Definition text_length (st : Tokenizer) : N := N.of_nat (String.length (text st)).

Definition set_idx (i : N) : M Tokenizer unit :=
  modify (fun st => mkTokenizer (text st) i (lineno st)).

Definition set_lineno (l : N) : M Tokenizer unit :=
  modify (fun st => mkTokenizer (text st) (idx st) l).

(** [text[i]] on a const [std::string]: the character at [i] below the
    length, the terminator at [i = length], and outside the buffer
    beyond. *)
Definition text_at (i : N) : M Tokenizer ascii :=
  fun st =>
    if i <? text_length st then
      match String.get (N.to_nat i) (text st) with
      | Some c => Ok c st
      | None => Fault (OutOfBounds i)
      end
    else if i =? text_length st then Ok NUL st
    else Fault (OutOfBounds i).

(** [text.substr(pos, len)]: throws [std::out_of_range] when [pos] is
    beyond the length, and is cut at the end of the text otherwise. *)
Definition substr (pos len : N) : M Tokenizer string :=
  fun st =>
    if pos <=? text_length st
    then Ok (String.substring (N.to_nat pos) (N.to_nat len) (text st)) st
    else Fault SubstrOutOfRange.

Definition curchar : M Tokenizer ascii :=
  i <- gets idx ;; text_at i.

Definition nextchar : M Tokenizer ascii :=
  i <- gets idx ;; text_at (uadd i 1).

Definition eos : M Tokenizer bool :=
  gets (fun st => text_length st <=? idx st).

(** The loops of the tokenizer that always end are given the number of
    iterations they can need: every iteration passes a character of the
    text, and the index comes back to a value it already had only if the
    loop never ends. *)
Definition text_fuel (st : Tokenizer) : nat := S (String.length (text st)).

(** [while (!eos() && is_whitespace(curchar())) { if (is_newline(curchar())) ++lineno; ++idx; }] *)
Fixpoint skip_whitespace_loop (fuel : nat) : M Tokenizer unit :=
  match fuel with
  | O => out_of_fuel
  | S fuel' =>
      e <- eos ;;
      if e then ret tt
      else
        c <- curchar ;;
        if is_whitespace c then
          (if is_newline c
           then l <- gets lineno ;; set_lineno (uadd l 1)
           else ret tt) ;;;
          i <- gets idx ;;
          set_idx (uadd i 1) ;;;
          skip_whitespace_loop fuel'
        else ret tt
  end.

Definition skip_whitespace : M Tokenizer unit :=
  fun st => skip_whitespace_loop (text_fuel st) st.

(** [while (p(text[newidx])) { s += text[newidx]; newidx++; }] *)
Fixpoint read_while (p : ascii -> bool) (fuel : nat) (s : string) (newidx : N)
  : M Tokenizer (string * N) :=
  match fuel with
  | O => out_of_fuel
  | S fuel' =>
      c <- text_at newidx ;;
      if p c then read_while p fuel' (push_back s c) (uadd newidx 1)
      else ret (s, newidx)
  end.

Definition ResultState : Type := Token.t * N.

(** [read_number] opens with [char c = curchar();], a local that is never
    used: [get_token] has just read the same character, so the read is left
    out. *)
Definition read_number : M Tokenizer ResultState :=
  fun st =>
    (i <- gets idx ;;
     r <- read_while is_digit (text_fuel st) EmptyString i ;;
     let '(snum, newidx) := r in
     c <- text_at newidx ;;
     if Ascii.eqb c "." then
       r <- read_while is_digit (text_fuel st) (snum +:+ ".") (uadd newidx 1) ;;
       let '(snum, newidx) := r in
       ret (Token.Fractional snum, newidx)
     else ret (Token.Int snum, newidx)) st.

Definition get_multichar_token (s : string) : Token.t :=
  if String.eqb s (Token.value Token.If) then Token.If
  else if String.eqb s (Token.value Token.Def) then Token.Def
  else Token.Symbol s.

Definition read_symbol : M Tokenizer ResultState :=
  fun st =>
    (i <- gets idx ;;
     r <- read_while is_alphanumeric (text_fuel st) EmptyString i ;;
     let '(sym, newidx) := r in
     ret (get_multichar_token sym, newidx)) st.

Definition get_token : M Tokenizer ResultState :=
  skip_whitespace ;;;
  c <- curchar ;;
  e <- eos ;;
  i <- gets idx ;;
  if e then ret (Token.EOS, i)
  else if Ascii.eqb c "(" then ret (Token.LParen, uadd i 1)
  else if Ascii.eqb c ")" then ret (Token.RParen, uadd i 1)
  else if Ascii.eqb c "{" then ret (Token.LBrace, uadd i 1)
  else if Ascii.eqb c "}" then ret (Token.RBrace, uadd i 1)
  else if Ascii.eqb c "@" then ret (Token.At, uadd i 1)
  else if Ascii.eqb c "$" then ret (Token.Dollar, uadd i 1)
  else if Ascii.eqb c "#" then ret (Token.Sharp, uadd i 1)
  else if Ascii.eqb c ";" then ret (Token.Semicolon, uadd i 1)
  else if Ascii.eqb c "," then ret (Token.Comma, uadd i 1)
  else if Ascii.eqb c "=" then
    n <- nextchar ;;
    if Ascii.eqb n "=" then ret (Token.DoubleEquals, uadd i 2)
    else ret (Token.Equals, uadd i 1)
  else if Ascii.eqb c "+" then ret (Token.Plus, uadd i 1)
  else if Ascii.eqb c "-" then ret (Token.Minus, uadd i 1)
  else if Ascii.eqb c "*" then ret (Token.Star, uadd i 1)
  else if Ascii.eqb c "/" then ret (Token.Slash, uadd i 1)
  else if Ascii.eqb c DQUOTE then ret (Token.Quote, uadd i 1)
  else if is_digit c then read_number
  else read_symbol.

(** [peek]: the token at the head of the stream.  The call goes through
    [get_token], so the white space before the token is skipped for good
    and its newlines are counted. *)
Definition peek : M Tokenizer Token.t :=
  st <- get_token ;; ret (fst st).

Definition next : M Tokenizer unit :=
  st <- get_token ;; set_idx (snd st).

(** [scan_until(type_a, type_b)] and [scan_until(type)] share their loop:
    [while (!stop(t) && !eos()) { next(); t = peek(); }].  Nothing bounds
    the number of iterations, so the loop runs on fuel. *)
Fixpoint scan_until_loop (stop : Token.t -> bool) (fuel : nat) (t : Token.t)
  : M Tokenizer unit :=
  match fuel with
  | O => out_of_fuel
  | S fuel' =>
      if stop t then ret tt
      else
        e <- eos ;;
        if e then ret tt
        else next ;;; t' <- peek ;; scan_until_loop stop fuel' t'
  end.

Definition scan_until_types (fuel : nat) (type_a type_b : Token.Type_)
  : M Tokenizer string :=
  start <- gets idx ;;
  t <- peek ;;
  scan_until_loop (fun t => Token.isa t type_a || Token.isa t type_b) fuel t ;;;
  i <- gets idx ;;
  substr start (usub i start).

Definition scan_until_type (fuel : nat) (type : Token.Type_) : M Tokenizer string :=
  start <- gets idx ;;
  t <- peek ;;
  scan_until_loop (fun t => Token.isa t type) fuel t ;;;
  i <- gets idx ;;
  substr start (usub i start).

(** [while (curchar() != c) { idx++; }] *)
Fixpoint scan_until_char_loop (fuel : nat) (c : ascii) : M Tokenizer unit :=
  match fuel with
  | O => out_of_fuel
  | S fuel' =>
      d <- curchar ;;
      if Ascii.eqb d c then ret tt
      else i <- gets idx ;; set_idx (uadd i 1) ;;; scan_until_char_loop fuel' c
  end.

Definition scan_until_char (fuel : nat) (c : ascii) : M Tokenizer string :=
  start <- gets idx ;;
  scan_until_char_loop fuel c ;;;
  i <- gets idx ;;
  substr start (usub i start).

(** [s << lineno]: an [unsigned] in decimal. *)
Definition decimal (n : N) : string := NilEmpty.string_of_uint (N.to_uint n).

Definition position : M Tokenizer string :=
  c <- curchar ;;
  l <- gets lineno ;;
  ret ("character '" +:+ String c ("', line " +:+ decimal l)).

(** ** The IR built by the parser *)

Inductive Type_ : Type :=
| UndefinedTy | IntegerTy | FractionalTy | StringTy | BooleanTy.

#[global] Instance Type_eq_dec : EqDecision Type_.
Proof. solve_decision. Defined.

(** Modelled from the spec: class [Variable] is declared in [IR.h], which
    is not part of the sources.  A variable is a name; [var_id] is the
    identity of the object, the serial number of the [new Variable(name)]
    that made it, so that two objects made by two allocations differ even
    when their names agree. *)
Record VariableObj : Type := mkVariable { var_id : N; var_name : string }.

#[global] Instance VariableObj_eq_dec : EqDecision VariableObj.
Proof. solve_decision. Defined.

Module BinOp.
Inductive Operator : Type := Add | Sub | Mul | Div.
End BinOp.

Module UnaryOp.
Inductive Operator : Type := Negate.
End UnaryOp.

(** Modelled from the spec: class [InterpolatedString] of [IR.h]; an ordered
    sequence of fragments, [push_str] and [push_var] append one. *)
Inductive Fragment : Type :=
| StrFragment (s : string)
| VarFragment (v : VariableObj).

Definition InterpolatedString : Type := list Fragment.
Definition push_str (s : string) (body : InterpolatedString) : InterpolatedString :=
  body ++ [StrFragment s].
Definition push_var (v : VariableObj) (body : InterpolatedString) : InterpolatedString :=
  body ++ [VarFragment v].

(** Modelled from the spec: the node classes of [IR.h].  Every node but a
    variable is made by one [new] and owned by one parent, so it is a
    value; a variable is referred to from several places and keeps its
    identity. *)
Inductive IRNode : Type :=
| Variable_ (v : VariableObj)
| Integer (v : string)
| Fractional (v : string)
| String_ (v : string)
| Boolean (v : bool)
| BinOp (op : BinOp.Operator) (a b : IRNode)
| UnaryOp (op : UnaryOp.Operator) (a : IRNode)
| Comparison (a b : IRNode)
| FunctionCall (name : string) (args : list IRNode)
| Assignment (v : VariableObj) (e : IRNode)
| IfStatement (cond body : IRNode)
| ExternCall (body : InterpolatedString)
| Block (statements : list IRNode).

(** Modelled from the spec: class [Function] of [IR.h]: name, parameters,
    body.  The two-argument constructor leaves the parameters empty. *)
Record Function : Type := mkFunction {
  fn_name : string;
  fn_args : list VariableObj;
  fn_body : IRNode
}.

(** Modelled from the spec: class [Module] of [IR.h]: the main function,
    absent until [set_main], and the user functions in declaration order. *)
Record Module : Type := mkModule {
  main : option Function;
  functions : list Function
}.

Definition Module_new : Module := mkModule None [].
Definition set_main (f : Function) (m : Module) : Module :=
  mkModule (Some f) (functions m).
Definition add_function (f : Function) (m : Module) : Module :=
  mkModule (main m) (functions m ++ [f]).

(** ** Symbol tables *)

Record SymbolTableEntry : Type := mkEntry { node : IRNode; type : Type_ }.

(** Modelled from the spec: class [SymbolTable] of [SymbolTable.h]: a map
    from names to entries; [insert] adds or overwrites, [lookup] gives the
    entry or null. *)
Module SymbolTable.
Abbreviation t := (gmap string SymbolTableEntry).
Definition new : t := ∅.
Definition insert (name : string) (n : IRNode) (ty : Type_) (s : t) : t :=
    <[name := mkEntry n ty]> s.
Definition lookup (name : string) (s : t) : option SymbolTableEntry := s !! name.
End SymbolTable.

(** ** The parser *)

Record Parser : Type := mkParser {
  tokenizer : option Tokenizer;             (* Tokenizer *tokenizer *)
  module_stack : list nat;                  (* std::stack<Module *>, top first *)
  symbol_table_stack : list SymbolTable.t;  (* std::stack<SymbolTable *>, top first *)
  modules : list Module;                    (* the Module objects, by address *)
  variables : N                             (* number of Variable objects made *)
}.

(** A symbol table is reached through the scope stack only (and through the
    auxiliary stack of [lookup] while it runs), so the stack holds the
    tables themselves.  A module is reached through the module stack and
    through the local pointer of [Parser::module] at once, so modules live
    in the store [modules] and the stack holds addresses. *)
Definition Parser_new : Parser := mkParser None [] [] [] 0.

Definition set_tokenizer (t : option Tokenizer) (p : Parser) : Parser :=
  mkParser t (module_stack p) (symbol_table_stack p) (modules p) (variables p).
Definition set_module_stack (s : list nat) (p : Parser) : Parser :=
  mkParser (tokenizer p) s (symbol_table_stack p) (modules p) (variables p).
Definition set_symbol_table_stack (s : list SymbolTable.t) (p : Parser) : Parser :=
  mkParser (tokenizer p) (module_stack p) s (modules p) (variables p).
Definition set_modules (ms : list Module) (p : Parser) : Parser :=
  mkParser (tokenizer p) (module_stack p) (symbol_table_stack p) ms (variables p).
Definition set_variables (n : N) (p : Parser) : Parser :=
  mkParser (tokenizer p) (module_stack p) (symbol_table_stack p) (modules p) n.

(** A call through [tokenizer->]. *)
Definition tok {A} (m : M Tokenizer A) : M Parser A :=
  fun p =>
    match tokenizer p with
    | None => Fault NullTokenizer
    | Some t =>
        match m t with
        | Ok a t' => Ok a (set_tokenizer (Some t') p)
        | Abort msg => Abort msg
        | Fault f => Fault f
        | OutOfFuel => OutOfFuel
        end
    end.

(** [std::cerr << msg << "\n"; exit(1);] *)
Definition abort {A} (msg : string) : M Parser A := fun _ => Abort msg.

Definition expect (t : Token.t) (ty : Token.Type_) (msg : string) : M Parser unit :=
  if negb (Token.isa t ty) then
    pos <- tok position ;;
    abort ("Parsing error: " +:+ msg +:+ " near " +:+ pos)
  else tok next.

Definition is_unop_token (t : Token.t) : bool := Token.isa t Token.MinusType.

Definition is_binop_token (t : Token.t) : bool :=
  Token.isa t Token.PlusType || Token.isa t Token.MinusType
  || Token.isa t Token.StarType || Token.isa t Token.SlashType.

Definition get_binop_operator (t : Token.t) : M Parser BinOp.Operator :=
  match Token.type t with
  | Token.PlusType => ret BinOp.Add
  | Token.MinusType => ret BinOp.Sub
  | Token.StarType => ret BinOp.Mul
  | Token.SlashType => ret BinOp.Div
  | _ => abort "Invalid operator for binary operation."
  end.

Definition get_unaryop_operator (t : Token.t) : M Parser UnaryOp.Operator :=
  match Token.type t with
  | Token.MinusType => ret UnaryOp.Negate
  | _ => abort "Invalid operator for unary operation."
  end.

Definition get_primitive_type (n : IRNode) : Type_ :=
  match n with
  | Integer _ => IntegerTy
  | Fractional _ => FractionalTy
  | String_ _ => StringTy
  | Boolean _ => BooleanTy
  | _ => UndefinedTy
  end.

(** [new Module()] *)
Definition new_Module : M Parser nat :=
  fun p => Ok (length (modules p)) (set_modules (modules p ++ [Module_new]) p).

(** [m->f(...)] for a member function [f] that updates the module. *)
Definition update_module (m : nat) (f : Module -> Module) : M Parser unit :=
  fun p =>
    match modules p !! m with
    | Some x => Ok tt (set_modules (<[m := f x]> (modules p)) p)
    | None => Fault DanglingModule
    end.

Definition push_module (m : nat) : M Parser unit :=
  modify (fun p => set_module_stack (m :: module_stack p) p).

Definition module_stack_top : M Parser nat :=
  fun p =>
    match module_stack p with
    | m :: _ => Ok m p
    | [] => Fault EmptyStackTop
    end.

Definition pop_module : M Parser nat :=
  fun p =>
    match module_stack p with
    | m :: rest => Ok m (set_module_stack rest p)
    | [] => Fault EmptyStackTop
    end.

Definition push_symbol_table (s : SymbolTable.t) : M Parser unit :=
  modify (fun p => set_symbol_table_stack (s :: symbol_table_stack p) p).

Definition pop_symbol_table : M Parser SymbolTable.t :=
  fun p =>
    match symbol_table_stack p with
    | s :: rest => Ok s (set_symbol_table_stack rest p)
    | [] => Fault EmptyStackTop
    end.

(** [symbol_table_stack.top()->insert(name, n, ty)] *)
Definition insert_top (name : string) (n : IRNode) (ty : Type_) : M Parser unit :=
  fun p =>
    match symbol_table_stack p with
    | s :: rest =>
        Ok tt (set_symbol_table_stack (SymbolTable.insert name n ty s :: rest) p)
    | [] => Fault EmptyStackTop
    end.

(** [new Variable(name)] *)
Definition new_Variable (name : string) : M Parser VariableObj :=
  fun p => Ok (mkVariable (variables p) name) (set_variables (variables p + 1) p).

(** The first loop of [Parser::lookup]: frames without an entry for [name]
    move from the scope stack to [aux]; the loop ends at the first frame
    that has one, or when the scope stack is empty. *)
Fixpoint lookup_search (name : string) (stack aux : list SymbolTable.t)
  : option IRNode * list SymbolTable.t * list SymbolTable.t :=
  match stack with
  | [] => (None, [], aux)
  | top :: rest =>
      match SymbolTable.lookup name top with
      | Some e => (Some (node e), stack, aux)
      | None => lookup_search name rest (top :: aux)
      end
  end.

(** The second loop: the frames of [aux] go back onto the scope stack. *)
Fixpoint lookup_restore (stack aux : list SymbolTable.t) : list SymbolTable.t :=
  match aux with
  | [] => stack
  | top :: rest => lookup_restore (top :: stack) rest
  end.

Definition lookup (name : string) : M Parser (option IRNode) :=
  fun p =>
    let '(result, stack, aux) := lookup_search name (symbol_table_stack p) [] in
    Ok result (set_symbol_table_stack (lookup_restore stack aux) p).

Definition lookup_or_new_var (name : string) : M Parser VariableObj :=
  result <- lookup name ;;
  match result with
  | Some (Variable_ v) => ret v
  | Some _ => raise AssertionFailed
  | None =>
      v <- new_Variable name ;;
      insert_top name (Variable_ v) UndefinedTy ;;;
      ret v
  end.

Definition symbol : M Parser string :=
  t <- tok peek ;;
  expect t Token.SymbolType "Expected symbol." ;;;
  ret (Token.value t).

Definition var : M Parser VariableObj :=
  t <- tok peek ;;
  let name := Token.value t in
  t <- tok peek ;;
  expect t Token.SymbolType "Expected variable to be a symbol" ;;;
  lookup_or_new_var name.

Definition arg : M Parser VariableObj :=
  t <- tok peek ;;
  let name := Token.value t in
  t <- tok peek ;;
  expect t Token.SymbolType "Expected argument to be a symbol" ;;;
  a <- new_Variable name ;;
  insert_top name (Variable_ a) UndefinedTy ;;;
  ret a.

Definition atom (fuel : nat) : M Parser IRNode :=
  t <- tok peek ;;
  tok next ;;;
  match Token.type t with
  | Token.SymbolType => v <- lookup_or_new_var (Token.value t) ;; ret (Variable_ v)
  | Token.IntType => ret (Integer (Token.value t))
  | Token.FractionalType => ret (Fractional (Token.value t))
  | Token.QuoteType =>
      str <- tok (scan_until_type fuel Token.QuoteType) ;;
      q <- tok peek ;;
      expect q Token.QuoteType ("Unmatched '" +:+ String DQUOTE "'") ;;;
      ret (String_ str)
  | _ => abort "Invalid token type for atom."
  end.

(** *** Expressions

    [expr], [arith], [term], [unary] and [factor] call each other; the
    [while] loops of [arith] and [term] are the functions [arith_loop] and
    [term_loop], which take the node built so far and the token last
    peeked.  Every call and every iteration takes one unit of fuel. *)
Fixpoint expr (fuel : nat) : M Parser IRNode :=
  match fuel with
  | O => out_of_fuel
  | S fuel' =>
      a <- arith fuel' ;;
      t <- tok peek ;;
      if Token.isa t Token.DoubleEqualsType then
        tok next ;;;
        b <- arith fuel' ;;
        ret (Comparison a b)
      else ret a
  end

with arith (fuel : nat) : M Parser IRNode :=
  match fuel with
  | O => out_of_fuel
  | S fuel' =>
      a <- term fuel' ;;
      t <- tok peek ;;
      arith_loop fuel' a t
  end

with arith_loop (fuel : nat) (a : IRNode) (t : Token.t) : M Parser IRNode :=
  match fuel with
  | O => out_of_fuel
  | S fuel' =>
      if Token.isa t Token.PlusType || Token.isa t Token.MinusType then
        tok next ;;;
        op <- get_binop_operator t ;;
        b <- term fuel' ;;
        t' <- tok peek ;;
        arith_loop fuel' (BinOp op a b) t'
      else ret a
  end

with term (fuel : nat) : M Parser IRNode :=
  match fuel with
  | O => out_of_fuel
  | S fuel' =>
      a <- unary fuel' ;;
      t <- tok peek ;;
      term_loop fuel' a t
  end

with term_loop (fuel : nat) (a : IRNode) (t : Token.t) : M Parser IRNode :=
  match fuel with
  | O => out_of_fuel
  | S fuel' =>
      if Token.isa t Token.StarType || Token.isa t Token.SlashType then
        tok next ;;;
        op <- get_binop_operator t ;;
        b <- unary fuel' ;;
        t' <- tok peek ;;
        term_loop fuel' (BinOp op a b) t'
      else ret a
  end

with unary (fuel : nat) : M Parser IRNode :=
  match fuel with
  | O => out_of_fuel
  | S fuel' =>
      t <- tok peek ;;
      if is_unop_token t then
        tok next ;;;
        op <- get_unaryop_operator t ;;
        a <- factor fuel' ;;
        ret (UnaryOp op a)
      else factor fuel'
  end

with factor (fuel : nat) : M Parser IRNode :=
  match fuel with
  | O => out_of_fuel
  | S fuel' =>
      t <- tok peek ;;
      if Token.isa t Token.LParenType then
        tok next ;;;
        e <- expr fuel' ;;
        t <- tok peek ;;
        expect t Token.RParenType "Unmatched '('" ;;;
        ret e
      else atom fuel'
  end.

(** *** Statements without a block *)

(** [while (peek().isa(CommaType)) { next(); args.push_back(atom()); }] *)
Fixpoint funcall_loop (fuel : nat) (args : list IRNode) : M Parser (list IRNode) :=
  match fuel with
  | O => out_of_fuel
  | S fuel' =>
      t <- tok peek ;;
      if Token.isa t Token.CommaType then
        tok next ;;;
        a <- atom fuel' ;;
        funcall_loop fuel' (args ++ [a])
      else ret args
  end.

Definition funcall (fuel : nat) (name : string) : M Parser IRNode :=
  t <- tok peek ;;
  expect t Token.LParenType "Expected opening '('" ;;;
  t <- tok peek ;;
  args <- (if negb (Token.isa t Token.RParenType) then
             a <- atom fuel ;;
             funcall_loop fuel [a]
           else ret []) ;;
  t <- tok peek ;;
  expect t Token.RParenType "Expected closing ')'" ;;;
  ret (FunctionCall name args).

Definition assignment (fuel : nat) (name : string) : M Parser IRNode :=
  t <- tok peek ;;
  expect t Token.EqualsType "Expected assignment operator" ;;;
  v <- lookup_or_new_var name ;;
  e <- expr fuel ;;
  let t := get_primitive_type e in
  (if bool_decide (t <> UndefinedTy)
   then insert_top name (Variable_ v) t
   else ret tt) ;;;
  ret (Assignment v e).

Definition otherstmt (fuel : nat) : M Parser IRNode :=
  sym <- symbol ;;
  t <- tok peek ;;
  s <- match Token.type t with
       | Token.EqualsType => assignment fuel sym
       | Token.LParenType => funcall fuel sym
       | _ => abort "Unexpected token in statement."
       end ;;
  t <- tok peek ;;
  expect t Token.SemicolonType "Expected statement to end with ';'" ;;;
  ret s.

(** The [do ... while (!peek().isa(RParenType))] loop of [externcall]. *)
Fixpoint externcall_loop (fuel : nat) (body : InterpolatedString)
  : M Parser InterpolatedString :=
  match fuel with
  | O => out_of_fuel
  | S fuel' =>
      str <- tok (scan_until_types fuel' Token.DollarType Token.RParenType) ;;
      let body := push_str str body in
      t <- tok peek ;;
      body <- (if Token.isa t Token.DollarType then
                 tok next ;;;
                 v <- var ;;
                 ret (push_var v body)
               else ret body) ;;
      t <- tok peek ;;
      if negb (Token.isa t Token.RParenType)
      then externcall_loop fuel' body
      else ret body
  end.

Definition externcall (fuel : nat) : M Parser IRNode :=
  t <- tok peek ;;
  expect t Token.AtType "Expected '@' to begin extern call." ;;;
  t <- tok peek ;;
  expect t Token.LParenType "Expected opening '('" ;;;
  body <- externcall_loop fuel [] ;;
  t <- tok peek ;;
  expect t Token.RParenType "Expected closing ')'" ;;;
  t <- tok peek ;;
  expect t Token.SemicolonType "Expected statement to end with ';'" ;;;
  ret (ExternCall body).

(** [while (peek().isa(CommaType)) { next(); args.push_back(arg()); }] *)
Fixpoint functiondef_loop (fuel : nat) (args : list VariableObj)
  : M Parser (list VariableObj) :=
  match fuel with
  | O => out_of_fuel
  | S fuel' =>
      t <- tok peek ;;
      if Token.isa t Token.CommaType then
        tok next ;;;
        a <- arg ;;
        functiondef_loop fuel' (args ++ [a])
      else ret args
  end.

(** *** Blocks and the statements that hold one

    [stmt] gives [None] where the source returns [NULL]. *)
Fixpoint block (fuel : nat) : M Parser IRNode :=
  match fuel with
  | O => out_of_fuel
  | S fuel' =>
      push_symbol_table SymbolTable.new ;;;
      t <- tok peek ;;
      expect t Token.LBraceType "Expected block to begin with '{'" ;;;
      statements <- block_loop fuel' [] ;;
      t <- tok peek ;;
      expect t Token.RBraceType "Expected block to end with '}'" ;;;
      pop_symbol_table ;;;
      ret (Block statements)
  end

(** The [do ... while (!peek().isa(RBraceType))] loop of [block]. *)
with block_loop (fuel : nat) (statements : list IRNode) : M Parser (list IRNode) :=
  match fuel with
  | O => out_of_fuel
  | S fuel' =>
      t <- tok peek ;;
      (if Token.isa t Token.SharpType
       then tok (scan_until_char fuel' LF) ;;; ret tt
       else ret tt) ;;;
      s <- stmt fuel' ;;
      let statements :=
        match s with
        | Some n => statements ++ [n]
        | None => statements
        end in
      t <- tok peek ;;
      if negb (Token.isa t Token.RBraceType)
      then block_loop fuel' statements
      else ret statements
  end

with stmt (fuel : nat) : M Parser (option IRNode) :=
  match fuel with
  | O => out_of_fuel
  | S fuel' =>
      t <- tok peek ;;
      match Token.type t with
      | Token.LBraceType => b <- block fuel' ;; ret (Some b)
      | Token.AtType => e <- externcall fuel' ;; ret (Some e)
      | Token.IfType => i <- ifstmt fuel' ;; ret (Some i)
      | Token.DefType =>
          f <- functiondef fuel' ;;
          m <- module_stack_top ;;
          update_module m (add_function f) ;;;
          ret None
      | _ => s <- otherstmt fuel' ;; ret (Some s)
      end
  end

with ifstmt (fuel : nat) : M Parser IRNode :=
  match fuel with
  | O => out_of_fuel
  | S fuel' =>
      t <- tok peek ;;
      expect t Token.IfType "Expected if statement" ;;;
      t <- tok peek ;;
      expect t Token.LParenType "Expected opening '('" ;;;
      cond <- expr fuel' ;;
      t <- tok peek ;;
      expect t Token.RParenType "Expected closing ')'" ;;;
      body <- block fuel' ;;
      ret (IfStatement cond body)
  end

with functiondef (fuel : nat) : M Parser Function :=
  match fuel with
  | O => out_of_fuel
  | S fuel' =>
      t <- tok peek ;;
      expect t Token.DefType "Expected def statement" ;;;
      name <- symbol ;;
      t <- tok peek ;;
      expect t Token.LParenType "Expected opening '('" ;;;
      push_symbol_table SymbolTable.new ;;;
      t <- tok peek ;;
      args <- (if negb (Token.isa t Token.RParenType) then
                 a <- arg ;;
                 functiondef_loop fuel' [a]
               else ret []) ;;
      t <- tok peek ;;
      expect t Token.RParenType "Expected closing ')'" ;;;
      body <- block fuel' ;;
      pop_symbol_table ;;;
      ret (mkFunction name args body)
  end.

(** [Parser::module]: the result is the address of the new module. *)
Definition module (fuel : nat) : M Parser nat :=
  m <- new_Module ;;
  push_module m ;;;
  b <- block fuel ;;
  let pre_main := mkFunction "bish_main" [] b in
  update_module m (set_main pre_main) ;;;
  pop_module ;;;
  ret m.

Definition parse_string (fuel : nat) (text : string) : M Parser nat :=
  let preprocessed := "{" +:+ text +:+ "}" in
  modify (set_tokenizer (Some (Tokenizer_new preprocessed))) ;;;
  m <- module fuel ;;
  t <- tok peek ;;
  expect t Token.EOSType "Expected end of string." ;;;
  ret m.

(** What the caller of [parse_string] holds in the end: the module behind
    the pointer returned, or the way the parse ended instead. *)
Inductive parse_result : Type :=
| Parsed (m : Module)
| Aborted (msg : string)
| Faulted (f : fault)
| Diverged.

Definition run_parse_string (fuel : nat) (text : string) : parse_result :=
  match parse_string fuel text Parser_new with
  | Ok m p =>
      match modules p !! m with
      | Some x => Parsed x
      | None => Faulted DanglingModule
      end
  | Abort msg => Aborted msg
  | Fault f => Faulted f
  | OutOfFuel => Diverged
  end.


(** * Vocabulary of the statements *)

(** ** Results independent of the fuel

    [parses_to text r]: the parse of [text] ends, and ends as [r].
    [diverges text]: it never ends. *)
Definition parses_to (text : string) (r : parse_result) : Prop :=
  exists fuel, run_parse_string fuel text = r /\ r <> Diverged.

Definition diverges (text : string) : Prop :=
  forall fuel, run_parse_string fuel text = Diverged.

(** The order in which [OutOfFuel] is below every outcome. *)
Definition le_outcome {S A} (r r' : outcome S A) : Prop :=
  r = OutOfFuel \/ r = r'.

Definition le_M {S A} (m m' : M S A) : Prop :=
  forall s, le_outcome (m s) (m' s).

(** [keeps R m]: a call of [m] that returns relates the state before it to
    the state after it by [R]. *)
Definition keeps {S A} (R : S -> S -> Prop) (m : M S A) : Prop :=
  forall s a s', m s = Ok a s' -> R s s'.

(** ** Positions in the text *)

(** The text from position [n] on. *)
Fixpoint string_drop (n : nat) (s : string) : string :=
  match n, s with
  | O, _ => s
  | S n', String _ s' => string_drop n' s'
  | S _, EmptyString => EmptyString
  end.

(** The longest prefix of [s] whose characters all satisfy [p]. *)
Fixpoint span (p : ascii -> bool) (s : string) : string :=
  match s with
  | String c s' => if p c then String c (span p s') else EmptyString
  | EmptyString => EmptyString
  end.

(** [occurs c s]: the character [c] is somewhere in [s]. *)
Fixpoint occurs (c : ascii) (s : string) : bool :=
  match s with
  | String d s' => Ascii.eqb d c || occurs c s'
  | EmptyString => false
  end.

Fixpoint all_chars (p : ascii -> bool) (s : string) : bool :=
  match s with
  | String c s' => p c && all_chars p s'
  | EmptyString => true
  end.

Fixpoint count_char (c : ascii) (s : string) : nat :=
  match s with
  | String d s' => (if Ascii.eqb d c then 1 else 0) + count_char c s'
  | EmptyString => 0
  end.

(** The rest of the text at the tokenizer's position. *)
Definition rest (st : Tokenizer) : string :=
  string_drop (N.to_nat (idx st)) (text st).

(** The tokenizer moved to position [i]. *)
Definition at_idx (i : N) (st : Tokenizer) : Tokenizer :=
  mkTokenizer (text st) i (lineno st).

(** The tokenizer is at a position of its text, the end included, and the
    text is short enough for an [unsigned] index. *)
Definition in_text (st : Tokenizer) : Prop :=
  idx st <= text_length st /\ text_length st + 1 < UINT_MOD.

(** The first character of a string, the terminator for the empty one. *)
Definition head_char (s : string) : ascii :=
  match s with
  | String c _ => c
  | EmptyString => NUL
  end.

(** The lexing rules as a function of the text that is left once the white
    space is skipped: the token at its head and the number of characters
    the token takes. *)
Definition lex_number (s : string) : Token.t * nat :=
  let ds := span is_digit s in
  let after := string_drop (String.length ds) s in
  if Ascii.eqb (head_char after) "." then
    let fs := span is_digit (string_drop 1 after) in
    (Token.Fractional (ds +:+ "." +:+ fs),
     String.length ds + 1 + String.length fs)%nat
  else (Token.Int ds, String.length ds).

Definition lex_symbol (s : string) : Token.t * nat :=
  let sym := span is_alphanumeric s in
  (get_multichar_token sym, String.length sym).

Definition lex (s : string) : Token.t * nat :=
  match s with
  | EmptyString => (Token.EOS, O)
  | String c s' =>
      if Ascii.eqb c "(" then (Token.LParen, 1%nat)
      else if Ascii.eqb c ")" then (Token.RParen, 1%nat)
      else if Ascii.eqb c "{" then (Token.LBrace, 1%nat)
      else if Ascii.eqb c "}" then (Token.RBrace, 1%nat)
      else if Ascii.eqb c "@" then (Token.At, 1%nat)
      else if Ascii.eqb c "$" then (Token.Dollar, 1%nat)
      else if Ascii.eqb c "#" then (Token.Sharp, 1%nat)
      else if Ascii.eqb c ";" then (Token.Semicolon, 1%nat)
      else if Ascii.eqb c "," then (Token.Comma, 1%nat)
      else if Ascii.eqb c "=" then
        if Ascii.eqb (head_char s') "=" then (Token.DoubleEquals, 2%nat)
        else (Token.Equals, 1%nat)
      else if Ascii.eqb c "+" then (Token.Plus, 1%nat)
      else if Ascii.eqb c "-" then (Token.Minus, 1%nat)
      else if Ascii.eqb c "*" then (Token.Star, 1%nat)
      else if Ascii.eqb c "/" then (Token.Slash, 1%nat)
      else if Ascii.eqb c DQUOTE then (Token.Quote, 1%nat)
      else if is_digit c then lex_number s
      else lex_symbol s
  end.

(** The state in which [get_token] leaves the tokenizer: the white space
    at the position is skipped, and the line count is [l]. *)
Definition skipped (st : Tokenizer) (l : N) : Tokenizer :=
  mkTokenizer (text st)
    (idx st + N.of_nat (String.length (span is_whitespace (rest st)))) l.

(** The characters that start no token of their own: no white space, none
    of the single-character tokens, no digit and no letter. *)
Definition single_char_tokens : string := "(){}@$#;,+-*/=" +:+ String DQUOTE EmptyString.

Definition is_letter (c : ascii) : bool :=
  ((0x41 <=? N_of_ascii c) && (N_of_ascii c <=? 0x5a))
  || ((0x61 <=? N_of_ascii c) && (N_of_ascii c <=? 0x7a)).

Definition no_token_char (c : ascii) : bool :=
  negb (is_whitespace c) && negb (occurs c single_char_tokens)
  && negb (is_digit c) && negb (is_letter c).

(** ** Scopes *)

(** The spec's reading of [lookup]: the frames from the innermost to the
    outermost, the first one that has the name decides. *)
Fixpoint first_match (name : string) (stack : list SymbolTable.t) : option IRNode :=
  match stack with
  | [] => None
  | frame :: outer =>
      match frame !! name with
      | Some e => Some (node e)
      | None => first_match name outer
      end
  end.

(** [scope_top s s']: the scope stack [s'] is [s] but for its innermost
    frame. *)
Definition scope_top (s s' : list SymbolTable.t) : Prop :=
  tail s' = tail s /\ length s' = length s.

(** [extends s s']: moreover every name visible in [s] is visible in [s'],
    and bound to the same node. *)
Definition extends (s s' : list SymbolTable.t) : Prop :=
  scope_top s s' /\
  forall name n, first_match name s = Some n -> first_match name s' = Some n.

Definition same_scopes (p p' : Parser) : Prop :=
  symbol_table_stack p' = symbol_table_stack p.

Definition top_scope_changes (p p' : Parser) : Prop :=
  scope_top (symbol_table_stack p) (symbol_table_stack p').

Definition scopes_extend (p p' : Parser) : Prop :=
  extends (symbol_table_stack p) (symbol_table_stack p').

(** ** The module *)

(** The parser as [block] finds it when [parse_string] is called on a new
    parser: the tokenizer at the start of the text in braces, the new
    module made and pushed. *)
Definition module_entry (text : string) : Parser :=
  mkParser (Some (Tokenizer_new ("{" +:+ text +:+ "}"))) [O] [] [Module_new] 0.

(** A new parser whose tokenizer is at the start of [text]: the state in
    which to call one function of the parser on a piece of text. *)
Definition parser_at (text : string) : Parser :=
  set_tokenizer (Some (Tokenizer_new text)) Parser_new.

(** ** Chains of binary operators *)

(** [returns f p a p']: with some amount of fuel, [f] called in [p] returns
    [a] and leaves [p']. *)
Definition returns {A} (f : nat -> M Parser A) (p : Parser) (a : A) (p' : Parser) : Prop :=
  exists fuel, f fuel p = Ok a p'.

Definition binop_of (t : Token.t) : BinOp.Operator :=
  match Token.type t with
  | Token.MinusType => BinOp.Sub
  | Token.StarType => BinOp.Mul
  | Token.SlashType => BinOp.Div
  | _ => BinOp.Add
  end.

Definition is_additive (t : Token.t) : bool :=
  Token.isa t Token.PlusType || Token.isa t Token.MinusType.

Definition is_multiplicative (t : Token.t) : bool :=
  Token.isa t Token.StarType || Token.isa t Token.SlashType.

(** [operands operand is_op t p l p']: from the parser [p], where the token
    [t] was last peeked, the input goes on with the operators and operands
    [l], each operand read by [operand], and then with a token that is no
    operator, which leaves the parser [p']. *)
Inductive operands (operand : Parser -> IRNode -> Parser -> Prop) (is_op : Token.t -> bool)
  : Token.t -> Parser -> list (BinOp.Operator * IRNode) -> Parser -> Prop :=
| operands_done t p :
    is_op t = false -> operands operand is_op t p [] p
| operands_more t p p1 b p2 t' p3 l p4 :
    is_op t = true ->
    tok next p = Ok tt p1 ->
    operand p1 b p2 ->
    tok peek p2 = Ok t' p3 ->
    operands operand is_op t' p3 l p4 ->
    operands operand is_op t p ((binop_of t, b) :: l) p4.

(** The tree that associates the operators of [l] to the left, from the
    first operand [a]: [((a op1 b1) op2 b2) ...]. *)
Definition left_nested (a : IRNode) (l : list (BinOp.Operator * IRNode)) : IRNode :=
  fold_left (fun acc ob => BinOp (fst ob) acc (snd ob)) l a.

(** ** Comparisons *)





(** ** Lines *)

(** The number of newlines among the first [n] characters of [s]. *)
Fixpoint newlines_before (n : nat) (s : string) : nat :=
  match n, s with
  | S n', String c s' => ((if is_newline c then 1 else 0) + newlines_before n' s')%nat
  | _, _ => O
  end.

(** The line of position [i] of the text [T], the first line being 1. *)
Definition line_of (T : string) (i : nat) : N :=
  1 + N.of_nat (newlines_before i T).

(** The tokenizer reads the text [T], is at a position of it, and its line
    count is the line of that position. *)
Definition line_ok (T : string) (st : Tokenizer) : Prop :=
  text st = T /\ in_text st /\ lineno st = line_of T (N.to_nat (idx st)).

Definition parser_line_ok (T : string) (p : Parser) : Prop :=
  exists st, tokenizer p = Some st /\ line_ok T st.

(** The message of [expect] when the check [what] fails at position [i] of
    the text [T]. *)
Definition expect_message (T : string) (what : string) (i : nat) : string :=
  "Parsing error: " +:+ what +:+ " near " +:+ "character '"
  +:+ String (head_char (string_drop i T)) ("', line " +:+ decimal (line_of T i)).

(** What an error message says of the place of the error: a message of
    [expect] names a position of the text, with its character and its
    line; the messages of the other calls of [abort] name no place. *)
Definition located (T : string) (msg : string) : Prop :=
  (exists what i, (i <= String.length T)%nat /\ msg = expect_message T what i) \/
  String.prefix "Parsing error: " msg = false.

(** [lines T m]: from a parser whose tokenizer has the line count right,
    [m] returns with the line count right, or aborts with a message that
    names the place rightly. *)
Definition lines {A} (T : string) (m : M Parser A) : Prop :=
  forall p, parser_line_ok T p ->
    match m p with
    | Ok _ p' => parser_line_ok T p'
    | Abort msg => located T msg
    | Fault _ | OutOfFuel => True
    end.

(** The same for a call of the tokenizer, which never aborts. *)
Definition tokenizer_lines {A} (T : string) (m : M Tokenizer A) : Prop :=
  forall st, line_ok T st ->
    match m st with
    | Ok _ st' => line_ok T st'
    | Abort _ => False
    | Fault _ | OutOfFuel => True
    end.

(** The calls that leave the tokenizer alone and never abort. *)
Definition tokenizer_untouched {A} (m : M Parser A) : Prop :=
  forall p,
    match m p with
    | Ok _ p' => tokenizer p' = tokenizer p
    | Abort _ => False
    | Fault _ | OutOfFuel => True
    end.


(** ** Shapes of nodes *)


(** The literals, for which [get_primitive_type] has a type. *)
Definition is_literal (n : IRNode) : bool :=
  match n with
  | Integer _ | Fractional _ | String_ _ | Boolean _ => true
  | _ => false
  end.

(** ** What a parse can end in *)

(** The messages with which a parse can end: the two of [atom] and
    [otherstmt], and the ones of [expect]. *)
Definition parse_error (msg : string) : Prop :=
  msg = "Invalid token type for atom." \/
  msg = "Unexpected token in statement." \/
  exists what pos, msg = "Parsing error: " +:+ what +:+ " near " +:+ pos.

(** The fault of the comment that no newline ends: the scan for the
    newline reads the character after the terminator of the text [T]. *)
Definition comment_fault (T : string) (f : fault) : Prop :=
  f = OutOfBounds (N.of_nat (String.length T) + 1) /\
  exists i, String.get i T = Some "#"%char /\ occurs LF (string_drop i T) = false.

Definition entries_are_variables (s : SymbolTable.t) : Prop :=
  forall name e, SymbolTable.lookup name s = Some e -> exists v, node e = Variable_ v.

(** The parser in the middle of a parse of the text [T]: the tokenizer is
    at a position of [T], the scope stack has [k] frames, which bind names
    to variables only, and the module stack is [ms], each of its entries
    one of the [n] modules there are. *)
Definition scoped (T : string) (ms : list nat) (n k : nat) (p : Parser) : Prop :=
  (exists st, tokenizer p = Some st /\ text st = T /\ in_text st) /\
  Forall entries_are_variables (symbol_table_stack p) /\
  length (symbol_table_stack p) = k /\
  module_stack p = ms /\ length (modules p) = n /\ Forall (fun m => (m < n)%nat) ms.

(** [safe T I J c]: from a parser in [I], the call [c] returns a parser in
    [J], or ends the parse with one of its messages, or does not end; the
    one fault it can run into is the one of the comment. *)
Definition safe {A} (T : string) (I J : Parser -> Prop) (c : M Parser A) : Prop :=
  forall p, I p ->
    match c p with
    | Ok _ p' => J p'
    | Abort msg => parse_error msg
    | Fault f => comment_fault T f
    | OutOfFuel => True
    end.

(** The calls of the tokenizer that, from a position of the text, run into
    no fault at all. *)
Definition tokenizer_safe {A} (T : string) (c : M Tokenizer A) : Prop :=
  forall st, text st = T -> in_text st ->
    match c st with
    | Ok _ st' => text st' = T /\ in_text st'
    | OutOfFuel => True
    | Abort _ | Fault _ => False
    end.

(** ** Texts that a parse gets through

    [plain T]: every character of [T] is white space or starts a token of
    its own, and none is the [@] of an extern call.

    [ends T strict b m]: from a position of [T] with at most [b] characters
    left, the call [m] ends: it returns, aborts or faults.  When it returns
    the tokenizer is at a position of [T] that is no earlier, and later when
    [strict] is set. *)
Definition plain (T : string) : bool :=
  all_chars (fun c => negb (no_token_char c) && negb (Ascii.eqb c "@")) T.

Definition ends {A} (T : string) (strict : bool) (b : nat) (m : M Parser A) : Prop :=
  forall p st,
    tokenizer p = Some st -> text st = T -> in_text st ->
    (String.length (rest st) <= b)%nat ->
    match m p with
    | Ok _ p' =>
        exists st', tokenizer p' = Some st' /\ text st' = T /\ in_text st' /\
                    (String.length (rest st') + (if strict then 1 else 0)
                     <= String.length (rest st))%nat
    | OutOfFuel => False
    | Abort _ | Fault _ => True
    end.

(** The fuel that is enough for a text of [n] characters. *)
Definition enough_fuel (n : nat) : nat := 20 * n + 60.

(** [moved_on st p]: the tokenizer of [p] is in the text of [st], further
    on than [st]. *)
Definition moved_on (st : Tokenizer) (p : Parser) : Prop :=
  exists st', tokenizer p = Some st' /\ text st' = text st /\ in_text st' /\
              idx st < idx st'.

(** ** Tokens a statement starts with *)

Definition statement_token (t : Token.t) : bool :=
  match Token.type t with
  | Token.LBraceType | Token.AtType | Token.IfType | Token.DefType
  | Token.SymbolType => true
  | _ => false
  end.

(** ** Positions a call moves between *)




(** * Fuel

    More fuel never changes a result that was reached: an outcome other
    than [OutOfFuel] is the outcome for every larger amount of fuel. *)

Lemma le_M_refl {S A} (m : M S A) : le_M m m.
Proof. intros s. right. reflexivity. Qed.

Lemma le_M_bot {S A} (m : M S A) : le_M out_of_fuel m.
Proof. intros s. left. reflexivity. Qed.

Lemma bind_le {S A B} (m m' : M S A) (k k' : A -> M S B) :
  le_M m m' -> (forall a, le_M (k a) (k' a)) -> le_M (bind m k) (bind m' k').
Proof.
  intros Hm Hk s. unfold bind.
  destruct (Hm s) as [-> | ->]; [left; reflexivity |].
  destruct (m' s); try (right; reflexivity). apply Hk.
Qed.

Lemma tok_le {A} (m m' : M Tokenizer A) : le_M m m' -> le_M (tok m) (tok m').
Proof.
  intros Hm p. unfold tok. destruct (tokenizer p) as [t |]; [| right; reflexivity].
  destruct (Hm t) as [-> | ->]; [left | right]; reflexivity.
Qed.

Ltac mono_step :=
  match goal with
  | |- le_M out_of_fuel _ => apply le_M_bot
  | |- le_M ?x ?x => apply le_M_refl
  | |- le_M (bind _ _) (bind _ _) => apply bind_le; [| intros ?]
  | |- le_M (tok _) (tok _) => apply tok_le
  | |- le_M (if ?b then _ else _) (if ?b then _ else _) => destruct b
  | |- le_M (match ?x with _ => _ end) (match ?x with _ => _ end) => destruct x
  end.

Ltac mono IH := repeat first [ mono_step | apply IH; lia ].

Lemma scan_until_loop_mono stop n m t :
  (n <= m)%nat -> le_M (scan_until_loop stop n t) (scan_until_loop stop m t).
Proof.
  revert m t. induction n as [| n IH]; intros m t Hle; [apply le_M_bot |].
  destruct m as [| m]; [lia |]. simpl. mono IH.
Qed.

Lemma scan_until_types_mono n m a b :
  (n <= m)%nat -> le_M (scan_until_types n a b) (scan_until_types m a b).
Proof. intros Hle. unfold scan_until_types. mono scan_until_loop_mono. Qed.

Lemma scan_until_type_mono n m ty :
  (n <= m)%nat -> le_M (scan_until_type n ty) (scan_until_type m ty).
Proof. intros Hle. unfold scan_until_type. mono scan_until_loop_mono. Qed.

Lemma scan_until_char_loop_mono n m c :
  (n <= m)%nat -> le_M (scan_until_char_loop n c) (scan_until_char_loop m c).
Proof.
  revert m. induction n as [| n IH]; intros m Hle; [apply le_M_bot |].
  destruct m as [| m]; [lia |]. simpl. mono IH.
Qed.

Lemma scan_until_char_mono n m c :
  (n <= m)%nat -> le_M (scan_until_char n c) (scan_until_char m c).
Proof. intros Hle. unfold scan_until_char. mono scan_until_char_loop_mono. Qed.

Lemma atom_mono n m : (n <= m)%nat -> le_M (atom n) (atom m).
Proof. intros Hle. unfold atom. mono scan_until_type_mono. Qed.

Lemma expr_group_mono n :
  forall m, (n <= m)%nat ->
    le_M (expr n) (expr m) /\
    le_M (arith n) (arith m) /\
    (forall a t, le_M (arith_loop n a t) (arith_loop m a t)) /\
    le_M (term n) (term m) /\
    (forall a t, le_M (term_loop n a t) (term_loop m a t)) /\
    le_M (unary n) (unary m) /\
    le_M (factor n) (factor m).
Proof.
  induction n as [| n IH]; intros m Hle.
  { repeat split; intros; apply le_M_bot. }
  destruct m as [| m]; [lia |].
  destruct (IH m ltac:(lia)) as (He & Ha & Hal & Ht & Htl & Hu & Hf).
  repeat split; intros; simpl; repeat first [ mono_step | assumption | solve [auto] ].
  apply atom_mono; lia.
Qed.

Lemma expr_mono n m : (n <= m)%nat -> le_M (expr n) (expr m).
Proof. intros Hle. apply expr_group_mono, Hle. Qed.

Lemma funcall_loop_mono n m args :
  (n <= m)%nat -> le_M (funcall_loop n args) (funcall_loop m args).
Proof.
  revert m args. induction n as [| n IH]; intros m args Hle; [apply le_M_bot |].
  destruct m as [| m]; [lia |]. simpl.
  repeat first [ mono_step | apply IH; lia | apply atom_mono; lia ].
Qed.

Lemma funcall_mono n m name : (n <= m)%nat -> le_M (funcall n name) (funcall m name).
Proof.
  intros Hle. unfold funcall.
  repeat first [ mono_step | apply funcall_loop_mono; lia | apply atom_mono; lia ].
Qed.

Lemma assignment_mono n m name :
  (n <= m)%nat -> le_M (assignment n name) (assignment m name).
Proof. intros Hle. unfold assignment. mono expr_mono. Qed.

Lemma otherstmt_mono n m : (n <= m)%nat -> le_M (otherstmt n) (otherstmt m).
Proof.
  intros Hle. unfold otherstmt.
  repeat first [ mono_step | apply assignment_mono; lia | apply funcall_mono; lia ].
Qed.

Lemma externcall_loop_mono n m body :
  (n <= m)%nat -> le_M (externcall_loop n body) (externcall_loop m body).
Proof.
  revert m body. induction n as [| n IH]; intros m body Hle; [apply le_M_bot |].
  destruct m as [| m]; [lia |]. simpl.
  repeat first [ mono_step | apply IH; lia | apply scan_until_types_mono; lia ].
Qed.

Lemma externcall_mono n m : (n <= m)%nat -> le_M (externcall n) (externcall m).
Proof. intros Hle. unfold externcall. mono externcall_loop_mono. Qed.

Lemma functiondef_loop_mono n m args :
  (n <= m)%nat -> le_M (functiondef_loop n args) (functiondef_loop m args).
Proof.
  revert m args. induction n as [| n IH]; intros m args Hle; [apply le_M_bot |].
  destruct m as [| m]; [lia |]. simpl. mono IH.
Qed.

Lemma block_group_mono n :
  forall m, (n <= m)%nat ->
    le_M (block n) (block m) /\
    (forall l, le_M (block_loop n l) (block_loop m l)) /\
    le_M (stmt n) (stmt m) /\
    le_M (ifstmt n) (ifstmt m) /\
    le_M (functiondef n) (functiondef m).
Proof.
  induction n as [| n IH]; intros m Hle.
  { repeat split; intros; apply le_M_bot. }
  destruct m as [| m]; [lia |].
  destruct (IH m ltac:(lia)) as (Hb & Hbl & Hs & Hi & Hf).
  repeat split; intros; simpl;
    repeat first
      [ mono_step | assumption | solve [auto]
      | apply scan_until_char_mono; lia | apply externcall_mono; lia
      | apply otherstmt_mono; lia | apply expr_mono; lia
      | apply functiondef_loop_mono; lia ].
Qed.

Lemma block_mono n m : (n <= m)%nat -> le_M (block n) (block m).
Proof. intros Hle. apply block_group_mono, Hle. Qed.

Lemma module_mono n m : (n <= m)%nat -> le_M (module n) (module m).
Proof. intros Hle. unfold module. mono block_mono. Qed.

Lemma parse_string_mono n m text :
  (n <= m)%nat -> le_M (parse_string n text) (parse_string m text).
Proof. intros Hle. unfold parse_string. mono module_mono. Qed.

Lemma run_parse_string_mono n m text :
  (n <= m)%nat ->
  run_parse_string n text = Diverged \/
  run_parse_string m text = run_parse_string n text.
Proof.
  intros Hle. unfold run_parse_string.
  destruct (parse_string_mono n m text Hle Parser_new) as [-> | ->];
    [left | right]; reflexivity.
Qed.

(** The parse of a text has one result. *)
Lemma parses_to_functional text r r' :
  parses_to text r -> parses_to text r' -> r = r'.
Proof.
  intros (n & Hn & Hr) (m & Hm & Hr').
  destruct (Nat.le_ge_cases n m) as [Hle | Hle].
  - destruct (run_parse_string_mono n m text Hle) as [H | H]; congruence.
  - destruct (run_parse_string_mono m n text Hle) as [H | H]; congruence.
Qed.

Lemma parses_to_not_diverges text r : parses_to text r -> ~ diverges text.
Proof. intros (n & Hn & Hr) Hd. rewrite Hd in Hn. congruence. Qed.

(** A parse that is out of fuel at arbitrarily large amounts of fuel
    diverges. *)
Lemma diverges_from text n :
  (forall k, run_parse_string (n + k) text = Diverged) -> diverges text.
Proof.
  intros H fuel.
  destruct (run_parse_string_mono fuel (n + fuel) text ltac:(lia)) as [Hd | He];
    [exact Hd |].
  rewrite <- He. apply H.
Qed.

Ltac parses_with n :=
  exists n; split; [vm_compute; reflexivity | discriminate].

(** * The tokenizer on the text *)

(** ** Strings and positions *)

Lemma string_drop_empty n : string_drop n EmptyString = EmptyString.
Proof. destruct n; reflexivity. Qed.

Lemma string_drop_cons n s c s' :
  string_drop n s = String c s' ->
  String.get n s = Some c /\ string_drop (S n) s = s' /\ (n < String.length s)%nat.
Proof.
  revert s. induction n as [| n IH]; intros s H.
  - simpl in H. subst s. simpl. repeat split. lia.
  - destruct s as [| d s0]; simpl in H; [discriminate |].
    destruct (IH _ H) as (Hg & Hd & Hl). simpl. repeat split; [exact Hg | exact Hd | lia].
Qed.

Lemma string_drop_nil n s :
  string_drop n s = EmptyString -> (String.length s <= n)%nat.
Proof.
  revert s. induction n as [| n IH]; intros s H.
  - simpl in H. subst s. simpl. lia.
  - destruct s as [| d s0]; simpl in *; [lia |]. specialize (IH _ H). lia.
Qed.

Lemma string_drop_S n s :
  string_drop (S n) s = string_drop 1 (string_drop n s).
Proof.
  revert s. induction n as [| n IH]; intros s; [reflexivity |].
  destruct s as [| d s0]; [reflexivity |].
  change (string_drop (S (S n)) (String d s0)) with (string_drop (S n) s0).
  change (string_drop (S n) (String d s0)) with (string_drop n s0).
  apply IH.
Qed.

Lemma string_drop_add n m s :
  string_drop (n + m) s = string_drop m (string_drop n s).
Proof.
  revert s. induction n as [| n IH]; intros s; [reflexivity |].
  destruct s as [| d s0]; simpl; [symmetry; apply string_drop_empty | apply IH].
Qed.

Lemma string_drop_length n s :
  String.length (string_drop n s) = (String.length s - n)%nat.
Proof.
  revert s. induction n as [| n IH]; intros s; simpl; [lia |].
  destruct s as [| d s0]; simpl; [reflexivity | apply IH].
Qed.

Lemma occurs_drop c n s : occurs c (string_drop n s) = true -> occurs c s = true.
Proof.
  revert s. induction n as [| n IH]; intros s H; [exact H |].
  destruct s as [| d s0]; simpl in *; [discriminate |].
  rewrite (IH _ H). apply orb_true_r.
Qed.

Lemma append_cons c s s' : String c s +:+ s' = String c (s +:+ s').
Proof. reflexivity. Qed.

Lemma append_nil_l s : EmptyString +:+ s = s.
Proof. reflexivity. Qed.

Lemma length_append s1 s2 :
  String.length (s1 +:+ s2) = (String.length s1 + String.length s2)%nat.
Proof.
  induction s1 as [| c s1 IH]; [reflexivity |].
  rewrite append_cons. simpl. rewrite IH. reflexivity.
Qed.

Lemma append_assoc s1 s2 s3 : (s1 +:+ s2) +:+ s3 = s1 +:+ (s2 +:+ s3).
Proof.
  induction s1 as [| c s1 IH]; [reflexivity |].
  rewrite !append_cons, IH. reflexivity.
Qed.

Lemma append_nil_r s : s +:+ EmptyString = s.
Proof.
  induction s as [| c s IH]; [reflexivity |].
  rewrite append_cons, IH. reflexivity.
Qed.

Lemma push_back_append s c s' : push_back s c +:+ s' = s +:+ String c s'.
Proof. unfold push_back. rewrite append_assoc, append_cons. reflexivity. Qed.

Lemma span_all p s : all_chars p (span p s) = true.
Proof.
  induction s as [| c s IH]; simpl; [reflexivity |].
  destruct (p c) eqn:E; simpl; [rewrite E, IH |]; reflexivity.
Qed.

Lemma span_length p s : (String.length (span p s) <= String.length s)%nat.
Proof.
  induction s as [| c s IH]; simpl; [lia |].
  destruct (p c); simpl; lia.
Qed.

(** What follows the span does not satisfy [p]. *)
Lemma span_stop p s :
  match string_drop (String.length (span p s)) s with
  | String c _ => p c = false
  | EmptyString => True
  end.
Proof.
  induction s as [| c s IH]; simpl; [exact I |].
  destruct (p c) eqn:E; simpl; [exact IH | exact E].
Qed.

(** ** Reading the text *)

Lemma uadd_small a b : a + b < UINT_MOD -> uadd a b = a + b.
Proof. intros H. unfold uadd. apply N.mod_small, H. Qed.

Lemma usub_small a b : b <= a -> a < UINT_MOD -> usub a b = a - b.
Proof.
  intros Hle Hlt. unfold usub.
  rewrite (N.mod_small b) by lia.
  replace (a + UINT_MOD - b) with ((a - b) + 1 * UINT_MOD) by lia.
  rewrite N.Div0.mod_add. apply N.mod_small. lia.
Qed.

Lemma text_at_rest st :
  idx st <= text_length st ->
  text_at (idx st) st =
    Ok (match rest st with String c _ => c | EmptyString => NUL end) st.
Proof.
  intros Hle. unfold text_at, rest, text_length in *.
  destruct (string_drop (N.to_nat (idx st)) (text st)) as [| c s'] eqn:E.
  - apply string_drop_nil in E.
    assert (idx st = N.of_nat (String.length (text st))) as -> by lia.
    rewrite N.ltb_irrefl, N.eqb_refl. reflexivity.
  - apply string_drop_cons in E. destruct E as (Hg & _ & Hl).
    replace (idx st <? N.of_nat (String.length (text st))) with true
      by (symmetry; apply N.ltb_lt; lia).
    rewrite Hg. reflexivity.
Qed.

Lemma at_idx_same st : at_idx (idx st) st = st.
Proof. destruct st; reflexivity. Qed.

Lemma text_at_idx i st :
  i <= text_length st ->
  text_at i st =
    Ok (head_char (rest (at_idx i st))) st.
Proof.
  intros Hle.
  pose proof (text_at_rest (at_idx i st) Hle) as H.
  unfold text_at in *. cbn [idx text at_idx] in H.
  change (text_length (at_idx i st)) with (text_length st) in H.
  destruct (i <? text_length st).
  - destruct (String.get (N.to_nat i) (text st)); [| discriminate].
    injection H as ->. reflexivity.
  - destruct (i =? text_length st); [| discriminate].
    injection H as H. unfold head_char. rewrite <- H. reflexivity.
Qed.

Lemma rest_cons st c s' :
  rest st = String c s' ->
  idx st < text_length st /\ rest (at_idx (idx st + 1) st) = s'.
Proof.
  unfold rest, text_length. intros E. simpl.
  apply string_drop_cons in E. destruct E as (_ & Hd & Hl).
  split; [lia |]. rewrite <- Hd. f_equal. lia.
Qed.

Lemma rest_nil st : rest st = EmptyString -> text_length st <= idx st.
Proof. unfold rest, text_length. intros E. apply string_drop_nil in E. lia. Qed.

Lemma rest_length st :
  String.length (rest st) = (String.length (text st) - N.to_nat (idx st))%nat.
Proof. apply string_drop_length. Qed.

Lemma rest_at_idx_add i n st :
  rest (at_idx (i + N.of_nat n) st) = string_drop n (rest (at_idx i st)).
Proof.
  unfold rest. simpl. rewrite <- string_drop_add. f_equal. lia.
Qed.

Lemma at_idx_at_idx i j st : at_idx i (at_idx j st) = at_idx i st.
Proof. reflexivity. Qed.

Lemma read_while_spec p fuel acc i st :
  p NUL = false ->
  i <= text_length st -> text_length st + 1 < UINT_MOD ->
  (String.length (rest (at_idx i st)) < fuel)%nat ->
  read_while p fuel acc i st =
    Ok (acc +:+ span p (rest (at_idx i st)),
        i + N.of_nat (String.length (span p (rest (at_idx i st))))) st.
Proof.
  intros Hnul. revert acc i.
  induction fuel as [| fuel IH]; intros acc i Hi Hlen Hfuel; [lia |].
  simpl. unfold bind. rewrite (text_at_idx i st Hi).
  destruct (rest (at_idx i st)) as [| c s'] eqn:E; cbn [head_char].
  - rewrite Hnul. simpl. rewrite append_nil_r, N.add_0_r. reflexivity.
  - apply rest_cons in E. simpl in E. destruct E as (Hlt & E).
    change (text_length (at_idx i st)) with (text_length st) in Hlt.
    rewrite at_idx_at_idx in E.
    simpl. destruct (p c) eqn:Ep.
    + rewrite uadd_small by lia.
      rewrite IH; [| lia | lia | rewrite E; simpl in Hfuel; lia].
      rewrite E, push_back_append. simpl. do 2 f_equal. lia.
    + simpl. rewrite append_nil_r, N.add_0_r. reflexivity.
Qed.

Lemma is_digit_NUL : is_digit NUL = false.
Proof. reflexivity. Qed.

Lemma is_alphanumeric_NUL : is_alphanumeric NUL = false.
Proof. reflexivity. Qed.

Lemma text_fuel_rest i st : (String.length (rest (at_idx i st)) < text_fuel st)%nat.
Proof. rewrite rest_length. unfold text_fuel. simpl. lia. Qed.

Lemma in_text_idx st : in_text st -> idx st <= text_length st.
Proof. intros [H _]. exact H. Qed.

Lemma in_text_bound st : in_text st -> text_length st + 1 < UINT_MOD.
Proof. intros [_ H]. exact H. Qed.

(** ** White space *)

Ltac mred :=
  cbv beta iota delta
    [bind gets ret modify raise out_of_fuel abort
     curchar nextchar eos set_idx set_lineno].

Lemma skip_whitespace_loop_spec fuel st :
  in_text st ->
  (String.length (rest st) < fuel)%nat ->
  exists l, skip_whitespace_loop fuel st = Ok tt (skipped st l).
Proof.
  revert st. induction fuel as [| fuel IH]; intros st Hin Hfuel; [lia |].
  destruct Hin as [Hidx Hbound]. unfold skipped.
  simpl. mred.
  destruct (rest st) as [| c s'] eqn:E.
  - apply rest_nil in E. replace (text_length st <=? idx st) with true
      by (symmetry; apply N.leb_le; exact E).
    exists (lineno st). simpl. rewrite N.add_0_r. destruct st; reflexivity.
  - pose proof (text_at_rest st Hidx) as Hc. rewrite E in Hc. cbn [head_char] in Hc.
    apply rest_cons in E. destruct E as (Hlt & E).
    replace (text_length st <=? idx st) with false
      by (symmetry; apply N.leb_gt; exact Hlt).
    rewrite Hc.
    destruct (is_whitespace c) eqn:Ew.
    + assert (Hstep : forall l, exists l',
                skip_whitespace_loop fuel (mkTokenizer (text st) (uadd (idx st) 1) l) =
                Ok tt (mkTokenizer (text st)
                         (idx st + N.of_nat (String.length (span is_whitespace (String c s')))) l')).
      { intros l. rewrite uadd_small by lia.
        set (st1 := mkTokenizer (text st) (idx st + 1) l).
        assert (Hst1 : in_text st1)
          by (unfold in_text, text_length in *; simpl; lia).
        assert (Hrest : rest st1 = s') by exact E.
        destruct (IH st1 Hst1) as (l' & Hl); [rewrite Hrest; simpl in Hfuel; lia |].
        exists l'. rewrite Hl. unfold skipped. rewrite Hrest. simpl. rewrite Ew. simpl.
        do 2 f_equal. lia. }
      destruct (is_newline c); mred; apply Hstep.
    + exists (lineno st). mred. simpl. rewrite Ew. simpl.
      rewrite N.add_0_r. destruct st; reflexivity.
Qed.

Lemma skip_whitespace_spec st :
  in_text st -> exists l, skip_whitespace st = Ok tt (skipped st l).
Proof.
  intros Hin. unfold skip_whitespace. apply skip_whitespace_loop_spec; [exact Hin |].
  rewrite <- (at_idx_same st) at 1. apply text_fuel_rest.
Qed.

Lemma rest_skipped st l :
  rest (skipped st l) =
    string_drop (String.length (span is_whitespace (rest st))) (rest st).
Proof.
  unfold skipped, rest. simpl. rewrite <- string_drop_add. f_equal. lia.
Qed.

Lemma in_text_skipped st l : in_text st -> in_text (skipped st l).
Proof.
  intros [Hidx Hbound]. split; [| exact Hbound].
  pose proof (span_length is_whitespace (rest st)) as Hs.
  rewrite rest_length in Hs. unfold skipped, text_length in *. simpl. lia.
Qed.

Lemma skipped_not_whitespace st l c s :
  rest (skipped st l) = String c s -> is_whitespace c = false.
Proof.
  rewrite rest_skipped. intros E.
  pose proof (span_stop is_whitespace (rest st)) as H. rewrite E in H. exact H.
Qed.

(** Where no white space is to skip, nothing changes. *)
Lemma skipped_same st c s :
  rest st = String c s -> is_whitespace c = false -> skipped st (lineno st) = st.
Proof.
  intros E Hc. unfold skipped. rewrite E. simpl. rewrite Hc. simpl.
  rewrite N.add_0_r. destruct st; reflexivity.
Qed.

Lemma skipped_end st : rest st = EmptyString -> skipped st (lineno st) = st.
Proof.
  intros E. unfold skipped. rewrite E. simpl.
  rewrite N.add_0_r. destruct st; reflexivity.
Qed.

Lemma rest_cons_text_at st c s :
  rest st = String c s -> text_at (idx st) st = Ok c st.
Proof.
  intros E. pose proof (rest_cons _ _ _ E) as (Hlt & _).
  rewrite text_at_rest by lia. rewrite E. reflexivity.
Qed.

Lemma rest_cons_eos st c s :
  rest st = String c s -> (text_length st <=? idx st) = false.
Proof.
  intros E. pose proof (rest_cons _ _ _ E) as (Hlt & _). apply N.leb_gt, Hlt.
Qed.

Lemma skip_whitespace_same st c s :
  rest st = String c s -> is_whitespace c = false ->
  skip_whitespace st = Ok tt st.
Proof.
  intros E Hc. unfold skip_whitespace, text_fuel. simpl. mred.
  rewrite (rest_cons_eos st c s E), (rest_cons_text_at st c s E), Hc. reflexivity.
Qed.

(** ** Numbers and symbols *)

Lemma rest_add n st :
  rest (at_idx (idx st + N.of_nat n) st) = string_drop n (rest st).
Proof. rewrite rest_at_idx_add, at_idx_same. reflexivity. Qed.

Lemma head_char_not_NUL s c :
  head_char s = c -> c <> NUL -> exists s', s = String c s'.
Proof. destruct s as [| d s']; simpl; intros <- H; [congruence | eauto]. Qed.

Lemma read_number_spec st :
  in_text st ->
  read_number st =
    Ok (fst (lex_number (rest st)), idx st + N.of_nat (snd (lex_number (rest st)))) st.
Proof.
  intros [Hidx Hbound]. unfold read_number, lex_number. mred.
  rewrite (read_while_spec is_digit _ EmptyString (idx st) st is_digit_NUL Hidx Hbound
             (text_fuel_rest _ _)).
  cbv beta iota. rewrite at_idx_same, append_nil_l.
  set (ds := span is_digit (rest st)).
  assert (Hds : (String.length ds <= String.length (text st) - N.to_nat (idx st))%nat).
  { rewrite <- rest_length. apply span_length. }
  assert (Hnew : idx st + N.of_nat (String.length ds) <= text_length st)
    by (unfold text_length in *; lia).
  rewrite (text_at_idx _ st Hnew). cbv beta iota. rewrite rest_add.
  set (after := string_drop (String.length ds) (rest st)).
  destruct (Ascii.eqb (head_char after) ".") eqn:Edot; [| reflexivity].
  apply Ascii.eqb_eq in Edot.
  destruct (head_char_not_NUL _ _ Edot ltac:(discriminate)) as (after' & Eafter).
  assert (Hlen : (String.length ds < String.length (rest st))%nat).
  { pose proof (string_drop_length (String.length ds) (rest st)) as H.
    fold after in H. rewrite Eafter in H. simpl in H. lia. }
  rewrite rest_length in Hlen.
  rewrite uadd_small by (unfold text_length in *; lia).
  rewrite (read_while_spec is_digit _ _ _ st is_digit_NUL) ;
    [| unfold text_length in *; lia | exact Hbound | apply text_fuel_rest].
  cbv beta iota.
  replace (idx st + N.of_nat (String.length ds) + 1)
    with (idx st + N.of_nat (String.length ds + 1)) by lia.
  rewrite rest_add, string_drop_add. fold after.
  cbn [fst snd]. do 2 f_equal; [rewrite append_assoc; reflexivity | lia].
Qed.

Lemma read_symbol_spec st :
  in_text st ->
  read_symbol st =
    Ok (fst (lex_symbol (rest st)), idx st + N.of_nat (snd (lex_symbol (rest st)))) st.
Proof.
  intros [Hidx Hbound]. unfold read_symbol, lex_symbol. mred.
  rewrite (read_while_spec is_alphanumeric _ EmptyString (idx st) st
             is_alphanumeric_NUL Hidx Hbound (text_fuel_rest _ _)).
  cbv beta iota. rewrite at_idx_same, append_nil_l. reflexivity.
Qed.

(** ** [get_token] computes [lex] *)

Lemma get_token_lex_at st l :
  in_text st ->
  skip_whitespace st = Ok tt (skipped st l) ->
  get_token st =
    Ok (fst (lex (rest (skipped st l))),
        idx (skipped st l) + N.of_nat (snd (lex (rest (skipped st l)))))
       (skipped st l).
Proof.
  intros Hin Hl.
  pose proof (in_text_skipped st l Hin) as Hin'.
  set (st' := skipped st l) in *. destruct Hin' as [Hidx Hbound].
  unfold get_token. cbv beta iota delta [bind]. rewrite Hl. mred.
  rewrite (text_at_rest st' Hidx).
  destruct (rest st') as [| c s0] eqn:E; cbn [head_char]; cbv beta iota.
  - apply rest_nil in E.
    replace (text_length st' <=? idx st') with true by (symmetry; apply N.leb_le; exact E).
    simpl. rewrite N.add_0_r. reflexivity.
  - pose proof (rest_cons _ _ _ E) as (Hlt & Hnext).
    replace (text_length st' <=? idx st') with false by (symmetry; apply N.leb_gt; exact Hlt).
    unfold lex.
    repeat match goal with
    | |- context [if Ascii.eqb c ?d then _ else _] =>
        lazymatch d with
        | "="%char => fail
        | _ => destruct (Ascii.eqb c d);
               [rewrite uadd_small by lia; reflexivity |]
        end
    end.
    destruct (Ascii.eqb c "=").
    { rewrite uadd_small by lia.
      rewrite (text_at_idx (idx st' + 1) st') by lia. rewrite Hnext. cbv beta iota.
      destruct (Ascii.eqb (head_char s0) "=") eqn:Eeq.
      - apply Ascii.eqb_eq in Eeq.
        destruct (head_char_not_NUL _ _ Eeq ltac:(discriminate)) as (s1 & ->).
        pose proof (rest_length st') as Hlen. rewrite E in Hlen. simpl in Hlen.
        rewrite uadd_small by (unfold text_length in *; lia). reflexivity.
      - reflexivity. }
    repeat match goal with
    | |- context [if Ascii.eqb c ?d then _ else _] =>
        destruct (Ascii.eqb c d); [rewrite uadd_small by lia; reflexivity |]
    end.
    destruct (is_digit c).
    + rewrite read_number_spec by (split; assumption). rewrite E. reflexivity.
    + rewrite read_symbol_spec by (split; assumption). rewrite E. reflexivity.
Qed.

(** ** Properties of [lex] *)

Lemma lex_number_bound s : (snd (lex_number s) <= String.length s)%nat.
Proof.
  unfold lex_number.
  pose proof (span_length is_digit s) as Hds.
  set (ds := span is_digit s) in *.
  set (after := string_drop (String.length ds) s).
  destruct (Ascii.eqb (head_char after) ".") eqn:E; [| exact Hds].
  apply Ascii.eqb_eq in E.
  destruct (head_char_not_NUL _ _ E ltac:(discriminate)) as (after' & Eafter).
  pose proof (string_drop_length (String.length ds) s) as Hlen. fold after in Hlen.
  rewrite Eafter in *. simpl in Hlen. simpl.
  pose proof (span_length is_digit after'). lia.
Qed.

Ltac lex_cases c tac :=
  repeat match goal with
  | |- context [if Ascii.eqb c ?d then _ else _] =>
      lazymatch d with
      | "="%char => fail
      | _ => destruct (Ascii.eqb c d) eqn:?; [tac |]
      end
  end.

Lemma lex_bound s : (snd (lex s) <= String.length s)%nat.
Proof.
  destruct s as [| c s]; [simpl; lia |]. unfold lex.
  lex_cases c ltac:(simpl; lia).
  destruct (Ascii.eqb c "=").
  { destruct (head_char s =? "=")%char eqn:E; simpl; [| lia].
    apply Ascii.eqb_eq in E.
    destruct (head_char_not_NUL _ _ E ltac:(discriminate)) as (s' & ->). simpl. lia. }
  lex_cases c ltac:(simpl; lia).
  destruct (is_digit c); [apply lex_number_bound | apply span_length].
Qed.

Lemma get_token_lex st :
  in_text st ->
  exists l,
    get_token st =
      Ok (fst (lex (rest (skipped st l))),
          idx (skipped st l) + N.of_nat (snd (lex (rest (skipped st l)))))
         (skipped st l).
Proof.
  intros Hin. destruct (skip_whitespace_spec st Hin) as (l & Hl). exists l.
  apply get_token_lex_at; assumption.
Qed.

(** ** [peek] and [next] *)

Lemma peek_lex st :
  in_text st ->
  exists l, peek st = Ok (fst (lex (rest (skipped st l)))) (skipped st l).
Proof.
  intros Hin. destruct (get_token_lex st Hin) as (l & H). exists l.
  unfold peek. cbv beta iota delta [bind]. rewrite H. reflexivity.
Qed.

Lemma next_lex st :
  in_text st ->
  exists l,
    next st =
      Ok tt (at_idx (idx (skipped st l) + N.of_nat (snd (lex (rest (skipped st l)))))
               (skipped st l)).
Proof.
  intros Hin. destruct (get_token_lex st Hin) as (l & H). exists l.
  unfold next. cbv beta iota delta [bind]. rewrite H. reflexivity.
Qed.

Lemma in_text_advance st n :
  in_text st -> (n <= String.length (rest st))%nat ->
  in_text (at_idx (idx st + N.of_nat n) st).
Proof.
  intros [Hidx Hbound] Hn. rewrite rest_length in Hn.
  split; [| exact Hbound]. unfold text_length in *. simpl. lia.
Qed.

(** The tokenizer stays inside its text: from a position of the text,
    [peek] and [next] return, and leave a position of the same text. *)
Lemma peek_in_text st :
  in_text st ->
  exists t st', peek st = Ok t st' /\ in_text st' /\ text st' = text st.
Proof.
  intros Hin. destruct (peek_lex st Hin) as (l & H).
  eexists _, _. split; [exact H |]. split; [apply in_text_skipped, Hin | reflexivity].
Qed.

Lemma next_in_text st :
  in_text st ->
  exists st', next st = Ok tt st' /\ in_text st' /\ text st' = text st.
Proof.
  intros Hin. destruct (next_lex st Hin) as (l & H).
  eexists. split; [exact H |]. split; [| reflexivity].
  apply in_text_advance; [apply in_text_skipped, Hin | apply lex_bound].
Qed.

(** ** A character that starts no token *)

Lemma occurs_false_cons c d s :
  occurs c (String d s) = false -> Ascii.eqb c d = false /\ occurs c s = false.
Proof.
  simpl. intros H. apply orb_false_elim in H. destruct H as [H1 H2].
  split; [rewrite Ascii.eqb_sym; exact H1 | exact H2].
Qed.

Lemma no_token_char_lex c s :
  no_token_char c = true -> lex (String c s) = (Token.Symbol EmptyString, O).
Proof.
  unfold no_token_char. intros H.
  apply andb_prop in H. destruct H as [H Hl].
  apply andb_prop in H. destruct H as [H Hd].
  apply andb_prop in H. destruct H as [Hw Ho].
  apply negb_true_iff in Hw, Ho, Hd, Hl.
  unfold single_char_tokens in Ho. cbv [String.append] in Ho.
  repeat (apply occurs_false_cons in Ho; destruct Ho as [? Ho]).
  unfold lex.
  repeat match goal with
  | H : Ascii.eqb c ?d = false |- _ => rewrite H; clear H
  end.
  rewrite Hd. unfold lex_symbol. simpl.
  assert (is_alphanumeric c = false) as ->.
  { unfold is_alphanumeric. rewrite Hd. exact Hl. }
  reflexivity.
Qed.

Lemma no_token_char_not_whitespace c : no_token_char c = true -> is_whitespace c = false.
Proof.
  unfold no_token_char. intros H.
  repeat (apply andb_prop in H; destruct H as [H ?]). apply negb_true_iff, H.
Qed.

(** At such a character the token is an empty symbol that takes nothing:
    [get_token] gives it with the index it started from, and neither
    [peek] nor [next] changes the tokenizer. *)
Lemma get_token_no_token_char st c s :
  rest st = String c s -> no_token_char c = true ->
  get_token st = Ok (Token.Symbol EmptyString, idx st) st.
Proof.
  intros E Hc.
  pose proof (no_token_char_not_whitespace c Hc) as Hw.
  pose proof (no_token_char_lex c s Hc) as Hlex.
  unfold get_token. cbv beta iota delta [bind].
  rewrite (skip_whitespace_same st c s E Hw). mred.
  rewrite (rest_cons_text_at st c s E), (rest_cons_eos st c s E). cbv beta iota.
  unfold lex in Hlex.
  repeat match goal with
  | |- context [if Ascii.eqb c ?d then _ else _] =>
      destruct (Ascii.eqb c d); [try discriminate Hlex |]
  end.
  - destruct (Ascii.eqb (head_char s) "="); discriminate Hlex.
  - destruct (is_digit c).
    + unfold lex_number in Hlex.
      destruct (Ascii.eqb _ "."); discriminate Hlex.
    + unfold lex_symbol in Hlex. simpl in Hlex.
      unfold read_symbol, text_fuel. simpl. mred.
      rewrite (rest_cons_text_at st c s E).
      destruct (is_alphanumeric c); [discriminate Hlex |]. reflexivity.
Qed.

Lemma peek_no_token_char st c s :
  rest st = String c s -> no_token_char c = true ->
  peek st = Ok (Token.Symbol EmptyString) st.
Proof.
  intros E Hc. unfold peek. cbv beta iota delta [bind].
  rewrite (get_token_no_token_char st c s E Hc). reflexivity.
Qed.

Lemma next_no_token_char st c s :
  rest st = String c s -> no_token_char c = true ->
  next st = Ok tt st.
Proof.
  intros E Hc. unfold next. cbv beta iota delta [bind].
  rewrite (get_token_no_token_char st c s E Hc). simpl.
  unfold set_idx, modify. destruct st; reflexivity.
Qed.

Lemma bind_ok {S A B} (m : M S A) (k : A -> M S B) s a s' :
  m s = Ok a s' -> bind m k s = k a s'.
Proof. intros H. unfold bind. rewrite H. reflexivity. Qed.

Lemma bind_out_of_fuel {S A B} (m : M S A) (k : A -> M S B) s :
  m s = OutOfFuel -> bind m k s = OutOfFuel.
Proof. intros H. unfold bind. rewrite H. reflexivity. Qed.

Lemma bind_abort {S A B} (m : M S A) (k : A -> M S B) s msg :
  m s = Abort msg -> bind m k s = Abort msg.
Proof. intros H. unfold bind. rewrite H. reflexivity. Qed.

Lemma bind_fault {S A B} (m : M S A) (k : A -> M S B) s f :
  m s = Fault f -> bind m k s = Fault f.
Proof. intros H. unfold bind. rewrite H. reflexivity. Qed.

Lemma isa_Symbol_other s ty :
  ty <> Token.SymbolType -> Token.isa (Token.Symbol s) ty = false.
Proof.
  intros H. unfold Token.isa. apply bool_decide_eq_false. simpl. congruence.
Qed.

Lemma scan_until_loop_no_progress stop fuel st c s :
  rest st = String c s -> no_token_char c = true ->
  stop (Token.Symbol EmptyString) = false ->
  scan_until_loop stop fuel (Token.Symbol EmptyString) st = OutOfFuel.
Proof.
  intros E Hc Hstop. induction fuel as [| fuel IH]; [reflexivity |].
  simpl. rewrite Hstop.
  rewrite (bind_ok eos _ st false st)
    by (unfold eos, gets; rewrite (rest_cons_eos st c s E); reflexivity).
  cbv beta iota.
  rewrite (bind_ok next _ st tt st (next_no_token_char st c s E Hc)).
  rewrite (bind_ok peek _ st _ st (peek_no_token_char st c s E Hc)).
  exact IH.
Qed.

Lemma scan_until_type_no_progress fuel ty st c s :
  rest st = String c s -> no_token_char c = true ->
  ty <> Token.SymbolType ->
  scan_until_type fuel ty st = OutOfFuel.
Proof.
  intros E Hc Hty. unfold scan_until_type.
  rewrite (bind_ok (gets idx) _ st (idx st) st eq_refl).
  rewrite (bind_ok peek _ st _ st (peek_no_token_char st c s E Hc)).
  apply bind_out_of_fuel.
  apply (scan_until_loop_no_progress _ fuel st c s E Hc).
  apply isa_Symbol_other, Hty.
Qed.

Lemma scan_until_types_no_progress fuel a b st c s :
  rest st = String c s -> no_token_char c = true ->
  a <> Token.SymbolType -> b <> Token.SymbolType ->
  scan_until_types fuel a b st = OutOfFuel.
Proof.
  intros E Hc Ha Hb. unfold scan_until_types.
  rewrite (bind_ok (gets idx) _ st (idx st) st eq_refl).
  rewrite (bind_ok peek _ st _ st (peek_no_token_char st c s E Hc)).
  apply bind_out_of_fuel.
  apply (scan_until_loop_no_progress _ fuel st c s E Hc).
  rewrite !isa_Symbol_other by assumption. reflexivity.
Qed.

(** ** Calls through the parser's tokenizer *)

Lemma tok_ok {A} (m : M Tokenizer A) p t a t' :
  tokenizer p = Some t -> m t = Ok a t' ->
  tok m p = Ok a (set_tokenizer (Some t') p).
Proof. intros Ht Hm. unfold tok. rewrite Ht, Hm. reflexivity. Qed.

Lemma tok_same {A} (m : M Tokenizer A) p t a :
  tokenizer p = Some t -> m t = Ok a t -> tok m p = Ok a p.
Proof.
  intros Ht Hm. rewrite (tok_ok m p t a t Ht Hm).
  destruct p; simpl in *; subst; reflexivity.
Qed.

Lemma tok_out_of_fuel {A} (m : M Tokenizer A) p t :
  tokenizer p = Some t -> m t = OutOfFuel -> tok m p = OutOfFuel.
Proof. intros Ht Hm. unfold tok. rewrite Ht, Hm. reflexivity. Qed.

Lemma tok_fault {A} (m : M Tokenizer A) p t f :
  tokenizer p = Some t -> m t = Fault f -> tok m p = Fault f.
Proof. intros Ht Hm. unfold tok. rewrite Ht, Hm. reflexivity. Qed.

(** The statement parser at a character that starts no token: the empty
    symbol passes [symbol], nothing is consumed, and the token after it is
    the same empty symbol, which is neither [=] nor [(]. *)
Lemma stmt_no_token_char fuel p st c s :
  tokenizer p = Some st -> rest st = String c s -> no_token_char c = true ->
  stmt (S fuel) p = Abort "Unexpected token in statement.".
Proof.
  intros Hp E Hc.
  pose proof (tok_same peek p st _ Hp (peek_no_token_char st c s E Hc)) as Hpeek.
  pose proof (tok_same next p st _ Hp (next_no_token_char st c s E Hc)) as Hnext.
  simpl. rewrite (bind_ok _ _ _ _ _ Hpeek). simpl.
  unfold otherstmt, symbol.
  apply bind_abort.
  rewrite (bind_ok (bind (tok peek) _) _ p EmptyString p).
  - rewrite (bind_ok _ _ _ _ _ Hpeek). reflexivity.
  - rewrite (bind_ok _ _ _ _ _ Hpeek).
    unfold expect. simpl. rewrite (bind_ok _ _ _ _ _ Hnext). reflexivity.
Qed.

Lemma block_loop_no_token_char fuel l p st c s :
  tokenizer p = Some st -> rest st = String c s -> no_token_char c = true ->
  block_loop (S (S fuel)) l p = Abort "Unexpected token in statement.".
Proof.
  intros Hp E Hc.
  pose proof (tok_same peek p st _ Hp (peek_no_token_char st c s E Hc)) as Hpeek.
  change (block_loop (S (S fuel)) l p) with
    (bind (tok peek) (fun t =>
       bind (if Token.isa t Token.SharpType
             then bind (tok (scan_until_char (S fuel) LF)) (fun _ => ret tt)
             else ret tt)
         (fun _ => bind (stmt (S fuel)) (fun s0 =>
            let statements := match s0 with Some n => l ++ [n] | None => l end in
            bind (tok peek) (fun t0 =>
              if negb (Token.isa t0 Token.RBraceType)
              then block_loop (S fuel) statements
              else ret statements)))) p).
  rewrite (bind_ok _ _ _ _ _ Hpeek). simpl Token.isa. cbv iota.
  rewrite (bind_ok (ret tt) _ p tt p eq_refl).
  apply bind_abort. apply (stmt_no_token_char fuel p st c s Hp E Hc).
Qed.

(** ** Numbers *)

Lemma is_digit_not c d : is_digit c = true -> is_digit d = false -> Ascii.eqb c d = false.
Proof.
  intros Hc Hd. destruct (Ascii.eqb_spec c d) as [-> |]; [congruence | reflexivity].
Qed.

Lemma lex_digit c s : is_digit c = true -> lex (String c s) = lex_number (String c s).
Proof.
  intros Hc. unfold lex.
  repeat match goal with
  | |- context [if Ascii.eqb c ?d then _ else _] =>
      rewrite (is_digit_not c d Hc eq_refl)
  end.
  rewrite Hc. reflexivity.
Qed.

Lemma is_digit_not_whitespace c : is_digit c = true -> is_whitespace c = false.
Proof.
  intros Hc. unfold is_whitespace, is_newline.
  rewrite (is_digit_not c " " Hc eq_refl), (is_digit_not c TAB Hc eq_refl),
    (is_digit_not c LF Hc eq_refl). reflexivity.
Qed.

Lemma count_char_append c s1 s2 :
  count_char c (s1 +:+ s2) = (count_char c s1 + count_char c s2)%nat.
Proof.
  induction s1 as [| d s1 IH]; [reflexivity |].
  rewrite append_cons. simpl. rewrite IH. lia.
Qed.

Lemma all_chars_append p s1 s2 :
  all_chars p (s1 +:+ s2) = all_chars p s1 && all_chars p s2.
Proof.
  induction s1 as [| d s1 IH]; [reflexivity |].
  rewrite append_cons. simpl. rewrite IH. apply andb_assoc.
Qed.

Lemma all_chars_impl (p q : ascii -> bool) s :
  (forall c, p c = true -> q c = true) -> all_chars p s = true -> all_chars q s = true.
Proof.
  intros Hpq. induction s as [| c s IH]; simpl; [reflexivity |].
  intros H. apply andb_prop in H. destruct H as [Hc Hs].
  rewrite (Hpq c Hc), (IH Hs). reflexivity.
Qed.

Lemma count_char_digits s : all_chars is_digit s = true -> count_char "." s = O.
Proof.
  induction s as [| c s IH]; simpl; [reflexivity |].
  intros H. apply andb_prop in H. destruct H as [Hc Hs].
  rewrite (is_digit_not c "." Hc eq_refl), (IH Hs). reflexivity.
Qed.

Lemma get_token_digit st c s :
  in_text st -> rest st = String c s -> is_digit c = true ->
  get_token st =
    Ok (fst (lex_number (rest st)), idx st + N.of_nat (snd (lex_number (rest st)))) st.
Proof.
  intros Hin E Hc.
  pose proof (is_digit_not_whitespace c Hc) as Hw.
  pose proof (skip_whitespace_same st c s E Hw) as Hsame.
  pose proof (skipped_same st c s E Hw) as Hsk.
  rewrite <- Hsk in Hsame at 2.
  rewrite (get_token_lex_at st (lineno st) Hin Hsame), Hsk, E.
  rewrite (lex_digit c s Hc). reflexivity.
Qed.

(** ** [scan_until(char)] *)

Lemma occurs_false_head c d s : occurs c (String d s) = false -> Ascii.eqb d c = false.
Proof. simpl. intros H. apply orb_false_elim in H. apply H. Qed.

Lemma occurs_false_tail c d s : occurs c (String d s) = false -> occurs c s = false.
Proof. simpl. intros H. apply orb_false_elim in H. apply H. Qed.

Lemma text_at_beyond i st : text_length st < i -> text_at i st = Fault (OutOfBounds i).
Proof.
  intros H. unfold text_at.
  replace (i <? text_length st) with false by (symmetry; apply N.ltb_ge; lia).
  replace (i =? text_length st) with false by (symmetry; apply N.eqb_neq; lia).
  reflexivity.
Qed.

Lemma curchar_rest st :
  idx st <= text_length st -> curchar st = Ok (head_char (rest st)) st.
Proof. intros H. unfold curchar. mred. apply text_at_rest, H. Qed.

(** The loop from position [i] when [c] is not in the rest of the text:
    it passes the last character, reads the terminator, and reads outside
    the buffer next. *)
Lemma scan_until_char_loop_past_end c st :
  c <> NUL -> text_length st + 1 < UINT_MOD ->
  forall fuel i,
    i <= text_length st ->
    occurs c (rest (at_idx i st)) = false ->
    (String.length (rest (at_idx i st)) + 1 < fuel)%nat ->
    scan_until_char_loop fuel c (at_idx i st) = Fault (OutOfBounds (text_length st + 1)).
Proof.
  intros Hc Hbound. induction fuel as [| fuel IH]; intros i Hi Hocc Hfuel; [lia |].
  simpl. rewrite (bind_ok curchar _ _ _ _ (curchar_rest (at_idx i st) Hi)).
  destruct (rest (at_idx i st)) as [| d r] eqn:E; cbn [head_char].
  - apply rest_nil in E. simpl in E.
    assert (i = text_length st) as -> by (change (text_length (at_idx i st)) with (text_length st) in E; lia).
    replace (Ascii.eqb NUL c) with false
      by (symmetry; apply Ascii.eqb_neq; congruence).
    mred. cbn [idx text lineno at_idx]. rewrite uadd_small by lia.
    destruct fuel as [| fuel]; [simpl in Hfuel; lia |].
    simpl. apply bind_fault. unfold curchar. mred. cbn [idx].
    apply (text_at_beyond _ (mkTokenizer (text st) (text_length st + 1) (lineno st))).
    change (text_length (mkTokenizer (text st) (text_length st + 1) (lineno st)))
      with (text_length st). lia.
  - rewrite (occurs_false_head c d r Hocc).
    apply rest_cons in E. destruct E as (Hlt & E). simpl in Hlt, E.
    change (text_length (at_idx i st)) with (text_length st) in Hlt.
    mred. cbn [idx text lineno at_idx]. rewrite uadd_small by lia.
    change (mkTokenizer (text st) (i + 1) (lineno st)) with (at_idx (i + 1) st).
    apply IH; [lia | | ].
    + change (at_idx (i + 1) (at_idx i st)) with (at_idx (i + 1) st) in E.
      rewrite E. apply (occurs_false_tail c d r Hocc).
    + change (at_idx (i + 1) (at_idx i st)) with (at_idx (i + 1) st) in E.
      rewrite E. simpl in Hfuel. lia.
Qed.

Lemma scan_until_char_past_end fuel c st :
  in_text st -> c <> NUL -> occurs c (rest st) = false ->
  (String.length (rest st) + 1 < fuel)%nat ->
  scan_until_char fuel c st = Fault (OutOfBounds (text_length st + 1)).
Proof.
  intros [Hidx Hbound] Hc Hocc Hfuel. unfold scan_until_char.
  rewrite (bind_ok (gets idx) _ st (idx st) st eq_refl).
  apply bind_fault. rewrite <- (at_idx_same st) at 1.
  apply scan_until_char_loop_past_end; try assumption; rewrite at_idx_same; assumption.
Qed.

(** With less fuel the scan is still under way: it never returns. *)
Lemma scan_until_char_never_returns fuel c st :
  in_text st -> c <> NUL -> occurs c (rest st) = false ->
  scan_until_char fuel c st = OutOfFuel \/
  scan_until_char fuel c st = Fault (OutOfBounds (text_length st + 1)).
Proof.
  intros Hin Hc Hocc.
  set (big := (fuel + String.length (rest st) + 2)%nat).
  destruct (scan_until_char_mono fuel big c ltac:(lia) st) as [H | H]; [left; exact H |].
  right. rewrite H. apply scan_until_char_past_end; try assumption. lia.
Qed.

(** ** [scan_until(type)] stays inside the text *)

Lemma text_length_same st st' : text st' = text st -> text_length st' = text_length st.
Proof. unfold text_length. intros ->. reflexivity. Qed.

Lemma scan_until_loop_in_text stop fuel t st :
  in_text st ->
  scan_until_loop stop fuel t st = OutOfFuel \/
  exists st', scan_until_loop stop fuel t st = Ok tt st' /\
              in_text st' /\ text st' = text st.
Proof.
  revert t st. induction fuel as [| fuel IH]; intros t st Hin; [left; reflexivity |].
  simpl. destruct (stop t); [right; exists st; split; [reflexivity | split; [exact Hin | reflexivity]] |].
  rewrite (bind_ok eos _ st _ st eq_refl).
  destruct (text_length st <=? idx st); [right; exists st; split; [reflexivity | split; [exact Hin | reflexivity]] |].
  destruct (next_in_text st Hin) as (st1 & Hnext & Hin1 & Ht1).
  rewrite (bind_ok next _ _ _ _ Hnext).
  destruct (peek_in_text st1 Hin1) as (t' & st2 & Hpeek & Hin2 & Ht2).
  rewrite (bind_ok peek _ _ _ _ Hpeek).
  destruct (IH t' st2 Hin2) as [H | (st' & H & Hin' & Ht')]; [left; exact H |].
  right. exists st'. split; [exact H | split; [exact Hin' | congruence]].
Qed.

Lemma substr_in_text pos len st :
  pos <= text_length st ->
  substr pos len st = Ok (String.substring (N.to_nat pos) (N.to_nat len) (text st)) st.
Proof.
  intros H. unfold substr.
  replace (pos <=? text_length st) with true by (symmetry; apply N.leb_le, H).
  reflexivity.
Qed.

Lemma scan_until_type_in_text fuel ty st :
  in_text st ->
  scan_until_type fuel ty st = OutOfFuel \/
  exists s st', scan_until_type fuel ty st = Ok s st' /\
                in_text st' /\ text st' = text st.
Proof.
  intros Hin. unfold scan_until_type.
  rewrite (bind_ok (gets idx) _ st (idx st) st eq_refl).
  destruct (peek_in_text st Hin) as (t & st1 & Hpeek & Hin1 & Ht1).
  rewrite (bind_ok peek _ _ _ _ Hpeek).
  destruct (scan_until_loop_in_text (fun t => Token.isa t ty) fuel t st1 Hin1)
    as [H | (st' & H & Hin' & Ht')].
  - left. apply bind_out_of_fuel, H.
  - right. rewrite (bind_ok _ _ _ _ _ H).
    rewrite (bind_ok (gets idx) _ st' (idx st') st' eq_refl).
    rewrite substr_in_text.
    + eexists _, _. split; [reflexivity |]. split; [exact Hin' | congruence].
    + rewrite (text_length_same st st') by congruence. apply Hin.
Qed.

Lemma scan_until_types_in_text fuel a b st :
  in_text st ->
  scan_until_types fuel a b st = OutOfFuel \/
  exists s st', scan_until_types fuel a b st = Ok s st' /\
                in_text st' /\ text st' = text st.
Proof.
  intros Hin. unfold scan_until_types.
  rewrite (bind_ok (gets idx) _ st (idx st) st eq_refl).
  destruct (peek_in_text st Hin) as (t & st1 & Hpeek & Hin1 & Ht1).
  rewrite (bind_ok peek _ _ _ _ Hpeek).
  destruct (scan_until_loop_in_text (fun t => Token.isa t a || Token.isa t b) fuel t st1 Hin1)
    as [H | (st' & H & Hin' & Ht')].
  - left. apply bind_out_of_fuel, H.
  - right. rewrite (bind_ok _ _ _ _ _ H).
    rewrite (bind_ok (gets idx) _ st' (idx st') st' eq_refl).
    rewrite substr_in_text.
    + eexists _, _. split; [reflexivity |]. split; [exact Hin' | congruence].
    + rewrite (text_length_same st st') by congruence. apply Hin.
Qed.


(** * Scopes *)

(** ** [lookup] *)

Lemma lookup_search_spec name stack aux :
  lookup_search name stack aux =
    (first_match name stack,
     (lookup_search name stack aux).1.2, (lookup_search name stack aux).2) /\
  lookup_restore (lookup_search name stack aux).1.2 (lookup_search name stack aux).2 =
    lookup_restore stack aux.
Proof.
  revert aux. induction stack as [| top outer IH]; intros aux; [split; reflexivity |].
  simpl. unfold SymbolTable.lookup.
  destruct (top !! name) as [e |]; [split; reflexivity |].
  destruct (IH (top :: aux)) as [H1 H2]. split; [| exact H2].
  rewrite H1 at 1. reflexivity.
Qed.

Lemma set_symbol_table_stack_same p :
  set_symbol_table_stack (symbol_table_stack p) p = p.
Proof. destruct p; reflexivity. Qed.

(** [lookup] computes [first_match] and leaves the parser as it was. *)
Lemma lookup_spec name p :
  lookup name p = Ok (first_match name (symbol_table_stack p)) p.
Proof.
  unfold lookup.
  destruct (lookup_search_spec name (symbol_table_stack p) []) as [H1 H2].
  destruct (lookup_search name (symbol_table_stack p) []) as [[result stack] aux].
  simpl in *. injection H1 as ->. rewrite H2. simpl.
  rewrite set_symbol_table_stack_same. reflexivity.
Qed.

(** [first_match] in words: the frames above the one that decides have no
    entry for the name. *)
Lemma first_match_Some name stack n :
  first_match name stack = Some n <->
  exists inner frame outer e,
    stack = inner ++ frame :: outer /\
    Forall (fun f : SymbolTable.t => f !! name = None) inner /\
    frame !! name = Some e /\ node e = n.
Proof.
  induction stack as [| top rest IH]; simpl.
  - split; [discriminate |]. intros (inner & frame & outer & e & H & _).
    destruct inner; discriminate.
  - destruct (top !! name) as [e |] eqn:E.
    + split.
      * intros H. injection H as <-. exists [], top, rest, e. simpl. auto.
      * intros (inner & frame & outer & e' & H & Hinner & He & <-).
        destruct inner as [| f inner]; simpl in H; injection H as ? ?; subst.
        -- congruence.
        -- apply Forall_cons in Hinner. destruct Hinner as [Hf _]. congruence.
    + rewrite IH. split.
      * intros (inner & frame & outer & e & -> & Hinner & He & <-).
        exists (top :: inner), frame, outer, e. simpl. split_and!; auto.
      * intros (inner & frame & outer & e & H & Hinner & He & <-).
        destruct inner as [| f inner]; simpl in H; injection H as ? ?; subst.
        -- congruence.
        -- apply Forall_cons in Hinner. destruct Hinner as [_ Hinner].
           exists inner, frame, outer, e. auto.
Qed.

Lemma first_match_None name stack :
  first_match name stack = None <->
  Forall (fun f : SymbolTable.t => f !! name = None) stack.
Proof.
  induction stack as [| top rest IH]; simpl.
  - split; [constructor | reflexivity].
  - rewrite Forall_cons. destruct (top !! name) as [e |] eqn:E.
    + split; [discriminate | intros [H _]; discriminate].
    + rewrite IH. tauto.
Qed.

(** C4.  [lookup(name)] returns the node of the first frame, from the
    innermost to the outermost, that has an entry for the name, or nothing
    when no frame has one; and the parser after the call is the parser
    before it: the scope stack holds the same frames in the same order,
    whether the match was found at the top, further down, or not at all. *)
Theorem lookup_first_match_and_restores name p :
  (exists result,
     lookup name p = Ok result p /\
     (forall n,
        result = Some n <->
        exists inner frame outer e,
          symbol_table_stack p = inner ++ frame :: outer /\
          Forall (fun f : SymbolTable.t => f !! name = None) inner /\
          SymbolTable.lookup name frame = Some e /\ node e = n) /\
     (result = None <->
      Forall (fun f : SymbolTable.t => SymbolTable.lookup name f = None)
        (symbol_table_stack p))) /\
  lookup name p = Ok (first_match name (symbol_table_stack p)) p.
Proof.
  split; [| apply lookup_spec].
  exists (first_match name (symbol_table_stack p)). split; [apply lookup_spec |].
  split; [intros n; apply first_match_Some | apply first_match_None].
Qed.

(** ** Relations kept by the calls *)

Lemma bind_ok_inv {S A B} (m : M S A) (k : A -> M S B) s b s'' :
  bind m k s = Ok b s'' -> exists a s', m s = Ok a s' /\ k a s' = Ok b s''.
Proof.
  unfold bind. destruct (m s) as [a s' | | |]; try discriminate. eauto.
Qed.

Section Keeps.
Context {S : Type} (R : S -> S -> Prop).
Hypothesis R_refl : forall s, R s s.
Hypothesis R_trans : forall s1 s2 s3, R s1 s2 -> R s2 s3 -> R s1 s3.

Lemma keeps_ret {A} (a : A) : keeps R (ret a).
Proof using R_refl. intros s b s' H. injection H as _ <-. apply R_refl. Qed.


Lemma keeps_bind {A B} (m : M S A) (k : A -> M S B) :
  keeps R m -> (forall a, keeps R (k a)) -> keeps R (bind m k).
Proof using R_trans.
  intros Hm Hk s b s'' H. apply bind_ok_inv in H. destruct H as (a & s' & H1 & H2).
  eapply R_trans; [eapply Hm, H1 | eapply Hk, H2].
Qed.

Lemma keeps_out_of_fuel {A} : keeps R (@out_of_fuel S A).
Proof. intros s b s' H. discriminate. Qed.

Lemma keeps_raise {A} f : keeps R (@raise S A f).
Proof. intros s b s' H. discriminate. Qed.

End Keeps.

Lemma keeps_abort {A} (R : Parser -> Parser -> Prop) msg : keeps R (@abort A msg).
Proof. intros s b s' H. discriminate. Qed.

Lemma keeps_weaken {S A} (R R' : S -> S -> Prop) (m : M S A) :
  (forall s s', R s s' -> R' s s') -> keeps R m -> keeps R' m.
Proof. intros HR Hm s a s' H. apply HR, (Hm s a s' H). Qed.

(** ** The scope relations *)

Lemma scope_top_refl s : scope_top s s.
Proof. split; reflexivity. Qed.

Lemma scope_top_trans s1 s2 s3 : scope_top s1 s2 -> scope_top s2 s3 -> scope_top s1 s3.
Proof. intros [H1 H2] [H3 H4]. split; congruence. Qed.

Lemma extends_refl s : extends s s.
Proof. split; [apply scope_top_refl | auto]. Qed.

Lemma extends_trans s1 s2 s3 : extends s1 s2 -> extends s2 s3 -> extends s1 s3.
Proof.
  intros [H1 H2] [H3 H4]. split; [eapply scope_top_trans; eassumption | auto].
Qed.

Lemma same_scopes_refl p : same_scopes p p.
Proof. reflexivity. Qed.

Lemma same_scopes_trans p1 p2 p3 : same_scopes p1 p2 -> same_scopes p2 p3 -> same_scopes p1 p3.
Proof. unfold same_scopes. congruence. Qed.

Lemma scopes_extend_refl p : scopes_extend p p.
Proof. apply extends_refl. Qed.

Lemma scopes_extend_trans p1 p2 p3 :
  scopes_extend p1 p2 -> scopes_extend p2 p3 -> scopes_extend p1 p3.
Proof. apply extends_trans. Qed.

Lemma top_scope_changes_refl p : top_scope_changes p p.
Proof. apply scope_top_refl. Qed.

Lemma top_scope_changes_trans p1 p2 p3 :
  top_scope_changes p1 p2 -> top_scope_changes p2 p3 -> top_scope_changes p1 p3.
Proof. apply scope_top_trans. Qed.

Lemma same_scopes_extend p p' : same_scopes p p' -> scopes_extend p p'.
Proof. unfold same_scopes, scopes_extend. intros ->. apply extends_refl. Qed.

Lemma scopes_extend_top p p' : scopes_extend p p' -> top_scope_changes p p'.
Proof. intros [H _]. exact H. Qed.

(** The calls through the tokenizer and the checks leave the scopes alone. *)
Lemma tok_same_scopes {A} (m : M Tokenizer A) : keeps same_scopes (tok m).
Proof.
  intros p a p' H. unfold tok in H.
  destruct (tokenizer p) as [t |]; [| discriminate].
  destruct (m t); try discriminate. injection H as _ <-. reflexivity.
Qed.

Lemma expect_same_scopes t ty msg : keeps same_scopes (expect t ty msg).
Proof.
  unfold expect. destruct (negb (Token.isa t ty)).
  - apply keeps_bind; [apply same_scopes_trans | apply tok_same_scopes |].
    intros a. apply keeps_abort.
  - apply tok_same_scopes.
Qed.

(** ** Inserting into the innermost frame *)

Lemma first_match_insert_same name n ty frame outer :
  first_match name (SymbolTable.insert name n ty frame :: outer) = Some n.
Proof.
  simpl. unfold SymbolTable.insert. rewrite lookup_insert_eq. reflexivity.
Qed.

Lemma first_match_insert_other name name' n ty frame outer :
  name <> name' ->
  first_match name' (SymbolTable.insert name n ty frame :: outer) =
  first_match name' (frame :: outer).
Proof.
  intros Hne. simpl. unfold SymbolTable.insert.
  rewrite lookup_insert_ne by exact Hne. reflexivity.
Qed.

(** Binding a name to the node it already resolves to, or binding a name
    that resolves to nothing, extends the scopes. *)
Lemma insert_extends name n ty frame outer :
  (first_match name (frame :: outer) = Some n \/
   first_match name (frame :: outer) = None) ->
  extends (frame :: outer) (SymbolTable.insert name n ty frame :: outer).
Proof.
  intros Hn. split; [split; reflexivity |].
  intros name' n' H. destruct (decide (name = name')) as [<- | Hne].
  - rewrite first_match_insert_same. destruct Hn as [Hn | Hn]; congruence.
  - rewrite first_match_insert_other by exact Hne. exact H.
Qed.

(** ** Variables *)

Lemma lookup_or_new_var_found name p v :
  first_match name (symbol_table_stack p) = Some (Variable_ v) ->
  lookup_or_new_var name p = Ok v p.
Proof.
  intros H. unfold lookup_or_new_var.
  rewrite (bind_ok _ _ _ _ _ (lookup_spec name p)), H.
  reflexivity.
Qed.

Lemma lookup_or_new_var_new name p frame outer :
  symbol_table_stack p = frame :: outer ->
  first_match name (frame :: outer) = None ->
  lookup_or_new_var name p =
    Ok (mkVariable (variables p) name)
       (set_symbol_table_stack
          (SymbolTable.insert name (Variable_ (mkVariable (variables p) name))
             UndefinedTy frame :: outer)
          (set_variables (variables p + 1) p)).
Proof.
  intros Hs H. unfold lookup_or_new_var.
  rewrite (bind_ok _ _ _ _ _ (lookup_spec name p)), Hs, H.
  unfold new_Variable, insert_top. cbv beta iota delta [bind ret]. simpl.
  rewrite Hs. reflexivity.
Qed.

(** However the variable was come by, it is what the name resolves to
    afterwards, and the scopes before the call are extended. *)
Lemma lookup_or_new_var_spec name p v p' :
  lookup_or_new_var name p = Ok v p' ->
  first_match name (symbol_table_stack p') = Some (Variable_ v) /\
  scopes_extend p p'.
Proof.
  intros H.
  destruct (first_match name (symbol_table_stack p)) as [n |] eqn:E.
  - unfold lookup_or_new_var in H.
    rewrite (bind_ok _ _ _ _ _ (lookup_spec name p)), E in H.
    destruct n; try discriminate. injection H as <- <-.
    split; [exact E | apply scopes_extend_refl].
  - destruct (symbol_table_stack p) as [| frame outer] eqn:Hs.
    + unfold lookup_or_new_var in H.
      rewrite (bind_ok _ _ _ _ _ (lookup_spec name p)), Hs in H.
      simpl in H. unfold new_Variable, insert_top in H.
      cbv beta iota delta [bind ret] in H. simpl in H. rewrite Hs in H. discriminate.
    + rewrite (lookup_or_new_var_new name p frame outer Hs E) in H.
      injection H as <- <-. unfold scopes_extend. simpl. rewrite Hs. split.
      * apply first_match_insert_same.
      * apply insert_extends. right. exact E.
Qed.

Lemma lookup_or_new_var_extends name : keeps scopes_extend (lookup_or_new_var name).
Proof. intros p v p' H. apply (lookup_or_new_var_spec name p v p' H). Qed.

Lemma new_Variable_same_scopes name : keeps same_scopes (new_Variable name).
Proof. intros p v p' H. injection H as _ <-. reflexivity. Qed.

Lemma insert_top_top_scope name n ty : keeps top_scope_changes (insert_top name n ty).
Proof.
  intros p a p' H. unfold insert_top in H.
  destruct (symbol_table_stack p) as [| frame outer] eqn:Hs; [discriminate |].
  injection H as _ <-. unfold top_scope_changes. simpl. rewrite Hs. split; reflexivity.
Qed.

Ltac keeps_step :=
  match goal with
  | |- keeps _ (bind _ _) =>
      apply keeps_bind;
      [ first [ exact same_scopes_trans | exact scopes_extend_trans
              | exact top_scope_changes_trans ] | | intros ? ]
  | |- keeps _ (ret _) =>
      apply keeps_ret;
      first [ exact same_scopes_refl | exact scopes_extend_refl
            | exact top_scope_changes_refl ]
  | |- keeps _ out_of_fuel => apply keeps_out_of_fuel
  | |- keeps _ (raise _) => apply keeps_raise
  | |- keeps _ (abort _) => apply keeps_abort
  | |- keeps _ (if ?b then _ else _) => destruct b
  | |- keeps _ (match ?x with _ => _ end) => destruct x
  | |- keeps _ (get_binop_operator _) => unfold get_binop_operator
  | |- keeps _ (get_unaryop_operator _) => unfold get_unaryop_operator
  | |- keeps same_scopes (tok _) => apply tok_same_scopes
  | |- keeps same_scopes (expect _ _ _) => apply expect_same_scopes
  | |- keeps same_scopes (new_Variable _) => apply new_Variable_same_scopes
  | |- keeps scopes_extend (lookup_or_new_var _) => apply lookup_or_new_var_extends
  | |- keeps top_scope_changes (insert_top _ _ _) => apply insert_top_top_scope
  | |- keeps scopes_extend ?m =>
      apply (keeps_weaken same_scopes scopes_extend m same_scopes_extend)
  | |- keeps top_scope_changes ?m =>
      apply (keeps_weaken scopes_extend top_scope_changes m scopes_extend_top)
  end.

Ltac keeps_tac := repeat keeps_step.

Lemma symbol_same_scopes : keeps same_scopes symbol.
Proof. unfold symbol. keeps_tac. Qed.

Lemma var_extends : keeps scopes_extend var.
Proof. unfold var. keeps_tac. Qed.

Lemma arg_top_scope : keeps top_scope_changes arg.
Proof. unfold arg. keeps_tac. Qed.

Lemma atom_extends fuel : keeps scopes_extend (atom fuel).
Proof. unfold atom. keeps_tac. Qed.

(** ** Expressions and statements *)

Ltac split_all := repeat match goal with |- _ /\ _ => split end.

Lemma expr_group_extends n :
  keeps scopes_extend (expr n) /\
  keeps scopes_extend (arith n) /\
  (forall a t, keeps scopes_extend (arith_loop n a t)) /\
  keeps scopes_extend (term n) /\
  (forall a t, keeps scopes_extend (term_loop n a t)) /\
  keeps scopes_extend (unary n) /\
  keeps scopes_extend (factor n).
Proof.
  induction n as [| n IH].
  { split_all; intros; apply keeps_out_of_fuel. }
  destruct IH as (He & Ha & Hal & Ht & Htl & Hu & Hf).
  split_all; intros; simpl;
    repeat first [ assumption | solve [auto] | apply atom_extends | keeps_step ].
Qed.

Lemma expr_extends n : keeps scopes_extend (expr n).
Proof. apply expr_group_extends. Qed.

Lemma funcall_loop_extends n args : keeps scopes_extend (funcall_loop n args).
Proof.
  revert args. induction n as [| n IH]; intros args; simpl;
    repeat first [ apply IH | apply atom_extends | keeps_step ].
Qed.

Lemma funcall_extends n name : keeps scopes_extend (funcall n name).
Proof.
  unfold funcall.
  repeat first [ apply funcall_loop_extends | apply atom_extends | keeps_step ].
Qed.

Lemma insert_top_rebind name v ty p p' :
  first_match name (symbol_table_stack p) = Some (Variable_ v) ->
  insert_top name (Variable_ v) ty p = Ok tt p' ->
  scopes_extend p p'.
Proof.
  intros Hv H. unfold insert_top in H.
  destruct (symbol_table_stack p) as [| frame outer] eqn:Hs; [discriminate |].
  injection H as <-. unfold scopes_extend. simpl. rewrite Hs.
  apply insert_extends. left. exact Hv.
Qed.

(** The target of an assignment is bound again, with the type of the
    literal, to the variable it resolved to. *)
Lemma assignment_extends n name : keeps scopes_extend (assignment n name).
Proof.
  intros p r p' H. unfold assignment in H.
  apply bind_ok_inv in H. destruct H as (t & p1 & H1 & H).
  apply bind_ok_inv in H. destruct H as (u & p2 & H2 & H).
  apply bind_ok_inv in H. destruct H as (v & p3 & H3 & H).
  apply bind_ok_inv in H. destruct H as (e & p4 & H4 & H).
  apply bind_ok_inv in H. destruct H as (u' & p5 & H5 & H).
  injection H as _ <-.
  apply tok_same_scopes in H1. apply expect_same_scopes in H2.
  apply lookup_or_new_var_spec in H3. destruct H3 as [Hv H3].
  apply expr_extends in H4.
  assert (H14 : scopes_extend p p4).
  { eapply scopes_extend_trans; [apply same_scopes_extend, H1 |].
    eapply scopes_extend_trans; [apply same_scopes_extend, H2 |].
    eapply scopes_extend_trans; eassumption. }
  eapply scopes_extend_trans; [exact H14 |].
  destruct (bool_decide (get_primitive_type e <> UndefinedTy)).
  - destruct u'. apply (insert_top_rebind name v _ p4 p5 (proj2 H4 _ _ Hv) H5).
  - injection H5 as _ <-. apply scopes_extend_refl.
Qed.

Lemma otherstmt_extends n : keeps scopes_extend (otherstmt n).
Proof.
  unfold otherstmt.
  repeat first [ apply assignment_extends | apply funcall_extends
               | apply symbol_same_scopes | keeps_step ].
Qed.

Lemma externcall_loop_extends n body : keeps scopes_extend (externcall_loop n body).
Proof.
  revert body. induction n as [| n IH]; intros body; simpl;
    repeat first [ apply IH | apply var_extends | keeps_step ].
Qed.

Lemma externcall_extends n : keeps scopes_extend (externcall n).
Proof.
  unfold externcall. repeat first [ apply externcall_loop_extends | keeps_step ].
Qed.

Lemma functiondef_loop_top_scope n args :
  keeps top_scope_changes (functiondef_loop n args).
Proof.
  revert args. induction n as [| n IH]; intros args; simpl;
    repeat first [ apply IH | apply arg_top_scope | keeps_step ].
Qed.

(** ** Blocks *)

Lemma update_module_same_scopes m f : keeps same_scopes (update_module m f).
Proof.
  intros p a p' H. unfold update_module in H.
  destruct (modules p !! m); [| discriminate]. injection H as _ <-. reflexivity.
Qed.

Lemma module_stack_top_same_scopes : keeps same_scopes module_stack_top.
Proof.
  intros p a p' H. unfold module_stack_top in H.
  destruct (module_stack p); [discriminate |]. injection H as _ <-. reflexivity.
Qed.

Lemma push_symbol_table_spec t p a p' :
  push_symbol_table t p = Ok a p' ->
  symbol_table_stack p' = t :: symbol_table_stack p.
Proof. intros H. injection H as _ <-. reflexivity. Qed.

Lemma pop_symbol_table_spec p a p' :
  pop_symbol_table p = Ok a p' ->
  symbol_table_stack p' = tail (symbol_table_stack p).
Proof.
  unfold pop_symbol_table. intros H.
  destruct (symbol_table_stack p) eqn:E; [discriminate |].
  injection H as _ <-. reflexivity.
Qed.

Ltac inv_binds H :=
  cbv beta in H;
  repeat match type of H with
  | bind _ _ _ = Ok _ _ =>
      apply bind_ok_inv in H; destruct H as (? & ? & ? & H); cbv beta in H
  end.

Ltac scope_facts :=
  repeat match goal with
  | H : tok _ _ = Ok _ _ |- _ => apply tok_same_scopes in H
  | H : expect _ _ _ _ = Ok _ _ |- _ => apply expect_same_scopes in H
  | H : symbol _ = Ok _ _ |- _ => apply symbol_same_scopes in H
  | H : push_symbol_table _ _ = Ok _ _ |- _ => apply push_symbol_table_spec in H
  | H : pop_symbol_table _ = Ok _ _ |- _ => apply pop_symbol_table_spec in H
  | H : ret _ _ = Ok _ _ |- _ => injection H as _ <-
  end.

Ltac chase_scopes :=
  unfold same_scopes in *;
  repeat match goal with
  | H : symbol_table_stack ?x = _ |- context [symbol_table_stack ?x] => rewrite H
  | H : tail (symbol_table_stack ?x) = _ |- context [tail (symbol_table_stack ?x)] =>
      rewrite H
  end;
  try reflexivity.

Lemma functiondef_args_top_scope (b : bool) n :
  keeps top_scope_changes
    (if b then a <- arg ;; functiondef_loop n [a] else ret []).
Proof.
  destruct b; repeat first [ apply functiondef_loop_top_scope | apply arg_top_scope | keeps_step ].
Qed.

Lemma block_group_scopes n :
  keeps same_scopes (block n) /\
  (forall l, keeps scopes_extend (block_loop n l)) /\
  keeps scopes_extend (stmt n) /\
  keeps scopes_extend (ifstmt n) /\
  keeps same_scopes (functiondef n).
Proof.
  induction n as [| n IH].
  { split_all; intros; apply keeps_out_of_fuel. }
  destruct IH as (Hb & Hbl & Hs & Hi & Hf).
  split_all.
  - intros p r p' H. simpl in H. inv_binds H. scope_facts.
    match goal with H : block_loop n _ _ = Ok _ _ |- _ => apply Hbl in H; destruct H as [[Ht _] _] end.
    chase_scopes.
  - intros l. simpl.
    repeat first [ apply Hbl | apply Hs | keeps_step ].
  - simpl.
    repeat first [ assumption | apply externcall_extends | apply otherstmt_extends
                 | apply update_module_same_scopes | apply module_stack_top_same_scopes
                 | keeps_step ].
  - simpl. repeat first [ assumption | apply expr_extends | keeps_step ].
  - intros p r p' H. simpl in H. inv_binds H. scope_facts.
    match goal with H : block n _ = Ok _ _ |- _ => apply Hb in H end.
    match goal with
    | H : (if ?b then _ else _) _ = Ok _ _ |- _ =>
        apply (functiondef_args_top_scope b n) in H; destruct H as [Ht _]
    end.
    chase_scopes.
Qed.

Lemma first_match_new name s : first_match name (SymbolTable.new :: s) = first_match name s.
Proof. simpl. unfold SymbolTable.new. rewrite lookup_empty. reflexivity. Qed.

Lemma assignment_target fuel name p v r p' :
  first_match name (symbol_table_stack p) = Some (Variable_ v) ->
  assignment fuel name p = Ok r p' -> exists e, r = Assignment v e.
Proof.
  intros Hv H. unfold assignment in H. inv_binds H.
  match goal with H : ret _ _ = Ok _ _ |- _ => injection H as <- _ end.
  scope_facts.
  match goal with
  | H : lookup_or_new_var name ?q = Ok ?w _ |- _ =>
      rewrite (lookup_or_new_var_found name q v) in H by (chase_scopes; exact Hv);
      injection H as <- _
  end.
  eauto.
Qed.

Lemma atom_symbol fuel p t p1 v r p' :
  tok peek p = Ok t p1 -> Token.type t = Token.SymbolType ->
  first_match (Token.value t) (symbol_table_stack p) = Some (Variable_ v) ->
  atom fuel p = Ok r p' -> r = Variable_ v.
Proof.
  intros Hpeek Hty Hv H. unfold atom in H.
  rewrite (bind_ok _ _ _ _ _ Hpeek) in H. rewrite Hty in H. inv_binds H.
  match goal with H : ret _ _ = Ok _ _ |- _ => injection H as <- _ end.
  apply tok_same_scopes in Hpeek. scope_facts.
  match goal with
  | H : lookup_or_new_var _ ?q = Ok ?w _ |- _ =>
      rewrite (lookup_or_new_var_found _ q v) in H by (chase_scopes; exact Hv);
      injection H as <- _
  end.
  reflexivity.
Qed.

Lemma var_symbol p t p1 v r p' :
  tok peek p = Ok t p1 ->
  first_match (Token.value t) (symbol_table_stack p) = Some (Variable_ v) ->
  var p = Ok r p' -> r = v.
Proof.
  intros Hpeek Hv H. unfold var in H.
  rewrite (bind_ok _ _ _ _ _ Hpeek) in H. inv_binds H.
  apply tok_same_scopes in Hpeek. scope_facts.
  rewrite (lookup_or_new_var_found _ _ v) in H by (chase_scopes; exact Hv).
  injection H as <- _. reflexivity.
Qed.

Lemma tok_variables {A} (m : M Tokenizer A) p a p' :
  tok m p = Ok a p' -> variables p' = variables p.
Proof.
  unfold tok. destruct (tokenizer p) as [t |]; [| discriminate].
  destruct (m t); try discriminate. intros H. injection H as _ <-. reflexivity.
Qed.

Lemma expect_variables t ty msg p a p' :
  expect t ty msg p = Ok a p' -> variables p' = variables p.
Proof.
  unfold expect. destruct (negb (Token.isa t ty)).
  - intros H. apply bind_ok_inv in H. destruct H as (? & ? & _ & H). discriminate.
  - apply tok_variables.
Qed.

(** A parameter is a declaration: [arg] makes a new object and binds the
    name to it in the innermost scope, the one of the function. *)
Lemma arg_declares p a p' :
  arg p = Ok a p' ->
  exists t p1,
    tok peek p = Ok t p1 /\
    a = mkVariable (variables p) (Token.value t) /\
    first_match (Token.value t) (symbol_table_stack p') = Some (Variable_ a).
Proof.
  intros H. unfold arg in H.
  apply bind_ok_inv in H. destruct H as (t & p1 & Hpeek & H).
  apply bind_ok_inv in H. destruct H as (t2 & p2 & Hpeek2 & H).
  apply bind_ok_inv in H. destruct H as (u & p3 & Hexp & H).
  apply bind_ok_inv in H. destruct H as (v & p4 & Hnew & H).
  apply bind_ok_inv in H. destruct H as (u2 & p5 & Hins & H).
  injection H as <- <-. exists t, p1. split; [exact Hpeek |].
  unfold new_Variable in Hnew. injection Hnew as <- <-.
  apply tok_variables in Hpeek, Hpeek2. apply expect_variables in Hexp.
  unfold insert_top in Hins. simpl in Hins.
  destruct (symbol_table_stack p3) as [| frame outer]; [discriminate |].
  injection Hins as _ <-. simpl. split.
  - f_equal. congruence.
  - apply first_match_insert_same.
Qed.

(** C2.  An occurrence of a name for which a binding is visible resolves
    to the very variable object of that binding: [lookup_or_new_var]
    returns it, makes no new object and changes nothing.  The three places
    where a name occurs go through it: the target of an assignment, a
    symbol in an expression, and an interpolation in an embedded command.
    A name with no visible binding gets a new object, bound in the
    innermost scope, and is resolved to it from then on: parsing an
    expression or a statement (nested blocks and function definitions
    included, at the end of which the scopes are back as they were) keeps
    every visible name bound to the same object, and so does entering a
    nested scope.  A parameter is a declaration: it makes the object to
    which the occurrences of its name in the body of the function resolve.
    In [{ a = 1; a = a + 1; }] (and with the second assignment in a nested
    block) the three occurrences of [a] are the one object made by the
    first assignment. *)
Theorem variable_occurrences_share_the_object :
  (forall name p v,
     first_match name (symbol_table_stack p) = Some (Variable_ v) ->
     lookup_or_new_var name p = Ok v p) /\
  (forall fuel name p v r p',
     first_match name (symbol_table_stack p) = Some (Variable_ v) ->
     assignment fuel name p = Ok r p' -> exists e, r = Assignment v e) /\
  (forall fuel p t p1 v r p',
     tok peek p = Ok t p1 -> Token.type t = Token.SymbolType ->
     first_match (Token.value t) (symbol_table_stack p) = Some (Variable_ v) ->
     atom fuel p = Ok r p' -> r = Variable_ v) /\
  (forall p t p1 v r p',
     tok peek p = Ok t p1 ->
     first_match (Token.value t) (symbol_table_stack p) = Some (Variable_ v) ->
     var p = Ok r p' -> r = v) /\
  (forall name p v p',
     lookup_or_new_var name p = Ok v p' ->
     first_match name (symbol_table_stack p') = Some (Variable_ v) /\
     (first_match name (symbol_table_stack p) = None ->
      v = mkVariable (variables p) name /\ variables p' = variables p + 1)) /\
  (forall fuel p e p' name n,
     expr fuel p = Ok e p' ->
     first_match name (symbol_table_stack p) = Some n ->
     first_match name (symbol_table_stack p') = Some n) /\
  (forall fuel p s p' name n,
     stmt fuel p = Ok s p' ->
     first_match name (symbol_table_stack p) = Some n ->
     first_match name (symbol_table_stack p') = Some n) /\
  (forall fuel p b p',
     block fuel p = Ok b p' -> symbol_table_stack p' = symbol_table_stack p) /\
  (forall name s, first_match name (SymbolTable.new :: s) = first_match name s) /\
  (forall p a p',
     arg p = Ok a p' ->
     exists t p1,
       tok peek p = Ok t p1 /\
       a = mkVariable (variables p) (Token.value t) /\
       first_match (Token.value t) (symbol_table_stack p') = Some (Variable_ a)) /\
  (let a := mkVariable 0 "a" in
   parses_to "{ a = 1; a = a + 1; }"
     (Parsed (mkModule
        (Some (mkFunction "bish_main" []
           (Block [Block [Assignment a (Integer "1");
                          Assignment a (BinOp BinOp.Add (Variable_ a) (Integer "1"))]])))
        [])) /\
   parses_to "a = 1; { a = a + 1; }"
     (Parsed (mkModule
        (Some (mkFunction "bish_main" []
           (Block [Assignment a (Integer "1");
                   Block [Assignment a (BinOp BinOp.Add (Variable_ a) (Integer "1"))]])))
        [])) /\
   parses_to "def f(x) { y = x; }"
     (Parsed (mkModule
        (Some (mkFunction "bish_main" [] (Block [])))
        [mkFunction "f" [mkVariable 0 "x"]
           (Block [Assignment (mkVariable 1 "y") (Variable_ (mkVariable 0 "x"))])]))).
Proof.
  split_all.
  - apply lookup_or_new_var_found.
  - apply assignment_target.
  - apply atom_symbol.
  - apply var_symbol.
  - intros name p v p' H.
    split; [exact (proj1 (lookup_or_new_var_spec name p v p' H)) |].
    intros Hnone.
    destruct (symbol_table_stack p) as [| frame outer] eqn:Hs.
    + unfold lookup_or_new_var in H.
      rewrite (bind_ok _ _ _ _ _ (lookup_spec name p)), Hs in H.
      simpl in H. unfold new_Variable, insert_top in H.
      cbv beta iota delta [bind ret] in H. simpl in H. rewrite Hs in H. discriminate.
    + rewrite (lookup_or_new_var_new name p frame outer Hs Hnone) in H.
      injection H as <- <-. split; reflexivity.
  - intros fuel p e p' name n H. exact (proj2 (expr_extends fuel p e p' H) name n).
  - intros fuel p s p' name n H.
    exact (proj2 (proj1 (proj2 (proj2 (block_group_scopes fuel))) p s p' H) name n).
  - intros fuel p b p' H. apply (proj1 (block_group_scopes fuel) p b p' H).
  - apply first_match_new.
  - apply arg_declares.
  - intros a. split_all; parses_with 40%nat.
Qed.

Lemma variable_occurrences_share_the_object_witness :
  let a := mkVariable 0 "a" in
  let p := set_symbol_table_stack
             [SymbolTable.new; SymbolTable.insert "a" (Variable_ a) IntegerTy SymbolTable.new]
             (set_variables 1 Parser_new) in
  first_match "a" (symbol_table_stack p) = Some (Variable_ a) /\
  lookup_or_new_var "a" p = Ok a p.
Proof.
  intros a p.
  assert (H : first_match "a" (symbol_table_stack p) = Some (Variable_ a))
    by (vm_compute; reflexivity).
  split; [exact H |].
  exact (proj1 variable_occurrences_share_the_object "a" p a H).
Defined.

(** * The parser on a text *)

(** ** Errors *)

Lemma position_spec st :
  idx st <= text_length st ->
  position st =
    Ok ("character '" +:+ String (head_char (rest st)) ("', line " +:+ decimal (lineno st))) st.
Proof.
  intros H. unfold position.
  rewrite (bind_ok _ _ _ _ _ (curchar_rest st H)). reflexivity.
Qed.

Lemma expect_fails t ty msg p st :
  tokenizer p = Some st -> idx st <= text_length st ->
  Token.isa t ty = false ->
  expect t ty msg p =
    Abort ("Parsing error: " +:+ msg +:+ " near " +:+ "character '"
           +:+ String (head_char (rest st)) ("', line " +:+ decimal (lineno st))).
Proof.
  intros Hp Hidx Hisa. unfold expect. rewrite Hisa.
  change (negb false) with true. cbv iota.
  rewrite (bind_ok _ _ _ _ _ (tok_ok position p st _ st Hp (position_spec st Hidx))).
  reflexivity.
Qed.

Lemma expect_passes t ty msg p :
  Token.isa t ty = true -> expect t ty msg p = tok next p.
Proof. intros H. unfold expect. rewrite H. reflexivity. Qed.


(** ** The module *)

(** The parser as [Parser::module] finds it when [parse_string] calls it,
    and as [block] finds it after the module is made and pushed. *)
Lemma parse_string_unfold fuel text :
  parse_string fuel text Parser_new =
    bind (module fuel)
         (fun m => bind (tok peek)
            (fun t => bind (expect t Token.EOSType "Expected end of string.")
               (fun _ => ret m)))
      (set_tokenizer (Some (Tokenizer_new ("{" +:+ text +:+ "}"))) Parser_new).
Proof. reflexivity. Qed.

Lemma tok_modules {A} (m : M Tokenizer A) p a p' :
  tok m p = Ok a p' -> modules p' = modules p /\ module_stack p' = module_stack p.
Proof.
  unfold tok. destruct (tokenizer p); [| discriminate].
  destruct (m t); try discriminate. intros H. injection H as _ <-. split; reflexivity.
Qed.

Lemma expect_modules t ty msg p a p' :
  expect t ty msg p = Ok a p' ->
  modules p' = modules p /\ module_stack p' = module_stack p.
Proof.
  unfold expect. destruct (negb (Token.isa t ty)).
  - intros H. apply bind_ok_inv in H. destruct H as (? & ? & _ & H). discriminate.
  - apply tok_modules.
Qed.

Lemma block_returns_Block fuel p b p' :
  block fuel p = Ok b p' -> exists statements, b = Block statements.
Proof.
  destruct fuel as [| fuel]; [discriminate |]. simpl. intros H. inv_binds H.
  match goal with H : ret _ _ = Ok _ _ |- _ => injection H as <- _ end. eauto.
Qed.

Lemma module_main fuel p m p' :
  module fuel p = Ok m p' ->
  exists statements x,
    modules p' !! m = Some x /\
    main x = Some (mkFunction "bish_main" [] (Block statements)).
Proof.
  unfold module. intros H. inv_binds H.
  match goal with H : ret _ _ = Ok _ _ |- _ => injection H as <- <- end.
  match goal with H : block _ _ = Ok _ _ |- _ =>
    destruct (block_returns_Block _ _ _ _ H) as (statements & ->) end.
  match goal with H : pop_module _ = Ok _ _ |- _ =>
    unfold pop_module in H; destruct (module_stack _); [discriminate |];
    injection H as _ <- end.
  match goal with H : update_module ?a _ ?q = Ok _ _ |- _ =>
    unfold update_module in H; destruct (modules q !! a) as [y |] eqn:E; [| discriminate];
    injection H as _ <- end.
  exists statements. eexists. simpl. split.
  - apply list_lookup_insert_eq. apply lookup_lt_Some in E. exact E.
  - reflexivity.
Qed.

Lemma parse_string_main fuel text m p :
  parse_string fuel text Parser_new = Ok m p ->
  exists statements p1 x,
    block fuel (module_entry text) = Ok (Block statements) p1 /\
    modules p !! m = Some x /\
    main x = Some (mkFunction "bish_main" [] (Block statements)).
Proof.
  rewrite parse_string_unfold. intros H. inv_binds H.
  match goal with H : ret _ _ = Ok _ _ |- _ => injection H as <- <- end.
  match goal with H : tok _ _ = Ok _ _ |- _ => apply tok_modules in H; destruct H as [Hm1 _] end.
  match goal with H : expect _ _ _ _ = Ok _ _ |- _ =>
    apply expect_modules in H; destruct H as [Hm2 _] end.
  rewrite Hm2, Hm1.
  match goal with H : module _ _ = Ok _ _ |- _ => rename H into Hmod end.
  unfold module in Hmod. inv_binds Hmod.
  match goal with H : ret _ _ = Ok _ _ |- _ => injection H as <- <- end.
  match goal with H : new_Module _ = Ok _ _ |- _ => injection H as <- <- end.
  match goal with H : push_module _ _ = Ok _ _ |- _ => injection H as _ <- end.
  match goal with H : block _ _ = Ok _ _ |- _ =>
    destruct (block_returns_Block _ _ _ _ H) as (statements & ->); rename H into Hb end.
  match goal with H : pop_module _ = Ok _ _ |- _ =>
    unfold pop_module in H; destruct (module_stack _); [discriminate |];
    injection H as _ <- end.
  match goal with H : update_module ?a _ ?q = Ok _ _ |- _ =>
    unfold update_module in H; destruct (modules q !! a) as [y |] eqn:E; [| discriminate];
    injection H as _ <- end.
  exists statements. eexists _, _. split; [exact Hb |]. simpl. split.
  - apply list_lookup_insert_eq. apply lookup_lt_Some in E. exact E.
  - reflexivity.
Qed.

(** X22.  Whenever [parse_string] returns, what it returns is a module
    whose main function exists: the function named [bish_main], without
    parameters, whose body is the block parsed from the input wrapped in a
    pair of braces.  A main with an empty list of statements is what an
    input of function definitions alone gives. *)
Theorem parsed_module_has_main :
  (forall fuel text x,
     run_parse_string fuel text = Parsed x ->
     exists statements p1,
       block fuel (module_entry text) = Ok (Block statements) p1 /\
       main x = Some (mkFunction "bish_main" [] (Block statements))) /\
  parses_to "a = 1;"
    (Parsed (mkModule
       (Some (mkFunction "bish_main" []
          (Block [Assignment (mkVariable 0 "a") (Integer "1")])))
       [])) /\
  parses_to "def f() { a = 1; }"
    (Parsed (mkModule
       (Some (mkFunction "bish_main" [] (Block [])))
       [mkFunction "f" [] (Block [Assignment (mkVariable 0 "a") (Integer "1")])])).
Proof.
  split_all.
  - intros fuel text x H. unfold run_parse_string in H.
    destruct (parse_string fuel text Parser_new) as [m p | | |] eqn:E; try discriminate.
    destruct (parse_string_main fuel text m p E) as (statements & p1 & y & Hb & Hy & Hmain).
    rewrite Hy in H. injection H as <-. eauto.
  - parses_with 40%nat.
  - parses_with 40%nat.
Qed.

Lemma parsed_module_has_main_witness :
  exists statements,
    main (mkModule
            (Some (mkFunction "bish_main" []
               (Block [Assignment (mkVariable 0 "a") (Integer "1")])))
            [])
    = Some (mkFunction "bish_main" [] (Block statements)).
Proof.
  destruct (proj1 parsed_module_has_main 40%nat "a = 1;" _ ltac:(vm_compute; reflexivity))
    as (statements & p1 & _ & H).
  exists statements. exact H.
Defined.

(** C1.  The empty input is rejected.  The statement loop of [block]
    calls [stmt] once before it looks for the closing brace, so in the
    text [{}] that the empty input becomes [stmt] is at the brace and asks
    for a symbol: the parse ends in a fatal error, for whatever fuel it
    returns no module.  A block without a statement inside the input is
    rejected the same way, as in [a = 1; { }]. *)
Theorem empty_input_is_rejected :
  parses_to EmptyString
    (Aborted "Parsing error: Expected symbol. near character '}', line 1") /\
  (forall fuel x, run_parse_string fuel EmptyString <> Parsed x) /\
  parses_to "a = 1; { }"
    (Aborted "Parsing error: Expected symbol. near character '}', line 1").
Proof.
  assert (H : parses_to EmptyString
                (Aborted "Parsing error: Expected symbol. near character '}', line 1"))
    by parses_with 40%nat.
  split_all.
  - exact H.
  - intros fuel x E.
    assert (Hx : parses_to EmptyString (Parsed x)) by (exists fuel; split; [exact E | discriminate]).
    pose proof (parses_to_functional _ _ _ H Hx) as Heq. discriminate Heq.
  - parses_with 40%nat.
Qed.

(** ** Function definitions *)

Lemma stmt_def fuel p t p1 :
  tok peek p = Ok t p1 -> Token.type t = Token.DefType ->
  stmt (S fuel) p =
    bind (functiondef fuel)
      (fun f => bind module_stack_top
         (fun m => bind (update_module m (add_function f)) (fun _ => ret None))) p1.
Proof.
  intros Hpeek Hty. simpl. rewrite (bind_ok _ _ _ _ _ Hpeek), Hty. reflexivity.
Qed.

Lemma stmt_def_hoists fuel p t p1 r p' :
  tok peek p = Ok t p1 -> Token.type t = Token.DefType ->
  stmt (S fuel) p = Ok r p' ->
  r = None /\
  exists f p2 m x,
    functiondef fuel p1 = Ok f p2 /\
    head (module_stack p2) = Some m /\
    modules p2 !! m = Some x /\
    modules p' !! m = Some (add_function f x) /\
    module_stack p' = module_stack p2.
Proof.
  intros Hpeek Hty H. rewrite (stmt_def fuel p t p1 Hpeek Hty) in H. inv_binds H.
  match goal with H : ret _ _ = Ok _ _ |- _ => injection H as <- <- end.
  split; [reflexivity |].
  match goal with H : module_stack_top ?q = Ok _ _ |- _ =>
    unfold module_stack_top in H; destruct (module_stack q) as [| m0 ms] eqn:Hms;
    [discriminate |]; injection H as <- <- end.
  match goal with H : update_module ?a _ ?q = Ok _ _ |- _ =>
    unfold update_module in H; destruct (modules q !! a) as [y |] eqn:E; [| discriminate];
    injection H as _ <- end.
  eexists _, _, _, _. split; [eassumption |]. rewrite Hms. simpl.
  split; [reflexivity |]. split; [exact E |]. split; [| exact Hms].
  apply list_lookup_insert_eq. apply lookup_lt_Some in E. exact E.
Qed.

Lemma block_loop_no_statement fuel l p t p1 p2 t' p3 :
  tok peek p = Ok t p1 -> Token.isa t Token.SharpType = false ->
  stmt fuel p1 = Ok None p2 -> tok peek p2 = Ok t' p3 ->
  block_loop (S fuel) l p =
    (if negb (Token.isa t' Token.RBraceType) then block_loop fuel l else ret l) p3.
Proof.
  intros Hpeek Hsharp Hstmt Hpeek'. simpl.
  rewrite (bind_ok _ _ _ _ _ Hpeek), Hsharp.
  rewrite (bind_ok (ret tt) _ p1 tt p1 eq_refl).
  rewrite (bind_ok _ _ _ _ _ Hstmt). cbv beta iota.
  rewrite (bind_ok _ _ _ _ _ Hpeek'). reflexivity.
Qed.

(** C7, as amended.  A statement that starts with [def] is a function
    definition: once it is parsed, the function is appended to the
    functions of the module on top of the module stack, and [stmt] returns
    no node, so the iteration of the statement loop that parsed it leaves
    the list of statements of the enclosing block as it was.  This holds
    wherever the definition stands: at the top, in the block of an [if], in
    the body of another function.  In [def f(x) { x = 1; } g();] the
    function [f] is in the module's functions and the call of [g] is the
    one statement of the main block. *)
Theorem function_definitions_are_hoisted :
  (forall fuel p t p1 r p',
     tok peek p = Ok t p1 -> Token.type t = Token.DefType ->
     stmt (S fuel) p = Ok r p' ->
     r = None /\
     exists f p2 m x,
       functiondef fuel p1 = Ok f p2 /\
       head (module_stack p2) = Some m /\
       modules p2 !! m = Some x /\
       modules p' !! m = Some (add_function f x) /\
       module_stack p' = module_stack p2) /\
  (forall fuel l p t p1 p2 t' p3,
     tok peek p = Ok t p1 -> Token.isa t Token.SharpType = false ->
     stmt fuel p1 = Ok None p2 -> tok peek p2 = Ok t' p3 ->
     block_loop (S fuel) l p =
       (if negb (Token.isa t' Token.RBraceType) then block_loop fuel l else ret l) p3) /\
  (let x := mkVariable 0 "x" in
   let a := mkVariable 0 "a" in
   parses_to "def f(x) { x = 1; } g();"
     (Parsed (mkModule
        (Some (mkFunction "bish_main" [] (Block [FunctionCall "g" []])))
        [mkFunction "f" [x] (Block [Assignment x (Integer "1")])])) /\
   parses_to "if (1) { def f() { a = 1; } } g();"
     (Parsed (mkModule
        (Some (mkFunction "bish_main" []
           (Block [IfStatement (Integer "1") (Block []); FunctionCall "g" []])))
        [mkFunction "f" [] (Block [Assignment a (Integer "1")])])) /\
   parses_to "def f() { def g() { a = 1; } } h();"
     (Parsed (mkModule
        (Some (mkFunction "bish_main" [] (Block [FunctionCall "h" []])))
        [mkFunction "g" [] (Block [Assignment a (Integer "1")]);
         mkFunction "f" [] (Block [])]))).
Proof.
  split_all.
  - apply stmt_def_hoists.
  - apply block_loop_no_statement.
  - intros x a. split_all; parses_with 40%nat.
Qed.

Lemma function_definitions_are_hoisted_witness :
  let p := set_tokenizer (Some (at_idx 1 (Tokenizer_new "{def f() { a = 1; }}")))
             (module_entry EmptyString) in
  tok peek p = Ok Token.Def p /\
  exists p' f x,
    stmt 20 p = Ok None p' /\
    modules p' !! O = Some (add_function f x).
Proof.
  intros p.
  assert (Hpeek : tok peek p = Ok Token.Def p) by (vm_compute; reflexivity).
  split; [exact Hpeek |].
  destruct (stmt 20 p) as [r p' | msg | flt |] eqn:E;
    try (exfalso; vm_compute in E; discriminate E).
  destruct (proj1 function_definitions_are_hoisted 19%nat p Token.Def p r p'
              Hpeek eq_refl E) as (-> & f & p2 & m & x & Hf & Hm & Hx & Hx' & _).
  assert (m = O) as ->.
  { rewrite (stmt_def 19 p Token.Def p Hpeek eq_refl) in E.
    rewrite (bind_ok _ _ _ _ _ Hf) in E. unfold module_stack_top in E.
    apply bind_ok_inv in E. destruct E as (m' & p3 & E & _).
    assert (Hs : module_stack p2 = [O]).
    { clear - Hf. vm_compute in Hf. injection Hf as _ <-. reflexivity. }
    rewrite Hs in Hm. injection Hm as <-. reflexivity. }
  exists p', f, x. split; [reflexivity | exact Hx'].
Defined.

(** C7, the claim as stated fails: the body [{ x; }] of the example is no
    statement (a statement is an assignment or a call), so the example does
    not parse. *)
Lemma hoisting_example_is_rejected :
  parses_to "{ def f(x) { x; } g(); }" (Aborted "Unexpected token in statement.").
Proof. parses_with 40%nat. Qed.

(** ** Operators *)

Section Chains.
Variable operand : nat -> M Parser IRNode.
Variable loop : nat -> IRNode -> Token.t -> M Parser IRNode.
Variable is_op : Token.t -> bool.
Variable allowed : BinOp.Operator -> Prop.

Hypothesis loop_O : forall a t, loop O a t = out_of_fuel.
Hypothesis loop_S : forall fuel a t,
  loop (S fuel) a t =
    if is_op t then
      bind (tok next) (fun _ =>
        bind (get_binop_operator t) (fun op =>
          bind (operand fuel) (fun b =>
            bind (tok peek) (fun t' => loop fuel (BinOp op a b) t'))))
    else ret a.
Hypothesis is_op_binop : forall t,
  is_op t = true -> get_binop_operator t = ret (binop_of t) /\ allowed (binop_of t).

Lemma loop_left_nested fuel a t p r p' :
  loop fuel a t p = Ok r p' ->
  exists l,
    operands (returns operand) is_op t p l p' /\
    r = left_nested a l /\
    Forall (fun ob => allowed (fst ob)) l.
Proof using loop_O loop_S is_op_binop.
  revert a t p. induction fuel as [| fuel IH]; intros a t p H.
  { rewrite loop_O in H. discriminate. }
  rewrite loop_S in H. destruct (is_op t) eqn:Eop.
  - destruct (is_op_binop t Eop) as [Hop Hallowed]. rewrite Hop in H. inv_binds H.
    match goal with H : ret _ _ = Ok _ _ |- _ => injection H as <- <- end.
    match goal with H : tok next _ = Ok ?u _ |- _ => destruct u end.
    destruct (IH _ _ _ H) as (l & Hl & -> & Hall).
    eexists. split; [| split].
    + eapply operands_more; try eassumption. eexists. eassumption.
    + reflexivity.
    + constructor; assumption.
  - injection H as <- <-. exists []. split; [| split].
    + apply operands_done, Eop.
    + reflexivity.
    + constructor.
Qed.

End Chains.

Lemma is_additive_binop t :
  is_additive t = true ->
  get_binop_operator t = ret (binop_of t) /\
  (binop_of t = BinOp.Add \/ binop_of t = BinOp.Sub).
Proof.
  unfold is_additive, Token.isa, get_binop_operator, binop_of.
  destruct (Token.type t); simpl; intros H; try discriminate; auto.
Qed.

Lemma is_multiplicative_binop t :
  is_multiplicative t = true ->
  get_binop_operator t = ret (binop_of t) /\
  (binop_of t = BinOp.Mul \/ binop_of t = BinOp.Div).
Proof.
  unfold is_multiplicative, Token.isa, get_binop_operator, binop_of.
  destruct (Token.type t); simpl; intros H; try discriminate; auto.
Qed.

Lemma arith_loop_left_nested fuel a t p r p' :
  arith_loop fuel a t p = Ok r p' ->
  exists l,
    operands (returns term) is_additive t p l p' /\
    r = left_nested a l /\
    Forall (fun ob => fst ob = BinOp.Add \/ fst ob = BinOp.Sub) l.
Proof.
  apply (loop_left_nested term arith_loop is_additive
           (fun op => op = BinOp.Add \/ op = BinOp.Sub)).
  - reflexivity.
  - reflexivity.
  - apply is_additive_binop.
Qed.

Lemma term_loop_left_nested fuel a t p r p' :
  term_loop fuel a t p = Ok r p' ->
  exists l,
    operands (returns unary) is_multiplicative t p l p' /\
    r = left_nested a l /\
    Forall (fun ob => fst ob = BinOp.Mul \/ fst ob = BinOp.Div) l.
Proof.
  apply (loop_left_nested unary term_loop is_multiplicative
           (fun op => op = BinOp.Mul \/ op = BinOp.Div)).
  - reflexivity.
  - reflexivity.
  - apply is_multiplicative_binop.
Qed.

Lemma arith_left_nested fuel p r p' :
  arith fuel p = Ok r p' ->
  exists a p1 t p2 l,
    returns term p a p1 /\ tok peek p1 = Ok t p2 /\
    operands (returns term) is_additive t p2 l p' /\
    r = left_nested a l /\
    Forall (fun ob => fst ob = BinOp.Add \/ fst ob = BinOp.Sub) l.
Proof.
  destruct fuel as [| fuel]; [discriminate |]. simpl. intros H. inv_binds H.
  destruct (arith_loop_left_nested _ _ _ _ _ _ H) as (l & Hl & Hr & Hall).
  eexists _, _, _, _, l. split; [eexists; eassumption |].
  split; [eassumption |]. split; [exact Hl |]. split; assumption.
Qed.

Lemma term_left_nested fuel p r p' :
  term fuel p = Ok r p' ->
  exists a p1 t p2 l,
    returns unary p a p1 /\ tok peek p1 = Ok t p2 /\
    operands (returns unary) is_multiplicative t p2 l p' /\
    r = left_nested a l /\
    Forall (fun ob => fst ob = BinOp.Mul \/ fst ob = BinOp.Div) l.
Proof.
  destruct fuel as [| fuel]; [discriminate |]. simpl. intros H. inv_binds H.
  destruct (term_loop_left_nested _ _ _ _ _ _ H) as (l & Hl & Hr & Hall).
  eexists _, _, _, _, l. split; [eexists; eassumption |].
  split; [eassumption |]. split; [exact Hl |]. split; assumption.
Qed.

(** C3, as amended.  The expression [1+2*3] parses to
    [BinOp(Add, Integer(1), BinOp(Mul, Integer(2), Integer(3)))], when the
    expression parser is called on it and as the right-hand side of the
    statement [a = 1+2*3;]: multiplication binds tighter than addition.
    Every chain of [+] and [-] is the tree that associates to the left over
    the operands read by [term] one after the other, and every chain of [*]
    and [/] is the tree that associates to the left over the operands read
    by [unary]. *)
Theorem precedence_and_left_association :
  expr 10 (parser_at "1+2*3;") =
    Ok (BinOp BinOp.Add (Integer "1") (BinOp BinOp.Mul (Integer "2") (Integer "3")))
       (set_tokenizer (Some (at_idx 5 (Tokenizer_new "1+2*3;"))) Parser_new) /\
  parses_to "a = 1+2*3;"
    (Parsed (mkModule
       (Some (mkFunction "bish_main" []
          (Block [Assignment (mkVariable 0 "a")
                    (BinOp BinOp.Add (Integer "1")
                       (BinOp BinOp.Mul (Integer "2") (Integer "3")))])))
       [])) /\
  (forall fuel p r p',
     arith fuel p = Ok r p' ->
     exists a p1 t p2 l,
       returns term p a p1 /\ tok peek p1 = Ok t p2 /\
       operands (returns term) is_additive t p2 l p' /\
       r = left_nested a l /\
       Forall (fun ob => fst ob = BinOp.Add \/ fst ob = BinOp.Sub) l) /\
  (forall fuel p r p',
     term fuel p = Ok r p' ->
     exists a p1 t p2 l,
       returns unary p a p1 /\ tok peek p1 = Ok t p2 /\
       operands (returns unary) is_multiplicative t p2 l p' /\
       r = left_nested a l /\
       Forall (fun ob => fst ob = BinOp.Mul \/ fst ob = BinOp.Div) l) /\
  parses_to "a = 1-2+3;"
    (Parsed (mkModule
       (Some (mkFunction "bish_main" []
          (Block [Assignment (mkVariable 0 "a")
                    (BinOp BinOp.Add
                       (BinOp BinOp.Sub (Integer "1") (Integer "2")) (Integer "3"))])))
       [])) /\
  parses_to "a = 8/4*2;"
    (Parsed (mkModule
       (Some (mkFunction "bish_main" []
          (Block [Assignment (mkVariable 0 "a")
                    (BinOp BinOp.Mul
                       (BinOp BinOp.Div (Integer "8") (Integer "4")) (Integer "2"))])))
       [])).
Proof.
  split_all.
  - vm_compute. reflexivity.
  - parses_with 40%nat.
  - apply arith_left_nested.
  - apply term_left_nested.
  - parses_with 40%nat.
  - parses_with 40%nat.
Qed.

Lemma precedence_and_left_association_witness :
  exists a l,
    BinOp BinOp.Sub (BinOp BinOp.Sub (Integer "1") (Integer "2")) (Integer "3")
    = left_nested a l /\
    Forall (fun ob => fst ob = BinOp.Add \/ fst ob = BinOp.Sub) l.
Proof.
  assert (H : exists p', arith 10 (parser_at "1-2-3;") =
                Ok (BinOp BinOp.Sub (BinOp BinOp.Sub (Integer "1") (Integer "2"))
                      (Integer "3")) p')
    by (eexists; vm_compute; reflexivity).
  destruct H as (p' & H).
  destruct (proj1 (proj2 (proj2 precedence_and_left_association)) _ _ _ _ H)
    as (a & p1 & t & p2 & l & _ & _ & _ & Hr & Hall).
  exists a, l. split; assumption.
Defined.

(** C3, the claim as stated fails: [1+2*3;] is no statement, a statement
    starts with a symbol. *)
Lemma expression_statement_is_rejected :
  parses_to "1+2*3;"
    (Aborted "Parsing error: Expected symbol. near character '1', line 1").
Proof. parses_with 40%nat. Qed.

(** ** The text is never changed *)



























(** ** Where an opening parenthesis comes from *)










(** ** Comparisons in expressions *)





(** * Line numbers *)

(** ** Counting newlines *)

Lemma newlines_before_nil n : newlines_before n EmptyString = O.
Proof. destruct n; reflexivity. Qed.

Lemma newlines_before_add n k s :
  newlines_before (n + k) s =
    (newlines_before n s + newlines_before k (string_drop n s))%nat.
Proof.
  revert s. induction n as [| n IH]; intros s; [reflexivity |].
  destruct s as [| c s]; simpl.
  - symmetry. apply newlines_before_nil.
  - rewrite IH. lia.
Qed.

Lemma newlines_before_le n s : (newlines_before n s <= n)%nat.
Proof.
  revert s. induction n as [| n IH]; intros [| c s]; simpl; try lia.
  specialize (IH s). destruct (is_newline c); lia.
Qed.

Lemma newlines_before_span p s :
  (forall c, p c = true -> is_newline c = false) ->
  newlines_before (String.length (span p s)) s = O.
Proof.
  intros Hp. induction s as [| c s IH]; simpl; [reflexivity |].
  destruct (p c) eqn:E; simpl; [| reflexivity]. rewrite (Hp c E), IH. reflexivity.
Qed.

Lemma is_newline_whitespace c : is_whitespace c = false -> is_newline c = false.
Proof. unfold is_whitespace. intros H. apply orb_false_elim in H. apply H. Qed.

Lemma is_digit_not_newline c : is_digit c = true -> is_newline c = false.
Proof. intros H. apply is_newline_whitespace, is_digit_not_whitespace, H. Qed.

Lemma is_alphanumeric_not_newline c : is_alphanumeric c = true -> is_newline c = false.
Proof.
  intros H. unfold is_newline. destruct (Ascii.eqb_spec c LF) as [-> |]; [| reflexivity].
  vm_compute in H. discriminate.
Qed.

(** A token has no newline in it. *)
Lemma lex_number_no_newline s : newlines_before (snd (lex_number s)) s = O.
Proof.
  unfold lex_number.
  pose proof (newlines_before_span is_digit s is_digit_not_newline) as Hds.
  set (ds := span is_digit s) in *.
  set (after := string_drop (String.length ds) s).
  destruct (Ascii.eqb (head_char after) ".") eqn:E; [| exact Hds].
  apply Ascii.eqb_eq in E.
  destruct (head_char_not_NUL _ _ E ltac:(discriminate)) as (after' & Eafter).
  cbn [snd]. rewrite <- Nat.add_assoc, newlines_before_add, Hds.
  fold after. rewrite Eafter. simpl in E. subst.
  simpl. apply (newlines_before_span is_digit after' is_digit_not_newline).
Qed.

Lemma lex_no_newline s :
  is_whitespace (head_char s) = false -> newlines_before (snd (lex s)) s = O.
Proof.
  destruct s as [| c s]; [reflexivity |]. cbn [head_char]. intros Hw.
  pose proof (is_newline_whitespace c Hw) as Hn. unfold lex.
  lex_cases c ltac:(simpl; rewrite Hn; reflexivity).
  destruct (Ascii.eqb c "=").
  { destruct (head_char s =? "=")%char eqn:E; simpl; rewrite Hn; [| reflexivity].
    apply Ascii.eqb_eq in E.
    destruct (head_char_not_NUL _ _ E ltac:(discriminate)) as (s' & ->).
    simpl in E. subst. reflexivity. }
  lex_cases c ltac:(simpl; rewrite Hn; reflexivity).
  destruct (is_digit c); [apply lex_number_no_newline |].
  apply (newlines_before_span is_alphanumeric _ is_alphanumeric_not_newline).
Qed.

(** ** The tokenizer keeps the line count right *)

Lemma line_ok_in_text T st : line_ok T st -> in_text st.
Proof. intros (_ & H & _). exact H. Qed.

Lemma line_ok_advance T st k :
  line_ok T st -> (k <= String.length (rest st))%nat ->
  newlines_before k (rest st) = O ->
  line_ok T (at_idx (idx st + N.of_nat k) st).
Proof.
  intros (Ht & Hin & Hl) Hk Hnl. split; [exact Ht |].
  split; [apply in_text_advance; assumption |].
  cbn [lineno idx at_idx]. rewrite Hl. unfold line_of. do 2 f_equal.
  rewrite N2Nat.inj_add, Nat2N.id, newlines_before_add.
  unfold rest in Hnl. rewrite Ht in Hnl. rewrite Hnl. lia.
Qed.

(** One iteration of the white space loop: a character is passed, and
    counted if it is a newline. *)
Lemma line_ok_step T st c s :
  line_ok T st -> rest st = String c s ->
  line_ok T (mkTokenizer (text st) (uadd (idx st) 1)
               (if is_newline c then uadd (lineno st) 1 else lineno st)).
Proof.
  intros (Ht & Hin & Hl) E. destruct Hin as [Hidx Hbound].
  pose proof (rest_cons _ _ _ E) as (Hlt & _).
  rewrite uadd_small by lia.
  pose proof (newlines_before_le (N.to_nat (idx st)) T) as Hle.
  assert (Hstep : line_of T (N.to_nat (idx st + 1)) =
                  line_of T (N.to_nat (idx st)) + (if is_newline c then 1 else 0)).
  { unfold line_of. rewrite N2Nat.inj_add. change (N.to_nat 1) with 1%nat.
    rewrite newlines_before_add. unfold rest in E. rewrite Ht in E. rewrite E.
    simpl. destruct (is_newline c); lia. }
  split; [exact Ht |]. split.
  - split; [| exact Hbound]. unfold text_length in *. simpl. lia.
  - cbn [lineno idx]. rewrite Hstep, <- Hl.
    destruct (is_newline c); [| lia].
    apply uadd_small. rewrite Hl. unfold line_of. unfold text_length in *. lia.
Qed.

Lemma skip_whitespace_loop_line_ok T fuel st st' :
  line_ok T st -> skip_whitespace_loop fuel st = Ok tt st' -> line_ok T st'.
Proof.
  revert st. induction fuel as [| fuel IH]; intros st Hok H; [discriminate |].
  pose proof (line_ok_in_text T st Hok) as [Hidx Hbound].
  simpl in H. cbv beta iota delta [bind gets ret eos] in H.
  destruct (rest st) as [| c s] eqn:E.
  - apply rest_nil in E.
    replace (text_length st <=? idx st) with true in H
      by (symmetry; apply N.leb_le; exact E).
    cbv beta iota in H. injection H as <-. exact Hok.
  - pose proof (text_at_rest st Hidx) as Hc. rewrite E in Hc. cbn [head_char] in Hc.
    pose proof (line_ok_step T st c s Hok E) as Hstep.
    apply rest_cons in E. destruct E as (Hlt & E).
    replace (text_length st <=? idx st) with false in H
      by (symmetry; apply N.leb_gt; exact Hlt).
    unfold curchar in H. cbv beta iota delta [bind gets ret] in H. rewrite Hc in H.
    destruct (is_whitespace c); [| injection H as <-; exact Hok].
    destruct (is_newline c);
      cbv beta iota delta [bind gets ret modify set_idx set_lineno] in H;
      cbn [text idx lineno] in H; exact (IH _ Hstep H).
Qed.

Lemma skip_whitespace_line_ok T st :
  line_ok T st ->
  exists l, skip_whitespace st = Ok tt (skipped st l) /\ line_ok T (skipped st l).
Proof.
  intros Hok. destruct (skip_whitespace_spec st (line_ok_in_text T st Hok)) as (l & Hl).
  exists l. split; [exact Hl |].
  exact (skip_whitespace_loop_line_ok T _ st _ Hok Hl).
Qed.

Lemma peek_line_ok T st :
  line_ok T st -> exists t st', peek st = Ok t st' /\ line_ok T st'.
Proof.
  intros Hok. destruct (skip_whitespace_line_ok T st Hok) as (l & Hl & Hok').
  pose proof (get_token_lex_at st l (line_ok_in_text T st Hok) Hl) as H.
  eexists _, _. split; [| exact Hok'].
  unfold peek. rewrite (bind_ok _ _ _ _ _ H). reflexivity.
Qed.

Lemma skipped_head_not_whitespace st l :
  is_whitespace (head_char (rest (skipped st l))) = false.
Proof.
  destruct (rest (skipped st l)) as [| c s] eqn:E; [reflexivity |].
  apply (skipped_not_whitespace st l c s E).
Qed.

Lemma next_line_ok T st :
  line_ok T st -> exists st', next st = Ok tt st' /\ line_ok T st'.
Proof.
  intros Hok. destruct (skip_whitespace_line_ok T st Hok) as (l & Hl & Hok').
  pose proof (get_token_lex_at st l (line_ok_in_text T st Hok) Hl) as H.
  eexists. split.
  - unfold next. rewrite (bind_ok _ _ _ _ _ H). reflexivity.
  - cbn [snd]. apply (line_ok_advance T (skipped st l)); [exact Hok' | apply lex_bound |].
    apply lex_no_newline, skipped_head_not_whitespace.
Qed.

Lemma scan_until_loop_line_ok T stop fuel t st :
  line_ok T st ->
  scan_until_loop stop fuel t st = OutOfFuel \/
  exists st', scan_until_loop stop fuel t st = Ok tt st' /\ line_ok T st'.
Proof.
  revert t st. induction fuel as [| fuel IH]; intros t st Hok; [left; reflexivity |].
  simpl. destruct (stop t); [right; exists st; split; [reflexivity | exact Hok] |].
  rewrite (bind_ok eos _ st _ st eq_refl).
  destruct (text_length st <=? idx st); [right; exists st; split; [reflexivity | exact Hok] |].
  destruct (next_line_ok T st Hok) as (st1 & Hnext & Hok1).
  rewrite (bind_ok next _ _ _ _ Hnext).
  destruct (peek_line_ok T st1 Hok1) as (t' & st2 & Hpeek & Hok2).
  rewrite (bind_ok peek _ _ _ _ Hpeek).
  apply IH, Hok2.
Qed.

Lemma line_ok_text_length T st st' :
  line_ok T st -> line_ok T st' -> text_length st' = text_length st.
Proof. intros (Ht & _) (Ht' & _). apply text_length_same. congruence. Qed.

Lemma scan_until_type_line_ok T fuel ty : tokenizer_lines T (scan_until_type fuel ty).
Proof.
  intros st Hok. unfold scan_until_type.
  rewrite (bind_ok (gets idx) _ st (idx st) st eq_refl).
  destruct (peek_line_ok T st Hok) as (t & st1 & Hpeek & Hok1).
  rewrite (bind_ok peek _ _ _ _ Hpeek).
  destruct (scan_until_loop_line_ok T (fun t => Token.isa t ty) fuel t st1 Hok1)
    as [H | (st' & H & Hok')].
  - rewrite (bind_out_of_fuel _ _ _ H). exact I.
  - rewrite (bind_ok _ _ _ _ _ H).
    rewrite (bind_ok (gets idx) _ st' (idx st') st' eq_refl).
    rewrite substr_in_text; [exact Hok' |].
    rewrite (line_ok_text_length T st st' Hok Hok').
    apply in_text_idx, (line_ok_in_text T st Hok).
Qed.

Lemma scan_until_types_line_ok T fuel a b : tokenizer_lines T (scan_until_types fuel a b).
Proof.
  intros st Hok. unfold scan_until_types.
  rewrite (bind_ok (gets idx) _ st (idx st) st eq_refl).
  destruct (peek_line_ok T st Hok) as (t & st1 & Hpeek & Hok1).
  rewrite (bind_ok peek _ _ _ _ Hpeek).
  destruct (scan_until_loop_line_ok T (fun t => Token.isa t a || Token.isa t b) fuel t st1 Hok1)
    as [H | (st' & H & Hok')].
  - rewrite (bind_out_of_fuel _ _ _ H). exact I.
  - rewrite (bind_ok _ _ _ _ _ H).
    rewrite (bind_ok (gets idx) _ st' (idx st') st' eq_refl).
    rewrite substr_in_text; [exact Hok' |].
    rewrite (line_ok_text_length T st st' Hok Hok').
    apply in_text_idx, (line_ok_in_text T st Hok).
Qed.

Lemma peek_lines T : tokenizer_lines T peek.
Proof.
  intros st Hok. destruct (peek_line_ok T st Hok) as (t & st' & -> & Hok'). exact Hok'.
Qed.

Lemma next_lines T : tokenizer_lines T next.
Proof.
  intros st Hok. destruct (next_line_ok T st Hok) as (st' & -> & Hok'). exact Hok'.
Qed.

(** The comment skip stops at the newline, which it does not pass: the
    newline is counted when the white space is skipped next. *)
Lemma scan_until_char_loop_line_ok T fuel st :
  line_ok T st ->
  match scan_until_char_loop fuel LF st with
  | Ok _ st' => line_ok T st'
  | Abort _ => False
  | Fault _ | OutOfFuel => True
  end.
Proof.
  revert st. induction fuel as [| fuel IH]; intros st Hok; [exact I |].
  pose proof (line_ok_in_text T st Hok) as [Hidx Hbound].
  simpl. rewrite (bind_ok curchar _ _ _ _ (curchar_rest st Hidx)).
  destruct (rest st) as [| d r] eqn:E; cbn [head_char].
  - change (Ascii.eqb NUL LF) with false. cbv iota.
    apply rest_nil in E. mred. cbn [idx text lineno].
    rewrite uadd_small by lia.
    destruct fuel as [| fuel]; [exact I |].
    simpl. unfold curchar. mred. cbn [idx].
    rewrite (text_at_beyond _ (mkTokenizer (text st) (idx st + 1) (lineno st)))
      by (change (text_length (mkTokenizer (text st) (idx st + 1) (lineno st)))
            with (text_length st); lia).
    exact I.
  - destruct (Ascii.eqb d LF) eqn:Ed; [exact Hok |].
    pose proof (line_ok_step T st d r Hok E) as Hstep.
    unfold is_newline in Hstep. rewrite Ed in Hstep.
    mred. cbn [idx text lineno]. apply IH, Hstep.
Qed.

Lemma scan_until_char_line_ok T fuel : tokenizer_lines T (scan_until_char fuel LF).
Proof.
  intros st Hok. unfold scan_until_char.
  rewrite (bind_ok (gets idx) _ st (idx st) st eq_refl).
  pose proof (scan_until_char_loop_line_ok T fuel st Hok) as H.
  unfold bind at 1. destruct (scan_until_char_loop fuel LF st) as [u st' | | |];
    try exact I; [| exact H].
  rewrite (bind_ok (gets idx) _ st' (idx st') st' eq_refl).
  rewrite substr_in_text; [exact H |].
  rewrite (line_ok_text_length T st st' Hok H).
  apply in_text_idx, (line_ok_in_text T st Hok).
Qed.

Lemma position_lines T : tokenizer_lines T position.
Proof.
  intros st Hok.
  rewrite (position_spec st (in_text_idx st (line_ok_in_text T st Hok))). exact Hok.
Qed.

(** ** The parser keeps the line count right *)

Lemma lines_ret {A} T (a : A) : lines T (ret a).
Proof. intros p Hp. exact Hp. Qed.

Lemma lines_out_of_fuel {A} T : lines T (@out_of_fuel Parser A).
Proof. intros p Hp. exact I. Qed.

Lemma lines_raise {A} T f : lines T (@raise Parser A f).
Proof. intros p Hp. exact I. Qed.

Lemma lines_abort {A} T msg :
  String.prefix "Parsing error: " msg = false -> lines T (@abort A msg).
Proof. intros H p Hp. right. exact H. Qed.

Lemma lines_bind {A B} T (m : M Parser A) (k : A -> M Parser B) :
  lines T m -> (forall a, lines T (k a)) -> lines T (bind m k).
Proof.
  intros Hm Hk p Hp. specialize (Hm p Hp). unfold bind.
  destruct (m p) as [a p' | msg | f |]; try exact Hm. apply Hk, Hm.
Qed.

Lemma lines_tok {A} T (m : M Tokenizer A) : tokenizer_lines T m -> lines T (tok m).
Proof.
  intros Hm p (st & Hst & Hok). specialize (Hm st Hok). unfold tok. rewrite Hst.
  destruct (m st) as [a st' | msg | f |]; try exact I; [| destruct Hm].
  exists st'. split; [reflexivity | exact Hm].
Qed.

(** A failed [expect] names the tokenizer's position and its line. *)
Lemma lines_expect T t ty msg : lines T (expect t ty msg).
Proof.
  destruct (Token.isa t ty) eqn:E.
  - intros p Hp. rewrite (expect_passes t ty msg p E).
    exact (lines_tok T next (next_lines T) p Hp).
  - intros p (st & Hst & Hok).
    pose proof (line_ok_in_text T st Hok) as [Hidx Hbound].
    rewrite (expect_fails t ty msg p st Hst Hidx E).
    left. exists msg, (N.to_nat (idx st)). destruct Hok as (Ht & _ & Hl). split.
    + rewrite <- Ht. unfold text_length in Hidx. lia.
    + unfold expect_message. rewrite <- Hl. unfold rest. rewrite Ht. reflexivity.
Qed.

Lemma lines_untouched {A} T (m : M Parser A) : tokenizer_untouched m -> lines T m.
Proof.
  intros Hm p (st & Hst & Hok). specialize (Hm p).
  destruct (m p) as [a p' | msg | f |]; try exact I; [| destruct Hm].
  exists st. split; [congruence | exact Hok].
Qed.

Ltac untouched :=
  apply lines_untouched; intros ?;
  cbv beta iota delta
    [new_Module update_module push_module module_stack_top pop_module
     push_symbol_table pop_symbol_table insert_top new_Variable modify];
  repeat match goal with
  | |- context [match ?x with _ => _ end] =>
      lazymatch x with
      | context [match _ with _ => _ end] => fail
      | _ => destruct x; cbv beta iota
      end
  end;
  first [reflexivity | exact I].

Lemma lookup_lines T name : lines T (lookup name).
Proof. apply lines_untouched. intros p. rewrite lookup_spec. reflexivity. Qed.

Ltac lines_step :=
  lazymatch goal with
  | |- lines _ (bind _ _) => apply lines_bind; [| intros ?]
  | |- lines _ (ret _) => apply lines_ret
  | |- lines _ out_of_fuel => apply lines_out_of_fuel
  | |- lines _ (raise _) => apply lines_raise
  | |- lines _ (abort _) => apply lines_abort; reflexivity
  | |- lines _ (tok peek) => apply lines_tok, peek_lines
  | |- lines _ (tok next) => apply lines_tok, next_lines
  | |- lines _ (tok (scan_until_type _ _)) => apply lines_tok, scan_until_type_line_ok
  | |- lines _ (tok (scan_until_types _ _ _)) => apply lines_tok, scan_until_types_line_ok
  | |- lines _ (tok (scan_until_char _ LF)) => apply lines_tok, scan_until_char_line_ok
  | |- lines _ (expect _ _ _) => apply lines_expect
  | |- lines _ (lookup _) => apply lookup_lines
  | |- lines _ (lookup_or_new_var _) => unfold lookup_or_new_var
  | |- lines _ (get_binop_operator _) => unfold get_binop_operator
  | |- lines _ (get_unaryop_operator _) => unfold get_unaryop_operator
  | |- lines _ symbol => unfold symbol
  | |- lines _ var => unfold var
  | |- lines _ arg => unfold arg
  | |- lines _ new_Module => untouched
  | |- lines _ (update_module _ _) => untouched
  | |- lines _ (push_module _) => untouched
  | |- lines _ module_stack_top => untouched
  | |- lines _ pop_module => untouched
  | |- lines _ (push_symbol_table _) => untouched
  | |- lines _ pop_symbol_table => untouched
  | |- lines _ (insert_top _ _ _) => untouched
  | |- lines _ (new_Variable _) => untouched
  | |- lines _ (match ?x with _ => _ end) => destruct x
  end.

Lemma atom_lines T fuel : lines T (atom fuel).
Proof. unfold atom. repeat lines_step. Qed.

Lemma expr_group_lines T n :
  lines T (expr n) /\
  lines T (arith n) /\
  (forall a t, lines T (arith_loop n a t)) /\
  lines T (term n) /\
  (forall a t, lines T (term_loop n a t)) /\
  lines T (unary n) /\
  lines T (factor n).
Proof.
  induction n as [| n IH].
  { split_all; intros; apply lines_out_of_fuel. }
  destruct IH as (He & Ha & Hal & Ht & Htl & Hu & Hf).
  split_all; intros; simpl;
    repeat first [ assumption | solve [auto] | apply atom_lines | lines_step ].
Qed.

Lemma expr_lines T n : lines T (expr n).
Proof. apply expr_group_lines. Qed.

Lemma funcall_loop_lines T n args : lines T (funcall_loop n args).
Proof.
  revert args. induction n as [| n IH]; intros args; simpl;
    repeat first [ apply IH | apply atom_lines | lines_step ].
Qed.

Lemma funcall_lines T n name : lines T (funcall n name).
Proof.
  unfold funcall.
  repeat first [ apply funcall_loop_lines | apply atom_lines | lines_step ].
Qed.

Lemma assignment_lines T n name : lines T (assignment n name).
Proof. unfold assignment. repeat first [ apply expr_lines | lines_step ]. Qed.

Lemma otherstmt_lines T n : lines T (otherstmt n).
Proof.
  unfold otherstmt.
  repeat first [ apply assignment_lines | apply funcall_lines | lines_step ].
Qed.

Lemma externcall_loop_lines T n body : lines T (externcall_loop n body).
Proof.
  revert body. induction n as [| n IH]; intros body; simpl;
    repeat first [ apply IH | lines_step ].
Qed.

Lemma externcall_lines T n : lines T (externcall n).
Proof. unfold externcall. repeat first [ apply externcall_loop_lines | lines_step ]. Qed.

Lemma functiondef_loop_lines T n args : lines T (functiondef_loop n args).
Proof.
  revert args. induction n as [| n IH]; intros args; simpl;
    repeat first [ apply IH | lines_step ].
Qed.

Lemma block_group_lines T n :
  lines T (block n) /\
  (forall l, lines T (block_loop n l)) /\
  lines T (stmt n) /\
  lines T (ifstmt n) /\
  lines T (functiondef n).
Proof.
  induction n as [| n IH].
  { split_all; intros; apply lines_out_of_fuel. }
  destruct IH as (Hb & Hbl & Hs & Hi & Hf).
  split_all; intros; simpl;
    repeat first [ assumption | solve [auto] | apply expr_lines | apply externcall_lines
                 | apply otherstmt_lines | apply functiondef_loop_lines | lines_step ].
Qed.

Lemma module_lines T n : lines T (module n).
Proof.
  unfold module. repeat first [ apply (proj1 (block_group_lines T n)) | lines_step ].
Qed.

(** Every message with which a parse ends names the place rightly: the
    position is one of the text in braces, the character is the one at
    that position, and the line is one more than the number of newlines
    before it. *)
Lemma parse_string_located fuel text msg :
  N.of_nat (String.length text) + 3 < UINT_MOD ->
  parse_string fuel text Parser_new = Abort msg ->
  located ("{" +:+ text +:+ "}") msg.
Proof.
  intros Hlen H. rewrite parse_string_unfold in H.
  set (T := "{" +:+ text +:+ "}") in *.
  assert (Hl : lines T
                 (bind (module fuel)
                    (fun m => bind (tok peek)
                       (fun t => bind (expect t Token.EOSType "Expected end of string.")
                          (fun _ => ret m)))))
    by (repeat first [ apply module_lines | lines_step ]).
  assert (Hp : parser_line_ok T (set_tokenizer (Some (Tokenizer_new T)) Parser_new)).
  { exists (Tokenizer_new T). split; [reflexivity |].
    split; [reflexivity |]. split; [| reflexivity].
    unfold in_text, text_length. simpl. subst T.
    rewrite append_nil_l, length_append. simpl. lia. }
  specialize (Hl _ Hp). rewrite H in Hl. exact Hl.
Qed.

(** ** Errors of a parse *)

(** C9.  A failed [expect] is fatal and says where: the parse ends in
    [abort] with the message of the check, the character at the
    tokenizer's position (the first one of the offending token, the white
    space before it being skipped) and the line count.  An abort is the
    outcome of everything that was to follow, so nothing recovers from it,
    and the outcome carries a message and no module.  For [if (1 { }] the
    check for the closing parenthesis fails at the brace, on line 1; one
    line further down it fails on line 2.  Whatever the input, a message
    of [expect] with which the parse ends names a position of the text in
    braces, the character at that position, and its line: one more than
    the number of newlines before the position. *)
Theorem expect_failure_is_fatal :
  (forall t ty msg p st,
     tokenizer p = Some st -> idx st <= text_length st ->
     Token.isa t ty = false ->
     expect t ty msg p =
       Abort ("Parsing error: " +:+ msg +:+ " near " +:+ "character '"
              +:+ String (head_char (rest st)) ("', line " +:+ decimal (lineno st)))) /\
  (forall (A B : Type) (m : M Parser A) (k : A -> M Parser B) p msg,
     m p = Abort msg -> bind m k p = Abort msg) /\
  (forall fuel text msg,
     parse_string fuel text Parser_new = Abort msg <->
     run_parse_string fuel text = Aborted msg) /\
  parses_to "if (1 { }"
    (Aborted "Parsing error: Expected closing ')' near character '{', line 1") /\
  parses_to ("a = 1;" +:+ String LF "if (1 { }")
    (Aborted "Parsing error: Expected closing ')' near character '{', line 2") /\
  (forall fuel text msg,
     N.of_nat (String.length text) + 3 < UINT_MOD ->
     run_parse_string fuel text = Aborted msg ->
     String.prefix "Parsing error: " msg = true ->
     let T := "{" +:+ text +:+ "}" in
     exists what i,
       (i <= String.length T)%nat /\
       msg = "Parsing error: " +:+ what +:+ " near " +:+ "character '"
             +:+ String (head_char (string_drop i T))
                   ("', line " +:+ decimal (1 + N.of_nat (newlines_before i T)))).
Proof.
  split_all.
  - apply expect_fails.
  - intros A B m k p msg H. apply bind_abort, H.
  - intros fuel text msg. unfold run_parse_string.
    destruct (parse_string fuel text Parser_new) as [m p | msg' | f |].
    + destruct (modules p !! m); split; discriminate.
    + split; congruence.
    + split; discriminate.
    + split; discriminate.
  - parses_with 40%nat.
  - parses_with 40%nat.
  - intros fuel text msg Hlen H Hprefix T.
    assert (H' : parse_string fuel text Parser_new = Abort msg).
    { unfold run_parse_string in H.
      destruct (parse_string fuel text Parser_new) as [m p | msg' | f |];
        [destruct (modules p !! m) | | |]; try discriminate.
      congruence. }
    destruct (parse_string_located fuel text msg Hlen H') as [Hex | Hno];
      [exact Hex | congruence].
Qed.

Lemma expect_failure_is_fatal_witness :
  let st := at_idx 7 (Tokenizer_new "{if (1 { }}") in
  let p := set_tokenizer (Some st) Parser_new in
  expect Token.LBrace Token.RParenType "Expected closing ')'" p =
    Abort "Parsing error: Expected closing ')' near character '{', line 1".
Proof.
  intros st p.
  exact (proj1 expect_failure_is_fatal Token.LBrace Token.RParenType
           "Expected closing ')'" p st eq_refl ltac:(vm_compute; discriminate) eq_refl).
Defined.

(** * Parses that never end *)

Lemma any_fuel {S A} (f : nat -> M S A) N s r :
  (forall n m, (n <= m)%nat -> le_M (f n) (f m)) ->
  f N s = r -> r <> OutOfFuel ->
  forall n, f n s = OutOfFuel \/ f n s = r.
Proof.
  intros Hmono HN Hr n.
  destruct (Hmono n (n + N)%nat ltac:(lia) s) as [H | H]; [left; exact H |].
  right. rewrite H.
  destruct (Hmono N (n + N)%nat ltac:(lia) s) as [H' | H']; congruence.
Qed.

Lemma tok_scan_until_types_any_fuel a b N p s p' :
  tok (scan_until_types N a b) p = Ok s p' ->
  forall n, tok (scan_until_types n a b) p = OutOfFuel \/
            tok (scan_until_types n a b) p = Ok s p'.
Proof.
  intros H. apply (any_fuel (fun n => tok (scan_until_types n a b)) N p _); [| exact H | discriminate].
  intros n m Hle. apply tok_le, scan_until_types_mono, Hle.
Qed.

(** ** An embedded command that reaches the end of the text *)

Lemma get_token_at_end st :
  idx st = text_length st -> get_token st = Ok (Token.EOS, idx st) st.
Proof.
  intros E. unfold get_token, skip_whitespace, text_fuel.
  cbn [skip_whitespace_loop]. mred.
  rewrite E, N.leb_refl. cbv beta iota. unfold text_at.
  rewrite E, N.ltb_irrefl, N.eqb_refl. cbv beta iota.
  rewrite ?E, N.leb_refl. reflexivity.
Qed.

Lemma peek_at_end st :
  idx st = text_length st -> peek st = Ok Token.EOS st.
Proof.
  intros E. unfold peek. rewrite (bind_ok _ _ _ _ _ (get_token_at_end st E)).
  reflexivity.
Qed.

Lemma scan_until_types_at_end fuel a b st :
  idx st = text_length st ->
  scan_until_types fuel a b st = OutOfFuel \/
  exists s, scan_until_types fuel a b st = Ok s st.
Proof.
  intros E. unfold scan_until_types.
  rewrite (bind_ok (gets idx) _ st (idx st) st eq_refl).
  rewrite (bind_ok peek _ _ _ _ (peek_at_end st E)).
  destruct fuel as [| fuel]; [left; reflexivity |].
  right. cbn [scan_until_loop].
  assert (H : (if Token.isa Token.EOS a || Token.isa Token.EOS b
               then ret tt
               else e <- eos ;; if e then ret tt
                    else next ;;; t' <- peek ;;
                         scan_until_loop (fun t => Token.isa t a || Token.isa t b) fuel t') st
              = Ok tt st).
  { destruct (Token.isa Token.EOS a || Token.isa Token.EOS b); [reflexivity |].
    mred. rewrite E, N.leb_refl. reflexivity. }
  rewrite (bind_ok _ _ _ _ _ H).
  rewrite (bind_ok (gets idx) _ st (idx st) st eq_refl).
  unfold substr. rewrite E, N.leb_refl. eexists. reflexivity.
Qed.

(** The loop of [externcall] at the end of the text: the scan returns at
    once, the token is the end of the stream, which is neither [$] nor [)],
    and the loop goes round again with the tokenizer as it was. *)
Lemma externcall_loop_at_end fuel body p st :
  tokenizer p = Some st -> idx st = text_length st ->
  externcall_loop fuel body p = OutOfFuel.
Proof.
  intros Hp E. revert body. induction fuel as [| fuel IH]; intros body; [reflexivity |].
  cbn [externcall_loop].
  destruct (scan_until_types_at_end fuel Token.DollarType Token.RParenType st E)
    as [H | (s & H)].
  - apply bind_out_of_fuel, (tok_out_of_fuel _ p st Hp H).
  - rewrite (bind_ok _ _ _ _ _ (tok_same _ p st s Hp H)).
    rewrite (bind_ok _ _ _ _ _ (tok_same _ p st _ Hp (peek_at_end st E))).
    change (Token.isa Token.EOS Token.DollarType) with false. cbv iota.
    rewrite (bind_ok (ret (push_str s body)) _ p _ p eq_refl).
    rewrite (bind_ok _ _ _ _ _ (tok_same _ p st _ Hp (peek_at_end st E))).
    change (negb (Token.isa Token.EOS Token.RParenType)) with true. cbv iota.
    apply IH.
Qed.

(** ** Running the parser on a text *)

Ltac sym_step n :=
  lazymatch goal with
  | |- bind (tok (scan_until_types n ?a ?b)) ?k ?p = OutOfFuel =>
      let r := eval vm_compute in (tok (scan_until_types 50 a b) p) in
      lazymatch r with
      | Ok ?s ?p' =>
          let H := fresh "H" in
          destruct (tok_scan_until_types_any_fuel a b 50 p s p'
                      ltac:(vm_compute; reflexivity) n) as [H | H];
          [ apply bind_out_of_fuel, H
          | refine (eq_trans (bind_ok _ k p s p' H) _); clear H; cbv beta ]
      end
  | |- bind ?m ?k ?p = OutOfFuel =>
      lazymatch m with
      | (if ?b then _ else _) =>
          let v := eval vm_compute in b in change b with v; cbv iota
      | (match ?x with _ => _ end) =>
          let v := eval vm_compute in x in change x with v; cbv iota
      | context [n] => apply bind_out_of_fuel
      | _ =>
          let r := eval vm_compute in (m p) in
          lazymatch r with
          | Ok ?a ?p' =>
              refine (eq_trans (bind_ok m k p a p' _) _);
              [vm_compute; reflexivity | cbv beta]
          end
      end
  | |- (if ?b then _ else _) ?p = OutOfFuel =>
      let v := eval vm_compute in b in change b with v; cbv iota
  | |- (match ?x with _ => _ end) ?p = OutOfFuel =>
      let v := eval vm_compute in x in change x with v; cbv iota
  | |- tok ?m ?p = OutOfFuel => eapply tok_out_of_fuel; [vm_compute; reflexivity |]
  end.

Ltac fuel_step n :=
  lazymatch goal with
  | |- block n _ = OutOfFuel => idtac
  | |- block_loop n _ _ = OutOfFuel => idtac
  | |- stmt n _ = OutOfFuel => idtac
  | |- ifstmt n _ = OutOfFuel => idtac
  | |- functiondef n _ = OutOfFuel => idtac
  | |- expr n _ = OutOfFuel => idtac
  | |- arith n _ = OutOfFuel => idtac
  | |- arith_loop n _ _ _ = OutOfFuel => idtac
  | |- term n _ = OutOfFuel => idtac
  | |- term_loop n _ _ _ = OutOfFuel => idtac
  | |- unary n _ = OutOfFuel => idtac
  | |- factor n _ = OutOfFuel => idtac
  | |- funcall_loop n _ _ = OutOfFuel => idtac
  | |- functiondef_loop n _ _ = OutOfFuel => idtac
  | |- externcall_loop n _ _ = OutOfFuel => idtac
  | |- scan_until_loop _ n _ _ = OutOfFuel => idtac
  | |- scan_until_char_loop n _ _ = OutOfFuel => idtac
  end;
  destruct n as [| n]; [reflexivity |];
  cbn [block block_loop stmt ifstmt functiondef expr arith arith_loop term term_loop
       unary factor funcall_loop functiondef_loop externcall_loop scan_until_loop
       scan_until_char_loop].

Ltac sym_unfold :=
  progress unfold parse_string, module, otherstmt, assignment, funcall, externcall,
    atom, scan_until_type, scan_until_types, scan_until_char.

(** Runs the parser on a text, one step after the other, until [close]
    proves that what is left never returns. *)
Ltac sym n close :=
  first [ solve [close]
        | first [ sym_step n | fuel_step n | sym_unfold ]; sym n close ].

Lemma string_with_no_token_char_never_parsed n :
  parse_string n ("a = " +:+ String DQUOTE ("50%" +:+ String DQUOTE ";")) Parser_new
  = OutOfFuel.
Proof.
  sym n ltac:(apply (scan_until_loop_no_progress _ n _ "%" (String DQUOTE ";}"));
             reflexivity).
Qed.

Lemma unterminated_command_never_parsed n :
  parse_string n "@(echo" Parser_new = OutOfFuel.
Proof.
  sym n ltac:(eapply externcall_loop_at_end; [reflexivity | reflexivity]).
Qed.

Lemma diverges_from_parse_string text :
  (forall fuel, parse_string fuel text Parser_new = OutOfFuel) -> diverges text.
Proof. intros H fuel. unfold run_parse_string. rewrite H. reflexivity. Qed.

(** * Tokens and scans *)

Ltac solve_in_text := split; vm_compute; [discriminate | reflexivity].

(** C6, as amended.  At a position that starts a run of digits the token
    is a fractional literal exactly when the run is immediately followed by
    a decimal point, whether or not digits follow the point, and an integer
    otherwise.  The payload of an integer is the run; the payload of a
    fractional literal is the run, the point and the (possibly empty) run of
    digits after it, so it has exactly one decimal point and only digits
    besides: no sign and no exponent.  The token takes exactly the
    characters of its payload, and the tokenizer itself is left as it
    was. *)
Theorem read_number_token st c s :
  in_text st -> rest st = String c s -> is_digit c = true ->
  let ds := span is_digit (rest st) in
  let after := string_drop (String.length ds) (rest st) in
  let fs := span is_digit (string_drop 1 after) in
  exists tok,
    get_token st = Ok (tok, idx st + N.of_nat (String.length (Token.value tok))) st /\
    (head_char after = "."%char -> tok = Token.Fractional (ds +:+ "." +:+ fs)) /\
    (head_char after <> "."%char -> tok = Token.Int ds) /\
    (Token.type tok = Token.FractionalType <-> head_char after = "."%char) /\
    (Token.type tok = Token.FractionalType ->
       count_char "." (Token.value tok) = 1%nat /\
       all_chars (fun d => is_digit d || Ascii.eqb d ".") (Token.value tok) = true).
Proof.
  intros Hin E Hc ds after fs.
  rewrite (get_token_digit st c s Hin E Hc).
  unfold lex_number. fold ds. fold after. fold fs.
  assert (Hfrac : count_char "." (ds +:+ "." +:+ fs) = 1%nat /\
                  all_chars (fun d => is_digit d || Ascii.eqb d ".") (ds +:+ "." +:+ fs) = true).
  { rewrite !count_char_append, !all_chars_append.
    rewrite (count_char_digits ds (span_all _ _)), (count_char_digits fs (span_all _ _)).
    split; [reflexivity |].
    rewrite (all_chars_impl is_digit _ ds), (all_chars_impl is_digit _ fs);
      try apply span_all; try (intros d ->; reflexivity). reflexivity. }
  destruct (Ascii.eqb (head_char after) ".") eqn:Edot.
  - apply Ascii.eqb_eq in Edot. exists (Token.Fractional (ds +:+ "." +:+ fs)).
    cbn [fst snd Token.value Token.type Token.Fractional].
    repeat split; try congruence.
    + rewrite !length_append. simpl. do 3 f_equal. lia.
    + apply Hfrac.
    + apply Hfrac.
  - apply Ascii.eqb_neq in Edot. exists (Token.Int ds).
    cbn [fst snd Token.value Token.type Token.Int].
    repeat split; try congruence; try discriminate.
Qed.

Lemma read_number_token_witness :
  let st := Tokenizer_new "x = 12.5+y" in
  let st' := at_idx 4 st in
  get_token st' = Ok (Token.Fractional "12.5", 8) st'.
Proof.
  intros st st'.
  destruct (read_number_token st' "1" "2.5+y" ltac:(solve_in_text) eq_refl eq_refl)
    as (tok & Htok & Hfrac & _).
  specialize (Hfrac eq_refl). vm_compute in Hfrac. subst tok. exact Htok.
Defined.

(** C6, the claim as stated fails: in [1.;] no digit follows the point, and
    the token is a fractional literal all the same. *)
Lemma fractional_without_digits_after_point :
  get_token (Tokenizer_new "1.;") = Ok (Token.Fractional "1.", 2) (Tokenizer_new "1.;").
Proof. vm_compute. reflexivity. Qed.

(** C10, as amended.  At a position whose character is no white space,
    none of the single-character token characters, no digit and no letter,
    the token is a symbol with an empty payload and the index the position
    had: [peek] and [next] leave the tokenizer as it was.  So
    [scan_until(type)] and [scan_until(type_a, type_b)], for stop types
    other than the symbol type, never get past the character and never
    return.  The statement loop of the parser does end there: the empty
    symbol passes [symbol()], the token after it is the same empty symbol,
    and the statement is rejected with a fatal error.  Inside a quoted
    string the character is met by [scan_until(type)], and the parse never
    ends. *)
Theorem no_token_char_no_progress st c s :
  rest st = String c s -> no_token_char c = true ->
  get_token st = Ok (Token.Symbol EmptyString, idx st) st /\
  peek st = Ok (Token.Symbol EmptyString) st /\
  next st = Ok tt st /\
  (forall fuel ty, ty <> Token.SymbolType -> scan_until_type fuel ty st = OutOfFuel) /\
  (forall fuel a b, a <> Token.SymbolType -> b <> Token.SymbolType ->
     scan_until_types fuel a b st = OutOfFuel) /\
  (forall fuel l p, tokenizer p = Some st ->
     block_loop (S (S fuel)) l p = Abort "Unexpected token in statement.") /\
  diverges ("a = " +:+ String DQUOTE ("50%" +:+ String DQUOTE ";")).
Proof.
  intros E Hc. split_all.
  - apply (get_token_no_token_char st c s E Hc).
  - apply (peek_no_token_char st c s E Hc).
  - apply (next_no_token_char st c s E Hc).
  - intros fuel ty Hty. apply (scan_until_type_no_progress fuel ty st c s E Hc Hty).
  - intros fuel a b Ha Hb. apply (scan_until_types_no_progress fuel a b st c s E Hc Ha Hb).
  - intros fuel l p Hp. apply (block_loop_no_token_char fuel l p st c s Hp E Hc).
  - apply diverges_from_parse_string, string_with_no_token_char_never_parsed.
Qed.

Lemma no_token_char_no_progress_witness :
  let st := at_idx 2 (Tokenizer_new "50%") in
  next st = Ok tt st /\
  forall fuel, scan_until_type fuel Token.QuoteType st = OutOfFuel.
Proof.
  intros st.
  destruct (no_token_char_no_progress st "%" EmptyString eq_refl eq_refl)
    as (_ & _ & Hnext & Hscan & _).
  split; [exact Hnext | intros fuel; apply Hscan; discriminate].
Defined.

(** C10, the claim as stated fails: the statement loop of the parser ends
    at such a character, with a fatal error. *)
Lemma statement_loop_ends_at_no_token_char :
  parses_to "%" (Aborted "Unexpected token in statement.").
Proof. parses_with 8%nat. Qed.

(** * More on the tokenizer *)

(** ** White space *)

Lemma skip_whitespace_end st : rest st = EmptyString -> skip_whitespace st = Ok tt st.
Proof.
  intros E. apply rest_nil in E. unfold skip_whitespace, text_fuel.
  cbn [skip_whitespace_loop]. mred.
  replace (text_length st <=? idx st) with true by (symmetry; apply N.leb_le; exact E).
  reflexivity.
Qed.

Lemma skip_whitespace_at_token st :
  is_whitespace (head_char (rest st)) = false -> skip_whitespace st = Ok tt st.
Proof.
  destruct (rest st) as [| c s] eqn:E; [intros _; apply skip_whitespace_end, E |].
  cbn [head_char]. apply (skip_whitespace_same st c s E).
Qed.

Lemma skipped_at_token st :
  is_whitespace (head_char (rest st)) = false -> skipped st (lineno st) = st.
Proof.
  destruct (rest st) as [| c s] eqn:E; [intros _; apply skipped_end, E |].
  cbn [head_char]. apply (skipped_same st c s E).
Qed.

(** X1.  From a position of the text [skip_whitespace] returns, with the
    text as it was and the tokenizer moved over the run of white space at
    the position and no further: the character it stops at is no white
    space (it is the terminator at the end of the text).  A second call
    changes nothing. *)
Theorem skip_whitespace_reaches_token st :
  in_text st ->
  exists st',
    skip_whitespace st = Ok tt st' /\
    in_text st' /\
    text st' = text st /\
    idx st' = idx st + N.of_nat (String.length (span is_whitespace (rest st))) /\
    rest st' = string_drop (String.length (span is_whitespace (rest st))) (rest st) /\
    is_whitespace (head_char (rest st')) = false /\
    skip_whitespace st' = Ok tt st'.
Proof.
  intros Hin. destruct (skip_whitespace_spec st Hin) as (l & Hl).
  exists (skipped st l). split; [exact Hl |].
  split; [apply in_text_skipped, Hin |].
  split; [reflexivity |]. split; [reflexivity |].
  split; [apply rest_skipped |].
  split; [apply skipped_head_not_whitespace |].
  apply skip_whitespace_at_token, skipped_head_not_whitespace.
Qed.

Lemma skip_whitespace_reaches_token_witness :
  let st := Tokenizer_new (" " +:+ String LF " x = 1") in
  skip_whitespace st = Ok tt (mkTokenizer (text st) 3 2).
Proof.
  intros st.
  destruct (skip_whitespace_reaches_token st ltac:(solve_in_text))
    as (st' & H & _ & Ht & Hi & _).
  rewrite H. f_equal. destruct st' as [t i l]. simpl in Ht, Hi. subst t i.
  f_equal. vm_compute in H. injection H as H. symmetry. exact H.
Defined.

(** ** [peek] and [next] *)

Lemma get_token_again st tk n st' :
  in_text st -> get_token st = Ok (tk, n) st' -> get_token st' = Ok (tk, n) st'.
Proof.
  intros Hin H. destruct (skip_whitespace_spec st Hin) as (l & Hl).
  rewrite (get_token_lex_at st l Hin Hl) in H. injection H as <- <- <-.
  pose proof (skipped_head_not_whitespace st l) as Hw.
  pose proof (skip_whitespace_at_token _ Hw) as Hsk.
  rewrite <- (skipped_at_token _ Hw) in Hsk at 2.
  rewrite (get_token_lex_at (skipped st l) _ (in_text_skipped st l Hin) Hsk).
  rewrite (skipped_at_token _ Hw). reflexivity.
Qed.

Lemma peek_again st t st' :
  in_text st -> peek st = Ok t st' -> peek st' = Ok t st'.
Proof.
  intros Hin H. unfold peek in H. apply bind_ok_inv in H.
  destruct H as ([tk n] & st1 & Hg & H). injection H as <- <-.
  unfold peek. rewrite (bind_ok _ _ _ _ _ (get_token_again st tk n st1 Hin Hg)).
  reflexivity.
Qed.

(** X2.  [peek] does not consume: what it changes is the white space it
    skips.  From a position of the text, a second [peek] gives the same
    token and changes nothing more, and [next] after a [peek] does what
    [next] without it does. *)
Theorem peek_does_not_consume st t st' :
  in_text st -> peek st = Ok t st' ->
  peek st' = Ok t st' /\ next st' = next st /\
  text st' = text st /\ idx st <= idx st' /\
  is_whitespace (head_char (rest st')) = false.
Proof.
  intros Hin H. split; [exact (peek_again st t st' Hin H) |].
  unfold peek in H. apply bind_ok_inv in H.
  destruct H as ([tk n] & st1 & Hg & H). injection H as <- <-.
  pose proof (get_token_again st tk n st1 Hin Hg) as Hg'.
  split; [unfold next; rewrite (bind_ok _ _ _ _ _ Hg), (bind_ok _ _ _ _ _ Hg'); reflexivity |].
  destruct (skip_whitespace_spec st Hin) as (l & Hl).
  rewrite (get_token_lex_at st l Hin Hl) in Hg. injection Hg as _ _ <-.
  split; [reflexivity |]. split; [simpl; lia |]. apply skipped_head_not_whitespace.
Qed.

Lemma peek_does_not_consume_witness :
  let st := Tokenizer_new "  if (x) { }" in
  let st' := at_idx 2 st in
  peek st' = Ok Token.If st' /\ next st' = next st.
Proof.
  intros st st'.
  destruct (peek_does_not_consume st Token.If st' ltac:(solve_in_text) eq_refl)
    as (H1 & H2 & _).
  split; assumption.
Defined.

(** A character that is no white space and starts a token of its own is
    taken by the token. *)
Lemma span_cons_length p c s : p c = true -> (0 < String.length (span p (String c s)))%nat.
Proof. intros H. simpl. rewrite H. simpl. lia. Qed.

Lemma lex_number_progress c s :
  is_digit c = true -> (0 < snd (lex_number (String c s)))%nat.
Proof.
  intros Hc. unfold lex_number.
  pose proof (span_cons_length is_digit c s Hc) as H.
  destruct (Ascii.eqb _ "."); cbn [snd]; lia.
Qed.

Lemma occurs_cons_false c d s :
  Ascii.eqb c d = false -> occurs c s = false -> occurs c (String d s) = false.
Proof. intros H1 H2. simpl. rewrite Ascii.eqb_sym, H1, H2. reflexivity. Qed.

Lemma lex_progress c s :
  no_token_char c = false -> is_whitespace c = false ->
  (0 < snd (lex (String c s)))%nat.
Proof.
  intros Hn Hw. unfold lex.
  lex_cases c ltac:(simpl; lia).
  destruct (Ascii.eqb c "=") eqn:Eeq.
  { destruct (head_char s =? "=")%char; simpl; lia. }
  lex_cases c ltac:(simpl; lia).
  destruct (is_digit c) eqn:Ed; [apply lex_number_progress, Ed |].
  unfold lex_symbol. cbn [snd]. apply span_cons_length.
  unfold no_token_char in Hn. rewrite Hw, Ed in Hn.
  assert (Ho : occurs c single_char_tokens = false).
  { unfold single_char_tokens. cbv [String.append].
    repeat (apply occurs_cons_false; [assumption |]). reflexivity. }
  rewrite Ho in Hn. simpl in Hn. apply negb_false_iff in Hn.
  unfold is_alphanumeric. rewrite Ed. exact Hn.
Qed.

(** X3.  From a position of the text [next] returns and leaves a position
    of the same text, at or after the one it started from.  It passes
    the white space at the position and the token after it; when the
    character after the white space starts a token (it is not one of the
    characters that start none) the tokenizer ends strictly further than
    that character. *)
Theorem next_advances st :
  in_text st ->
  exists st',
    next st = Ok tt st' /\ in_text st' /\ text st' = text st /\
    idx st <= idx st' /\
    forall c s,
      string_drop (String.length (span is_whitespace (rest st))) (rest st) = String c s ->
      no_token_char c = false ->
      idx st + N.of_nat (String.length (span is_whitespace (rest st))) < idx st'.
Proof.
  intros Hin. destruct (next_lex st Hin) as (l & H).
  eexists. split; [exact H |].
  split; [apply in_text_advance; [apply in_text_skipped, Hin | apply lex_bound] |].
  split; [reflexivity |]. split; [simpl; lia |].
  intros c s E Hc. cbn [idx at_idx skipped].
  rewrite rest_skipped, E.
  pose proof (skipped_not_whitespace st l c s) as Hw.
  rewrite rest_skipped in Hw. specialize (Hw E).
  pose proof (lex_progress c s Hc Hw). lia.
Qed.

Lemma next_advances_witness :
  let st := at_idx 5 (Tokenizer_new "{a = 12.5; }") in
  next st = Ok tt (at_idx 9 st).
Proof.
  intros st.
  destruct (next_advances st ltac:(solve_in_text)) as (st' & H & _ & _ & _ & Hlt).
  specialize (Hlt "1"%char "2.5; }" eq_refl eq_refl).
  rewrite H. vm_compute in H. injection H as <-. reflexivity.
Defined.

(** ** Symbols and reserved words *)

Lemma is_letter_not_digit c : is_letter c = true -> is_digit c = false.
Proof.
  unfold is_letter, is_digit. intros H.
  destruct (N.leb_spec 0x30 (N_of_ascii c)) as [Ha | Ha],
           (N.leb_spec (N_of_ascii c) 0x39) as [Hb | Hb];
    simpl; try reflexivity.
  exfalso. apply orb_prop in H.
  destruct H as [H | H]; apply andb_prop in H; destruct H as [H1 H2];
    apply N.leb_le in H1; lia.
Qed.

Lemma is_letter_alphanumeric c : is_letter c = true -> is_alphanumeric c = true.
Proof.
  intros H. unfold is_alphanumeric. rewrite (is_letter_not_digit c H). exact H.
Qed.

Lemma is_letter_not c d : is_letter c = true -> is_letter d = false -> Ascii.eqb c d = false.
Proof.
  intros Hc Hd. destruct (Ascii.eqb_spec c d) as [-> |]; [congruence | reflexivity].
Qed.

Lemma is_letter_not_whitespace c : is_letter c = true -> is_whitespace c = false.
Proof.
  intros Hc. unfold is_whitespace, is_newline.
  rewrite (is_letter_not c " " Hc eq_refl), (is_letter_not c TAB Hc eq_refl),
    (is_letter_not c LF Hc eq_refl). reflexivity.
Qed.

Lemma lex_letter c s : is_letter c = true -> lex (String c s) = lex_symbol (String c s).
Proof.
  intros Hc. unfold lex.
  repeat match goal with
  | |- context [if Ascii.eqb c ?d then _ else _] =>
      rewrite (is_letter_not c d Hc eq_refl)
  end.
  rewrite (is_letter_not_digit c Hc). reflexivity.
Qed.

Lemma get_multichar_token_value w : Token.value (get_multichar_token w) = w.
Proof.
  unfold get_multichar_token.
  destruct (String.eqb_spec w (Token.value Token.If)) as [-> | _]; [reflexivity |].
  destruct (String.eqb_spec w (Token.value Token.Def)) as [-> | _]; reflexivity.
Qed.

(** X4.  At a letter the token is the longest run of letters and digits
    from there: the reserved word [if] or [def] when the run is exactly
    that word, and a symbol with the run as its payload otherwise, so a
    longer word that starts like a reserved word is a symbol.  The token
    takes the run and nothing else, and the tokenizer itself is left as it
    was. *)
Theorem symbol_is_the_whole_word st c s :
  in_text st -> rest st = String c s -> is_letter c = true ->
  let w := span is_alphanumeric (rest st) in
  exists tok,
    get_token st = Ok (tok, idx st + N.of_nat (String.length w)) st /\
    (w = "if" -> tok = Token.If) /\
    (w = "def" -> tok = Token.Def) /\
    (w <> "if" -> w <> "def" -> tok = Token.Symbol w) /\
    Token.value tok = w /\
    (0 < String.length w)%nat /\
    is_alphanumeric (head_char (string_drop (String.length w) (rest st))) = false.
Proof.
  intros Hin E Hc w.
  pose proof (is_letter_not_whitespace c Hc) as Hw.
  pose proof (skip_whitespace_same st c s E Hw) as Hsame.
  pose proof (skipped_same st c s E Hw) as Hsk.
  rewrite <- Hsk in Hsame at 2.
  exists (get_multichar_token w).
  split.
  { rewrite (get_token_lex_at st (lineno st) Hin Hsame), Hsk, E.
    rewrite (lex_letter c s Hc). unfold lex_symbol. cbn [fst snd].
    subst w. rewrite E. reflexivity. }
  split; [intros ->; reflexivity |].
  split; [intros ->; reflexivity |].
  split.
  { intros H1 H2. unfold get_multichar_token.
    destruct (String.eqb_spec w (Token.value Token.If)) as [H | _]; [destruct (H1 H) |].
    destruct (String.eqb_spec w (Token.value Token.Def)) as [H | _]; [destruct (H2 H) |].
    reflexivity. }
  split; [apply get_multichar_token_value |].
  split.
  { subst w. rewrite E. apply span_cons_length, is_letter_alphanumeric, Hc. }
  pose proof (span_stop is_alphanumeric (rest st)) as Hstop. fold w in Hstop.
  destruct (string_drop (String.length w) (rest st)) as [| d r];
    [apply is_alphanumeric_NUL | exact Hstop].
Qed.

Lemma symbol_is_the_whole_word_witness :
  let st := at_idx 1 (Tokenizer_new "{iffy = 1;}") in
  get_token st = Ok (Token.Symbol "iffy", 5) st.
Proof.
  intros st.
  destruct (symbol_is_the_whole_word st "i" "ffy = 1;}" ltac:(solve_in_text) eq_refl eq_refl)
    as (tok & H & _ & _ & Hsym & _).
  rewrite (Hsym ltac:(vm_compute; discriminate) ltac:(vm_compute; discriminate)) in H.
  exact H.
Defined.

(** ** Scanning for a token *)

Lemma peek_state st t st' :
  in_text st -> peek st = Ok t st' ->
  in_text st' /\ text st' = text st /\ idx st <= idx st'.
Proof.
  intros Hin H. destruct (peek_lex st Hin) as (l & Hl). rewrite Hl in H.
  injection H as _ <-. split; [apply in_text_skipped, Hin |].
  split; [reflexivity | simpl; lia].
Qed.

Lemma next_state st st' :
  in_text st -> next st = Ok tt st' ->
  in_text st' /\ text st' = text st /\ idx st <= idx st'.
Proof.
  intros Hin H. destruct (next_lex st Hin) as (l & Hl). rewrite Hl in H.
  injection H as <-.
  split; [apply in_text_advance; [apply in_text_skipped, Hin | apply lex_bound] |].
  split; [reflexivity | simpl; lia].
Qed.

Lemma scan_until_loop_stops stop fuel t st st' :
  in_text st -> peek st = Ok t st ->
  scan_until_loop stop fuel t st = Ok tt st' ->
  in_text st' /\ text st' = text st /\ idx st <= idx st' /\
  exists t', peek st' = Ok t' st' /\ (stop t' = true \/ idx st' = text_length st').
Proof.
  revert t st. induction fuel as [| fuel IH]; intros t st Hin Hpeek H; [discriminate |].
  simpl in H. destruct (stop t) eqn:Es.
  { injection H as <-. split; [exact Hin |]. split; [reflexivity |]. split; [lia |].
    exists t. split; [exact Hpeek | left; exact Es]. }
  rewrite (bind_ok eos _ st _ st eq_refl) in H.
  destruct (text_length st <=? idx st) eqn:Ee.
  { injection H as <-. split; [exact Hin |]. split; [reflexivity |]. split; [lia |].
    exists t. split; [exact Hpeek |]. right.
    apply N.leb_le in Ee. pose proof (in_text_idx st Hin). lia. }
  destruct (next_in_text st Hin) as (st1 & Hnext & _).
  rewrite (bind_ok next _ _ _ _ Hnext) in H.
  destruct (next_state st st1 Hin Hnext) as (Hin1 & Ht1 & Hi1).
  destruct (peek_in_text st1 Hin1) as (t1 & st2 & Hpeek1 & _).
  rewrite (bind_ok peek _ _ _ _ Hpeek1) in H.
  destruct (peek_state st1 t1 st2 Hin1 Hpeek1) as (Hin2 & Ht2 & Hi2).
  destruct (IH t1 st2 Hin2 (peek_again st1 t1 st2 Hin1 Hpeek1) H)
    as (Hin' & Ht' & Hi' & Hex).
  split; [exact Hin' |]. split; [congruence |]. split; [lia | exact Hex].
Qed.

Lemma scan_until_stops stop fuel st s st' :
  in_text st ->
  (start <- gets idx ;;
   t <- peek ;;
   scan_until_loop stop fuel t ;;;
   i <- gets idx ;;
   substr start (usub i start)) st = Ok s st' ->
  in_text st' /\ text st' = text st /\ idx st <= idx st' /\
  s = String.substring (N.to_nat (idx st)) (N.to_nat (idx st' - idx st)) (text st) /\
  exists t, peek st' = Ok t st' /\ (stop t = true \/ idx st' = text_length st').
Proof.
  intros Hin H.
  rewrite (bind_ok (gets idx) _ st (idx st) st eq_refl) in H.
  destruct (peek_in_text st Hin) as (t & st1 & Hpeek & _).
  rewrite (bind_ok peek _ _ _ _ Hpeek) in H.
  destruct (peek_state st t st1 Hin Hpeek) as (Hin1 & Ht1 & Hi1).
  apply bind_ok_inv in H. destruct H as ([] & st2 & Hloop & H).
  destruct (scan_until_loop_stops stop fuel t st1 st2 Hin1
              (peek_again st t st1 Hin Hpeek) Hloop) as (Hin2 & Ht2 & Hi2 & Hex).
  rewrite (bind_ok (gets idx) _ st2 (idx st2) st2 eq_refl) in H.
  assert (Hlen : text_length st2 = text_length st)
    by (apply text_length_same; congruence).
  rewrite substr_in_text in H by (rewrite Hlen; apply in_text_idx, Hin).
  injection H as <- <-.
  split; [exact Hin2 |]. split; [congruence |]. split; [lia |].
  split; [| exact Hex].
  rewrite usub_small; [congruence | lia |].
  pose proof (in_text_idx st2 Hin2). pose proof (in_text_bound st2 Hin2). lia.
Qed.

(** X5.  When [scan_until(type)] or [scan_until(type_a, type_b)] returns
    from a position of the text, the tokenizer is at a position of the
    same text, at or after the start, where the token is one of the type
    asked for, or at the end of the text; what is returned is the text
    between the start and that position, the white space before the token
    included. *)
Theorem scan_until_stops_at_the_token :
  (forall fuel ty st s st',
     in_text st -> scan_until_type fuel ty st = Ok s st' ->
     in_text st' /\ text st' = text st /\ idx st <= idx st' /\
     s = String.substring (N.to_nat (idx st)) (N.to_nat (idx st' - idx st)) (text st) /\
     exists t, peek st' = Ok t st' /\
               (Token.isa t ty = true \/ idx st' = text_length st')) /\
  (forall fuel a b st s st',
     in_text st -> scan_until_types fuel a b st = Ok s st' ->
     in_text st' /\ text st' = text st /\ idx st <= idx st' /\
     s = String.substring (N.to_nat (idx st)) (N.to_nat (idx st' - idx st)) (text st) /\
     exists t, peek st' = Ok t st' /\
               (Token.isa t a || Token.isa t b = true \/ idx st' = text_length st')).
Proof.
  split.
  - intros fuel ty st s st' Hin H.
    exact (scan_until_stops (fun t => Token.isa t ty) fuel st s st' Hin H).
  - intros fuel a b st s st' Hin H.
    exact (scan_until_stops (fun t => Token.isa t a || Token.isa t b) fuel st s st' Hin H).
Qed.

Lemma scan_until_stops_at_the_token_witness :
  let st := at_idx 6 (Tokenizer_new ("{a = " +:+ String DQUOTE ("x + 1" +:+ String DQUOTE ";}"))) in
  exists st',
    scan_until_type 10 Token.QuoteType st = Ok "x + 1" st' /\
    peek st' = Ok Token.Quote st'.
Proof.
  intros st.
  destruct (scan_until_type 10 Token.QuoteType st) as [s st' | | |] eqn:E;
    try (exfalso; vm_compute in E; discriminate E).
  destruct (proj1 scan_until_stops_at_the_token 10%nat Token.QuoteType st s st'
              ltac:(solve_in_text) E) as (_ & _ & _ & _ & t & Hpeek & _).
  exists st'. vm_compute in E. injection E as <- <-. split; [reflexivity |].
  vm_compute. reflexivity.
Defined.

(** ** Scanning for a character *)

Lemma substring_drop n k s :
  String.substring n k s = String.substring 0 k (string_drop n s).
Proof.
  revert s. induction n as [| n IH]; intros s; [reflexivity |].
  destruct s as [| c s]; simpl; [destruct k; reflexivity | apply IH].
Qed.

Lemma substring_span p s : String.substring 0 (String.length (span p s)) s = span p s.
Proof.
  induction s as [| c s IH]; simpl; [reflexivity |].
  destruct (p c); simpl; [rewrite IH |]; reflexivity.
Qed.

Lemma occurs_span_false c s : occurs c (span (fun d => negb (Ascii.eqb d c)) s) = false.
Proof.
  induction s as [| d s IH]; simpl; [reflexivity |].
  destruct (Ascii.eqb d c) eqn:E; simpl; [reflexivity |]. rewrite E, IH. reflexivity.
Qed.

Lemma head_after_span c s :
  occurs c s = true ->
  head_char (string_drop (String.length (span (fun d => negb (Ascii.eqb d c)) s)) s) = c.
Proof.
  induction s as [| d s IH]; simpl; [discriminate |].
  destruct (Ascii.eqb_spec d c) as [-> | Hne]; simpl; [reflexivity | exact IH].
Qed.

Lemma scan_until_char_loop_finds c st :
  text_length st + 1 < UINT_MOD ->
  forall fuel i,
    i <= text_length st ->
    occurs c (rest (at_idx i st)) = true ->
    (String.length (rest (at_idx i st)) < fuel)%nat ->
    scan_until_char_loop fuel c (at_idx i st) =
      Ok tt (at_idx (i + N.of_nat (String.length
                                     (span (fun d => negb (Ascii.eqb d c))
                                        (rest (at_idx i st))))) st).
Proof.
  intros Hbound. induction fuel as [| fuel IH]; intros i Hi Hocc Hfuel; [lia |].
  simpl. rewrite (bind_ok curchar _ _ _ _ (curchar_rest (at_idx i st) Hi)).
  destruct (rest (at_idx i st)) as [| d r] eqn:E; [discriminate |]. cbn [head_char].
  simpl in Hocc. cbn [span].
  destruct (Ascii.eqb d c) eqn:Ed; cbn [negb String.length].
  - rewrite N.add_0_r. reflexivity.
  - simpl in Hocc. apply rest_cons in E. destruct E as (Hlt & E). simpl in Hlt, E.
    change (text_length (at_idx i st)) with (text_length st) in Hlt.
    mred. cbn [idx text lineno at_idx]. rewrite uadd_small by lia.
    change (mkTokenizer (text st) (i + 1) (lineno st)) with (at_idx (i + 1) st).
    change (at_idx (i + 1) (at_idx i st)) with (at_idx (i + 1) st) in E.
    rewrite IH; [| lia | rewrite E; exact Hocc | rewrite E; simpl in Hfuel; lia].
    rewrite E. do 2 f_equal. lia.
Qed.

Lemma scan_until_char_found fuel c st :
  in_text st -> occurs c (rest st) = true ->
  (String.length (rest st) < fuel)%nat ->
  scan_until_char fuel c st =
    Ok (span (fun d => negb (Ascii.eqb d c)) (rest st))
       (at_idx (idx st + N.of_nat (String.length
                                     (span (fun d => negb (Ascii.eqb d c)) (rest st)))) st).
Proof.
  intros Hin Hocc Hfuel. destruct Hin as [Hidx Hbound].
  set (before := span (fun d => negb (Ascii.eqb d c)) (rest st)).
  set (st' := at_idx (idx st + N.of_nat (String.length before)) st).
  pose proof (span_length (fun d => negb (Ascii.eqb d c)) (rest st)) as Hlen.
  fold before in Hlen. rewrite rest_length in Hlen.
  unfold scan_until_char.
  rewrite (bind_ok (gets idx) _ st (idx st) st eq_refl).
  pose proof (scan_until_char_loop_finds c st Hbound fuel (idx st) Hidx) as Hloop.
  rewrite at_idx_same in Hloop. specialize (Hloop Hocc Hfuel). fold before in Hloop.
  rewrite (bind_ok _ _ _ _ _ Hloop). fold st'.
  rewrite (bind_ok (gets idx) _ st' (idx st') st' eq_refl).
  rewrite substr_in_text by exact Hidx.
  f_equal. cbn [idx st' at_idx].
  rewrite usub_small by (unfold text_length in *; lia).
  replace (N.to_nat (idx st + N.of_nat (String.length before) - idx st))
    with (String.length before) by lia.
  rewrite substring_drop. apply substring_span.
Qed.

(** X6.  When the character looked for is in the text at or after the
    position, [scan_until(char)] returns what is before its first
    occurrence and leaves the tokenizer at that occurrence; it reads
    nothing outside the text, and the line count is left as it was.  So a
    comment runs to the end of its line, and the newline is left for the
    white space that follows. *)
Theorem scan_until_char_finds fuel c st :
  in_text st -> occurs c (rest st) = true ->
  (String.length (rest st) < fuel)%nat ->
  let before := span (fun d => negb (Ascii.eqb d c)) (rest st) in
  let st' := at_idx (idx st + N.of_nat (String.length before)) st in
  scan_until_char fuel c st = Ok before st' /\
  occurs c before = false /\
  head_char (rest st') = c /\
  in_text st'.
Proof.
  intros Hin Hocc Hfuel before st'.
  split; [apply scan_until_char_found; assumption |].
  split; [apply occurs_span_false |]. split.
  - unfold st'. rewrite rest_add. apply head_after_span, Hocc.
  - apply in_text_advance; [exact Hin | apply span_length].
Qed.

Lemma scan_until_char_finds_witness :
  let st := at_idx 8 (Tokenizer_new ("{a = 1; # one" +:+ String LF "b = 2;}")) in
  scan_until_char 20 LF st = Ok "# one" (at_idx 13 st).
Proof.
  intros st.
  exact (proj1 (scan_until_char_finds 20 LF st ltac:(solve_in_text) eq_refl
                  ltac:(vm_compute; lia))).
Defined.

(** ** The line count *)

(** X7.  The tokenizer counts lines rightly: when its line count is one
    more than the number of newlines before its position, it is so again
    after [skip_whitespace], [peek], [next], [scan_until(type)],
    [scan_until(type_a, type_b)] and the scan for a newline.  (The scan for
    another character passes newlines without counting them.) *)
Theorem tokenizer_counts_lines T st :
  line_ok T st ->
  (forall st', skip_whitespace st = Ok tt st' -> line_ok T st') /\
  (forall t st', peek st = Ok t st' -> line_ok T st') /\
  (forall st', next st = Ok tt st' -> line_ok T st') /\
  (forall fuel ty s st', scan_until_type fuel ty st = Ok s st' -> line_ok T st') /\
  (forall fuel a b s st', scan_until_types fuel a b st = Ok s st' -> line_ok T st') /\
  (forall fuel s st', scan_until_char fuel LF st = Ok s st' -> line_ok T st').
Proof.
  intros Hok. split_all.
  - intros st' H. exact (skip_whitespace_loop_line_ok T _ st st' Hok H).
  - intros t st' H. pose proof (peek_lines T st Hok) as Hl. rewrite H in Hl. exact Hl.
  - intros st' H. pose proof (next_lines T st Hok) as Hl. rewrite H in Hl. exact Hl.
  - intros fuel ty s st' H.
    pose proof (scan_until_type_line_ok T fuel ty st Hok) as Hl. rewrite H in Hl. exact Hl.
  - intros fuel a b s st' H.
    pose proof (scan_until_types_line_ok T fuel a b st Hok) as Hl. rewrite H in Hl. exact Hl.
  - intros fuel s st' H.
    pose proof (scan_until_char_line_ok T fuel st Hok) as Hl. rewrite H in Hl. exact Hl.
Qed.

Lemma tokenizer_counts_lines_witness :
  let T := "{a = 1;" +:+ String LF (String LF "b = 2;}") in
  exists st', next (at_idx 6 (Tokenizer_new T)) = Ok tt st' /\
              next st' = Ok tt (mkTokenizer T 10 3).
Proof.
  intros T. set (st := at_idx 6 (Tokenizer_new T)).
  assert (Hok : line_ok T st)
    by (split; [reflexivity | split; [solve_in_text | reflexivity]]).
  destruct (next st) as [[] st' | | |] eqn:E; try (exfalso; vm_compute in E; discriminate E).
  pose proof (proj1 (proj2 (proj2 (tokenizer_counts_lines T st Hok))) st' E) as Hok'.
  exists st'. split; [reflexivity |].
  vm_compute in E. injection E as <-. vm_compute. reflexivity.
Defined.

(** * More on the parser *)

(** ** The token a statement starts with *)

Lemma tok_peek_again p st t p1 :
  tokenizer p = Some st -> in_text st -> tok peek p = Ok t p1 ->
  tok peek p1 = Ok t p1 /\
  exists st1, tokenizer p1 = Some st1 /\ in_text st1 /\ peek st = Ok t st1.
Proof.
  intros Hp Hin H. unfold tok in H. rewrite Hp in H.
  destruct (peek st) as [t' st1 | | |] eqn:E; try discriminate. injection H as <- <-.
  destruct (peek_state st t' st1 Hin E) as (Hin1 & _).
  split; [| exists st1; split; [reflexivity | split; [exact Hin1 | reflexivity]]].
  apply (tok_same peek (set_tokenizer (Some st1) p) st1 t' eq_refl
           (peek_again st t' st1 Hin E)).
Qed.

Lemma externcall_returns fuel p r p' :
  externcall fuel p = Ok r p' -> exists body, r = ExternCall body.
Proof.
  unfold externcall. intros H. inv_binds H.
  match goal with H : ret _ _ = Ok _ _ |- _ => injection H as <- _ end. eauto.
Qed.

Lemma ifstmt_returns fuel p r p' :
  ifstmt fuel p = Ok r p' -> exists c l, r = IfStatement c (Block l).
Proof.
  destruct fuel as [| fuel]; [discriminate |]. simpl. intros H. inv_binds H.
  match goal with H : ret _ _ = Ok _ _ |- _ => injection H as <- _ end.
  match goal with H : block _ _ = Ok _ _ |- _ =>
    destruct (block_returns_Block _ _ _ _ H) as (l & ->) end.
  eauto.
Qed.

Lemma assignment_returns fuel name p r p' :
  assignment fuel name p = Ok r p' -> exists v e, r = Assignment v e.
Proof.
  unfold assignment. intros H. inv_binds H.
  match goal with H : ret _ _ = Ok _ _ |- _ => injection H as <- _ end. eauto.
Qed.

Lemma funcall_returns fuel name p r p' :
  funcall fuel name p = Ok r p' -> exists args, r = FunctionCall name args.
Proof.
  unfold funcall. intros H. inv_binds H.
  match goal with H : ret _ _ = Ok _ _ |- _ => injection H as <- _ end. eauto.
Qed.

Lemma expect_ok t ty msg p a p' :
  expect t ty msg p = Ok a p' -> Token.type t = ty /\ tok next p = Ok a p'.
Proof.
  unfold expect, Token.isa. destruct (bool_decide_reflect (Token.type t = ty)) as [E | E].
  - intros H. split; [exact E | exact H].
  - simpl. intros H. apply bind_ok_inv in H. destruct H as (? & ? & _ & H). discriminate.
Qed.

Lemma otherstmt_returns fuel p st t p1 r p' :
  tokenizer p = Some st -> in_text st -> tok peek p = Ok t p1 ->
  otherstmt fuel p1 = Ok r p' ->
  Token.type t = Token.SymbolType /\
  ((exists v e, r = Assignment v e) \/
   (exists args, r = FunctionCall (Token.value t) args)).
Proof.
  intros Hp Hin Hpeek H.
  destruct (tok_peek_again p st t p1 Hp Hin Hpeek) as (Hagain & _).
  unfold otherstmt, symbol in H.
  apply bind_ok_inv in H. destruct H as (sym & p2 & Hsym & H).
  rewrite (bind_ok _ _ _ _ _ Hagain) in Hsym.
  apply bind_ok_inv in Hsym. destruct Hsym as ([] & p3 & Hexp & Hsym).
  injection Hsym as <- <-.
  destruct (expect_ok _ _ _ _ _ _ Hexp) as (Hty & _). split; [exact Hty |].
  apply bind_ok_inv in H. destruct H as (t2 & p4 & _ & H).
  apply bind_ok_inv in H. destruct H as (s & p5 & Hs & H).
  inv_binds H. match goal with H : ret _ _ = Ok _ _ |- _ => injection H as <- _ end.
  destruct (Token.type t2); try discriminate Hs.
  - right. apply (funcall_returns _ _ _ _ _ Hs).
  - left. apply (assignment_returns _ _ _ _ _ Hs).
Qed.

(** X8.  The token a statement starts with decides what the statement is:
    a block at an opening brace, an embedded command at [@], a conditional
    (whose body is a block) at [if], no node at all at [def], and
    otherwise the token is a symbol and the statement is an assignment or
    a call of the function the symbol names.  A statement is never a bare
    expression. *)
Theorem statement_forms fuel p st t p1 r p' :
  tokenizer p = Some st -> in_text st ->
  tok peek p = Ok t p1 -> stmt fuel p = Ok r p' ->
  (Token.type t = Token.LBraceType /\ exists l, r = Some (Block l)) \/
  (Token.type t = Token.AtType /\ exists body, r = Some (ExternCall body)) \/
  (Token.type t = Token.IfType /\ exists c l, r = Some (IfStatement c (Block l))) \/
  (Token.type t = Token.DefType /\ r = None) \/
  (Token.type t = Token.SymbolType /\
   ((exists v e, r = Some (Assignment v e)) \/
    (exists args, r = Some (FunctionCall (Token.value t) args)))).
Proof.
  intros Hp Hin Hpeek H. destruct fuel as [| fuel]; [discriminate |].
  simpl in H. rewrite (bind_ok _ _ _ _ _ Hpeek) in H.
  assert (Hother : forall q, bind (otherstmt fuel) (fun s => ret (Some s)) p1 = Ok r q ->
            Token.type t = Token.SymbolType /\
            ((exists v e, r = Some (Assignment v e)) \/
             (exists args, r = Some (FunctionCall (Token.value t) args)))).
  { intros q Hq. apply bind_ok_inv in Hq. destruct Hq as (s & p2 & Hs & Hq).
    injection Hq as <- _.
    destruct (otherstmt_returns fuel p st t p1 s p2 Hp Hin Hpeek Hs)
      as (Hty & [(v & e & ->) | (args & ->)]); split; eauto. }
  destruct (Token.type t) eqn:Ety;
    try (right; right; right; right; rewrite <- Ety in *; exact (Hother _ H)).
  - left. split; [reflexivity |].
    apply bind_ok_inv in H. destruct H as (b & p2 & Hb & H). injection H as <- _.
    destruct (block_returns_Block _ _ _ _ Hb) as (l & ->). eauto.
  - right. left. split; [reflexivity |].
    apply bind_ok_inv in H. destruct H as (b & p2 & Hb & H). injection H as <- _.
    destruct (externcall_returns _ _ _ _ Hb) as (body & ->). eauto.
  - right. right. left. split; [reflexivity |].
    apply bind_ok_inv in H. destruct H as (b & p2 & Hb & H). injection H as <- _.
    destruct (ifstmt_returns _ _ _ _ Hb) as (c & l & ->). eauto.
  - right. right. right. left. split; [reflexivity |].
    inv_binds H. match goal with H : ret _ _ = Ok _ _ |- _ => injection H as <- _ end.
    reflexivity.
Qed.

Lemma statement_forms_witness :
  let p := mkParser (Some (at_idx 1 (Tokenizer_new "{f(1, x);}")))
             [O] [SymbolTable.new] [Module_new] 0 in
  exists args p', stmt 20 p = Ok (Some (FunctionCall "f" args)) p'.
Proof.
  intros p.
  destruct (stmt 20 p) as [r p' | | |] eqn:E; try (exfalso; vm_compute in E; discriminate E).
  destruct (statement_forms 20 p _ (Token.Symbol "f") p r p' eq_refl ltac:(solve_in_text)
              eq_refl E)
    as [[Hty _] | [[Hty _] | [[Hty _] | [[Hty _] | [_ [(v & e & ->) | (args & ->)]]]]]];
    try discriminate Hty.
  - exfalso. vm_compute in E. discriminate E.
  - exists args, p'. reflexivity.
Defined.

(** ** The arguments of a call *)





(** ** Tokens that start nothing *)

(** X10.  A statement starts with an opening brace, [@], [if], [def] or a
    symbol.  At any other token (a closing brace, a semicolon, a number,
    an operator, the end of the text) [stmt] ends the parse with the error
    of [symbol()], which names the token's first character and its line.
    So does the statement loop of a block, which parses a statement before
    it looks for the closing brace: a block with nothing between its braces
    is rejected, and so is an empty statement. *)
Theorem stmt_needs_a_statement_token fuel p st t p1 st1 :
  tokenizer p = Some st -> in_text st ->
  tok peek p = Ok t p1 -> tokenizer p1 = Some st1 ->
  Token.type t <> Token.LBraceType -> Token.type t <> Token.AtType ->
  Token.type t <> Token.IfType -> Token.type t <> Token.DefType ->
  Token.type t <> Token.SymbolType ->
  let msg := "Parsing error: Expected symbol. near character '"
             +:+ String (head_char (rest st1)) ("', line " +:+ decimal (lineno st1)) in
  stmt (S fuel) p = Abort msg /\
  (Token.type t <> Token.SharpType ->
   forall l, block_loop (S (S fuel)) l p = Abort msg).
Proof.
  intros Hp Hin Hpeek Hp1 H1 H2 H3 H4 H5 msg.
  destruct (tok_peek_again p st t p1 Hp Hin Hpeek) as (Hagain & st1' & Hp1' & Hin1 & _).
  assert (st1' = st1) as -> by congruence.
  assert (Hother : otherstmt fuel p1 = Abort msg).
  { unfold otherstmt, symbol.
    apply bind_abort. rewrite (bind_ok _ _ _ _ _ Hagain). apply bind_abort.
    rewrite (expect_fails t Token.SymbolType _ p1 st1 Hp1 (in_text_idx st1 Hin1));
      [reflexivity |].
    unfold Token.isa. apply bool_decide_eq_false. exact H5. }
  assert (Hstmt : stmt (S fuel) p = Abort msg).
  { simpl. rewrite (bind_ok _ _ _ _ _ Hpeek).
    destruct (Token.type t); try congruence; apply bind_abort, Hother. }
  split; [exact Hstmt |].
  intros H6 l. cbn [block_loop]. rewrite (bind_ok _ _ _ _ _ Hpeek).
  assert (Token.isa t Token.SharpType = false) as ->
    by (unfold Token.isa; apply bool_decide_eq_false; exact H6).
  rewrite (bind_ok (ret tt) _ p1 tt p1 eq_refl).
  apply bind_abort. simpl. rewrite (bind_ok _ _ _ _ _ Hagain).
  destruct (Token.type t); try congruence; apply bind_abort, Hother.
Qed.

Lemma stmt_needs_a_statement_token_witness :
  let T := "{if (x == 1) { }}" in
  let p := mkParser (Some (at_idx 14 (Tokenizer_new T)))
             [O] [SymbolTable.new; SymbolTable.new] [Module_new] 0 in
  block_loop 9 [] p = Abort "Parsing error: Expected symbol. near character '}', line 1".
Proof.
  intros T p.
  exact (proj2 (stmt_needs_a_statement_token 7 p (at_idx 14 (Tokenizer_new T)) Token.RBrace
                  (set_tokenizer (Some (at_idx 15 (Tokenizer_new T))) p)
                  (at_idx 15 (Tokenizer_new T))
                  eq_refl ltac:(solve_in_text) eq_refl eq_refl
                  ltac:(discriminate) ltac:(discriminate) ltac:(discriminate)
                  ltac:(discriminate) ltac:(discriminate))
           ltac:(discriminate) []).
Defined.

(** X11.  An operand starts with a symbol, a number, a quote, a minus
    sign or an opening parenthesis.  At any other token [atom] ends the
    parse with its own error, which names no place: a reserved word, a
    closing parenthesis, a semicolon or the end of the text where an
    operand is due, and a second minus sign after a unary minus. *)
Theorem atom_needs_an_operand_token fuel p st t p1 :
  tokenizer p = Some st -> in_text st -> tok peek p = Ok t p1 ->
  Token.type t <> Token.SymbolType -> Token.type t <> Token.IntType ->
  Token.type t <> Token.FractionalType -> Token.type t <> Token.QuoteType ->
  atom fuel p = Abort "Invalid token type for atom." /\
  (Token.type t <> Token.LParenType ->
   factor (S fuel) p = Abort "Invalid token type for atom." /\
   (Token.type t = Token.MinusType ->
    forall q, tok next q = Ok tt p ->
              tok peek q = Ok t q ->
              unary (S (S fuel)) q = Abort "Invalid token type for atom.")).
Proof.
  intros Hp Hin Hpeek H1 H2 H3 H4.
  destruct (tok_peek_again p st t p1 Hp Hin Hpeek) as (Hagain & st1 & Hp1 & Hin1 & _).
  destruct (next_in_text st1 Hin1) as (st2 & Hnext & _).
  assert (Hatom : atom fuel p = Abort "Invalid token type for atom.").
  { unfold atom. rewrite (bind_ok _ _ _ _ _ Hpeek).
    rewrite (bind_ok _ _ _ _ _ (tok_ok next p1 st1 tt st2 Hp1 Hnext)).
    destruct (Token.type t); try congruence; reflexivity. }
  split; [exact Hatom |]. intros H5.
  assert (Hfactor : factor (S fuel) p = Abort "Invalid token type for atom.").
  { cbn [factor]. rewrite (bind_ok _ _ _ _ _ Hpeek).
    assert (Token.isa t Token.LParenType = false) as ->
      by (unfold Token.isa; apply bool_decide_eq_false; exact H5).
    unfold atom. rewrite (bind_ok _ _ _ _ _ Hagain).
    rewrite (bind_ok _ _ _ _ _ (tok_ok next p1 st1 tt st2 Hp1 Hnext)).
    destruct (Token.type t); try congruence; reflexivity. }
  split; [exact Hfactor |]. intros Hminus q Hq Hqpeek.
  cbn [unary]. rewrite (bind_ok _ _ _ _ _ Hqpeek).
  unfold is_unop_token, Token.isa. rewrite Hminus.
  rewrite bool_decide_eq_true_2 by reflexivity.
  rewrite (bind_ok _ _ _ _ _ Hq).
  unfold get_unaryop_operator. rewrite Hminus.
  rewrite (bind_ok (ret UnaryOp.Negate) _ p UnaryOp.Negate p eq_refl).
  apply bind_abort, Hfactor.
Qed.

Lemma atom_needs_an_operand_token_witness :
  let T := "{a = --1;}" in
  let q := mkParser (Some (at_idx 5 (Tokenizer_new T))) [O] [SymbolTable.new] [Module_new] 1 in
  unary 5 q = Abort "Invalid token type for atom.".
Proof.
  intros T q.
  set (p := set_tokenizer (Some (at_idx 6 (Tokenizer_new T))) q).
  exact (proj2 (proj2 (atom_needs_an_operand_token 3 p (at_idx 6 (Tokenizer_new T))
                         Token.Minus p eq_refl ltac:(solve_in_text) eq_refl
                         ltac:(discriminate) ltac:(discriminate)
                         ltac:(discriminate) ltac:(discriminate))
                  ltac:(discriminate))
           eq_refl q eq_refl eq_refl).
Defined.

(** ** The type of an assignment *)

Lemma get_primitive_type_literal e :
  get_primitive_type e <> UndefinedTy <-> is_literal e = true.
Proof. destruct e; simpl; split; intros H; congruence. Qed.

(** X12.  An assignment checks the [=], resolves its name, parses the
    right-hand side, and gives [Assignment(v, e)] where [v] is the variable
    the name resolves to, before the expression and afterwards.  When the
    right-hand side is a literal, the name is bound (again) in the
    innermost scope, to the same variable and with the type of the
    literal, and nothing else changes.  When it is anything else (a
    variable, an operation, a comparison) no type is recorded: the parser
    is left exactly as the expression left it. *)
Theorem assignment_records_the_type fuel name p r p' :
  assignment fuel name p = Ok r p' ->
  exists t p0 p1 p2 p3 v e,
    tok peek p = Ok t p0 /\
    expect t Token.EqualsType "Expected assignment operator" p0 = Ok tt p1 /\
    lookup_or_new_var name p1 = Ok v p2 /\
    expr fuel p2 = Ok e p3 /\
    r = Assignment v e /\
    first_match name (symbol_table_stack p2) = Some (Variable_ v) /\
    first_match name (symbol_table_stack p') = Some (Variable_ v) /\
    (is_literal e = true ->
     exists frame outer,
       symbol_table_stack p3 = frame :: outer /\
       p' = set_symbol_table_stack
              (SymbolTable.insert name (Variable_ v) (get_primitive_type e) frame :: outer)
              p3 /\
       SymbolTable.lookup name
         (SymbolTable.insert name (Variable_ v) (get_primitive_type e) frame) =
         Some (mkEntry (Variable_ v) (get_primitive_type e))) /\
    (is_literal e = false -> p' = p3).
Proof.
  unfold assignment. intros H.
  apply bind_ok_inv in H. destruct H as (t & p0 & Hpeek & H).
  apply bind_ok_inv in H. destruct H as ([] & p1 & Hexp & H).
  apply bind_ok_inv in H. destruct H as (v & p2 & Hv & H).
  apply bind_ok_inv in H. destruct H as (e & p3 & He & H).
  apply bind_ok_inv in H. destruct H as ([] & p4 & Hins & H).
  injection H as <- <-. exists t, p0, p1, p2, p3, v, e.
  split; [exact Hpeek |]. split; [exact Hexp |]. split; [exact Hv |].
  split; [exact He |]. split; [reflexivity |].
  destruct (lookup_or_new_var_spec name p1 v p2 Hv) as [Hbound _].
  split; [exact Hbound |].
  pose proof (proj2 (expr_extends fuel p2 e p3 He) name _ Hbound) as Hbound3.
  destruct (bool_decide_reflect (get_primitive_type e <> UndefinedTy)) as [Hty | Hty].
  - unfold insert_top in Hins.
    destruct (symbol_table_stack p3) as [| frame outer] eqn:Hs; [discriminate |].
    injection Hins as <-. simpl. split; [| split].
    + unfold SymbolTable.insert. rewrite lookup_insert_eq. reflexivity.
    + intros _. exists frame, outer. split; [reflexivity |]. split; [reflexivity |].
      unfold SymbolTable.lookup, SymbolTable.insert. apply lookup_insert_eq.
    + intros Hl. apply get_primitive_type_literal in Hty. congruence.
  - injection Hins as <-. split; [exact Hbound3 |]. split.
    + intros Hl. apply get_primitive_type_literal in Hl. contradiction.
    + intros _. reflexivity.
Qed.

Lemma assignment_records_the_type_witness :
  let p := mkParser (Some (at_idx 2 (Tokenizer_new ("{s = " +:+ String DQUOTE ("hi" +:+ String DQUOTE ";}")))))
             [O] [SymbolTable.new] [Module_new] 0 in
  exists p' frame outer,
    assignment 20 "s" p = Ok (Assignment (mkVariable 0 "s") (String_ "hi")) p' /\
    symbol_table_stack p' = frame :: outer /\
    SymbolTable.lookup "s" frame = Some (mkEntry (Variable_ (mkVariable 0 "s")) StringTy).
Proof.
  intros p.
  destruct (assignment 20 "s" p) as [r p' | | |] eqn:E;
    try (exfalso; vm_compute in E; discriminate E).
  destruct (assignment_records_the_type 20 "s" p r p' E)
    as (t & p0 & p1 & p2 & p3 & v & e & _ & _ & _ & _ & -> & _ & _ & Hlit & _).
  assert (Hr : v = mkVariable 0 "s" /\ e = String_ "hi")
    by (vm_compute in E; injection E as <- <- _; split; reflexivity).
  destruct Hr as [-> ->].
  destruct (Hlit eq_refl) as (frame & outer & _ & -> & Hl).
  eexists _, _, outer. split; [reflexivity |]. split; [reflexivity | exact Hl].
Defined.

(** * What a parse can end in *)

(** ** The tokenizer *)

Lemma peek_safe T : tokenizer_safe T peek.
Proof.
  intros st Ht Hin. destruct (peek_in_text st Hin) as (t & st' & -> & Hin' & Ht').
  split; [congruence | exact Hin'].
Qed.

Lemma next_safe T : tokenizer_safe T next.
Proof.
  intros st Ht Hin. destruct (next_in_text st Hin) as (st' & -> & Hin' & Ht').
  split; [congruence | exact Hin'].
Qed.

Lemma position_safe T : tokenizer_safe T position.
Proof.
  intros st Ht Hin. rewrite (position_spec st (in_text_idx st Hin)).
  split; assumption.
Qed.

Lemma scan_until_type_safe T fuel ty : tokenizer_safe T (scan_until_type fuel ty).
Proof.
  intros st Ht Hin.
  destruct (scan_until_type_in_text fuel ty st Hin) as [-> | (s & st' & -> & Hin' & Ht')];
    [exact I | split; [congruence | exact Hin']].
Qed.

Lemma scan_until_types_safe T fuel a b : tokenizer_safe T (scan_until_types fuel a b).
Proof.
  intros st Ht Hin.
  destruct (scan_until_types_in_text fuel a b st Hin) as [-> | (s & st' & -> & Hin' & Ht')];
    [exact I | split; [congruence | exact Hin']].
Qed.

(** The scan for the newline that ends a comment: it returns inside the
    text, or is still under way, or reads the character after the
    terminator, and this when no newline is left in the text. *)
Lemma scan_until_char_outcome fuel st :
  in_text st ->
  match scan_until_char fuel LF st with
  | Ok _ st' => text st' = text st /\ in_text st'
  | Abort _ => False
  | Fault f => f = OutOfBounds (text_length st + 1) /\ occurs LF (rest st) = false
  | OutOfFuel => True
  end.
Proof.
  intros Hin. destruct (occurs LF (rest st)) eqn:Hocc.
  - set (big := (fuel + String.length (rest st) + 1)%nat).
    pose proof (scan_until_char_found big LF st Hin Hocc ltac:(lia)) as Hbig.
    destruct (scan_until_char_mono fuel big LF ltac:(lia) st) as [-> | ->]; [exact I |].
    rewrite Hbig. split; [reflexivity |].
    apply in_text_advance; [exact Hin | apply span_length].
  - destruct (scan_until_char_never_returns fuel LF st Hin ltac:(discriminate) Hocc)
      as [-> | ->]; [exact I | split; reflexivity].
Qed.

(** A token [#] is the character [#]. *)
Lemma lex_Sharp r : Token.type (fst (lex r)) = Token.SharpType -> head_char r = "#"%char.
Proof.
  destruct r as [| c s]; [discriminate |]. unfold lex. cbn [head_char].
  destruct (Ascii.eqb_spec c "#") as [-> | Hne]; [reflexivity |].
  intros H. exfalso.
  repeat match type of H with
  | context [if Ascii.eqb c ?d then _ else _] =>
      lazymatch d with
      | "="%char => fail
      | _ => destruct (Ascii.eqb c d); [discriminate H |]
      end
  end.
  destruct (Ascii.eqb c "=").
  { destruct (Ascii.eqb (head_char s) "="); discriminate H. }
  repeat match type of H with
  | context [if Ascii.eqb c ?d then _ else _] =>
      destruct (Ascii.eqb c d); [discriminate H |]
  end.
  destruct (is_digit c).
  - unfold lex_number in H. destruct (Ascii.eqb _ "."); discriminate H.
  - unfold lex_symbol, get_multichar_token in H. cbn [fst] in H.
    destruct (String.eqb _ _); [discriminate H |].
    destruct (String.eqb _ _); discriminate H.
Qed.

Lemma peek_Sharp st t st' :
  in_text st -> peek st = Ok t st' -> Token.type t = Token.SharpType ->
  head_char (rest st') = "#"%char.
Proof.
  intros Hin H Hty. destruct (peek_lex st Hin) as (l & Hl). rewrite Hl in H.
  injection H as <- <-. apply lex_Sharp, Hty.
Qed.

(** ** The steps of the parser *)

Lemma safe_ret {A} T P (a : A) : safe T P P (ret a).
Proof. intros p Hp. exact Hp. Qed.

Lemma safe_out_of_fuel {A} T P Q : safe T P Q (@out_of_fuel Parser A).
Proof. intros p Hp. exact I. Qed.

Lemma safe_abort {A} T P Q msg : parse_error msg -> safe T P Q (@abort A msg).
Proof. intros H p Hp. exact H. Qed.

Lemma safe_bind {A B} T P Q R (c : M Parser A) (k : A -> M Parser B) :
  safe T P Q c -> (forall a, safe T Q R (k a)) -> safe T P R (bind c k).
Proof.
  intros Hc Hk p Hp. specialize (Hc p Hp). unfold bind.
  destruct (c p) as [a p' | msg | f |]; try exact Hc. apply Hk, Hc.
Qed.

Lemma scoped_set_tokenizer T ms n k p st' :
  scoped T ms n k p -> text st' = T -> in_text st' ->
  scoped T ms n k (set_tokenizer (Some st') p).
Proof.
  intros (_ & H) Ht Hin. split; [exists st'; split; [reflexivity | split; assumption] |].
  exact H.
Qed.

Lemma safe_tok {A} T ms n k (c : M Tokenizer A) :
  tokenizer_safe T c -> safe T (scoped T ms n k) (scoped T ms n k) (tok c).
Proof.
  intros Hc p Hp. pose proof Hp as ((st & Hst & Ht & Hin) & _).
  specialize (Hc st Ht Hin). unfold tok. rewrite Hst.
  destruct (c st) as [a st' | msg | f |]; try exact I; try destruct Hc.
  apply scoped_set_tokenizer; assumption.
Qed.

Lemma safe_expect T ms n k t ty msg :
  safe T (scoped T ms n k) (scoped T ms n k) (expect t ty msg).
Proof.
  destruct (Token.isa t ty) eqn:E.
  - intros p Hp. rewrite (expect_passes t ty msg p E).
    exact (safe_tok T ms n k next (next_safe T) p Hp).
  - intros p Hp. pose proof Hp as ((st & Hst & Ht & Hin) & _).
    rewrite (expect_fails t ty msg p st Hst (in_text_idx st Hin) E).
    right. right. eexists _, _. reflexivity.
Qed.

(** The scopes *)

Lemma entries_are_variables_new : entries_are_variables SymbolTable.new.
Proof. intros name e H. unfold SymbolTable.lookup, SymbolTable.new in H. rewrite lookup_empty in H. discriminate. Qed.

Lemma entries_are_variables_insert name v ty s :
  entries_are_variables s ->
  entries_are_variables (SymbolTable.insert name (Variable_ v) ty s).
Proof.
  intros Hs name' e H. unfold SymbolTable.lookup, SymbolTable.insert in H.
  destruct (decide (name = name')) as [<- | Hne].
  - rewrite lookup_insert_eq in H. injection H as <-. eauto.
  - rewrite lookup_insert_ne in H by exact Hne. apply (Hs name' e H).
Qed.

Lemma first_match_variable name stack n :
  Forall entries_are_variables stack ->
  first_match name stack = Some n -> exists v, n = Variable_ v.
Proof.
  induction 1 as [| frame outer Hf _ IH]; simpl; [discriminate |].
  destruct (frame !! name) as [e |] eqn:E; [| exact IH].
  intros H. injection H as <-. apply (Hf name e E).
Qed.

Lemma safe_push_symbol_table T ms n k :
  safe T (scoped T ms n k) (scoped T ms n (S k)) (push_symbol_table SymbolTable.new).
Proof.
  intros p (Htok & Hvars & Hlen & Hmod). split; [exact Htok |].
  split; [constructor; [apply entries_are_variables_new | exact Hvars] |].
  split; [simpl; rewrite Hlen; reflexivity | exact Hmod].
Qed.

Lemma safe_pop_symbol_table T ms n k :
  safe T (scoped T ms n (S k)) (scoped T ms n k) pop_symbol_table.
Proof.
  intros p (Htok & Hvars & Hlen & Hmod). unfold pop_symbol_table.
  destruct (symbol_table_stack p) as [| frame outer] eqn:E; [discriminate |].
  split; [exact Htok |]. split; [apply Forall_cons in Hvars; apply Hvars |].
  split; [simpl in *; lia | exact Hmod].
Qed.

Lemma safe_insert_top T ms n k name v ty :
  safe T (scoped T ms n (S k)) (scoped T ms n (S k)) (insert_top name (Variable_ v) ty).
Proof.
  intros p (Htok & Hvars & Hlen & Hmod). unfold insert_top.
  destruct (symbol_table_stack p) as [| frame outer] eqn:E; [discriminate |].
  apply Forall_cons in Hvars. destruct Hvars as [Hf Ho].
  split; [exact Htok |].
  split; [constructor; [apply entries_are_variables_insert, Hf | exact Ho] |].
  split; [exact Hlen | exact Hmod].
Qed.

Lemma safe_new_Variable T ms n k name :
  safe T (scoped T ms n k) (scoped T ms n k) (new_Variable name).
Proof. intros p Hp. exact Hp. Qed.

(** [assert(v)] holds: the scopes bind names to variables only. *)
Lemma safe_lookup_or_new_var T ms n k name :
  safe T (scoped T ms n (S k)) (scoped T ms n (S k)) (lookup_or_new_var name).
Proof.
  intros p Hp. unfold lookup_or_new_var.
  rewrite (bind_ok _ _ _ _ _ (lookup_spec name p)).
  destruct (first_match name (symbol_table_stack p)) as [node |] eqn:E.
  - destruct (first_match_variable name _ node (proj1 (proj2 Hp)) E) as (v & ->).
    exact Hp.
  - revert p Hp E. intros p Hp _.
    refine (safe_bind T _ _ _ (new_Variable name) _ (safe_new_Variable T ms n (S k) name) _ p Hp).
    intros v. eapply safe_bind; [apply safe_insert_top |]. intros _. apply safe_ret.
Qed.

(** The operators: the checks before the calls leave the error branches
    of [get_binop_operator] and [get_unaryop_operator] out of reach. *)
Lemma safe_get_binop_operator T P t :
  is_binop_token t = true -> safe T P P (get_binop_operator t).
Proof.
  unfold is_binop_token, get_binop_operator, Token.isa. intros H p Hp.
  destruct (Token.type t); try exact Hp; discriminate H.
Qed.

Lemma safe_get_unaryop_operator T P t :
  is_unop_token t = true -> safe T P P (get_unaryop_operator t).
Proof.
  unfold is_unop_token, get_unaryop_operator, Token.isa. intros H p Hp.
  destruct (Token.type t); try exact Hp; discriminate H.
Qed.

Lemma additive_is_binop t :
  Token.isa t Token.PlusType || Token.isa t Token.MinusType = true -> is_binop_token t = true.
Proof. unfold is_binop_token. intros ->. reflexivity. Qed.

Lemma multiplicative_is_binop t :
  Token.isa t Token.StarType || Token.isa t Token.SlashType = true -> is_binop_token t = true.
Proof.
  unfold is_binop_token. intros H. apply orb_prop in H.
  destruct H as [-> | ->]; rewrite ?orb_true_r; reflexivity.
Qed.

(** The module *)

Lemma safe_hoist T m ms n k f :
  safe T (scoped T (m :: ms) n k) (scoped T (m :: ms) n k)
    (m' <- module_stack_top ;; update_module m' (add_function f) ;;; ret (@None IRNode)).
Proof.
  intros p Hp. pose proof Hp as (Htok & Hvars & Hlen & Hms & Hn & Hm).
  unfold bind, module_stack_top, update_module. rewrite Hms.
  destruct (modules p !! m) as [x |] eqn:E.
  - split; [exact Htok |]. split; [exact Hvars |]. split; [exact Hlen |].
    split; [exact Hms |]. split; [| exact Hm]. simpl. rewrite length_insert. exact Hn.
  - apply lookup_ge_None in E. apply Forall_cons in Hm. lia.
Qed.

(** The comment *)

Lemma drop_get n s c r : string_drop n s = String c r -> String.get n s = Some c.
Proof.
  revert s. induction n as [| n IH]; intros s H.
  - simpl in H. subst s. reflexivity.
  - destruct s as [| d s]; [discriminate H |]. simpl in *. apply IH, H.
Qed.

Lemma safe_comment_skip {B} T ms n k fuel (c : M Parser B) :
  safe T (scoped T ms n k) (scoped T ms n k) c ->
  safe T (scoped T ms n k) (scoped T ms n k)
    (t <- tok peek ;;
     (if Token.isa t Token.SharpType
      then tok (scan_until_char fuel LF) ;;; ret tt
      else ret tt) ;;;
     c).
Proof.
  intros Hc p Hp. pose proof Hp as ((st & Hst & Ht & Hin) & _).
  destruct (peek_in_text st Hin) as (t & st1 & Hpeek & Hin1 & Ht1).
  rewrite (bind_ok _ _ _ _ _ (tok_ok peek p st t st1 Hst Hpeek)).
  assert (Hp1 : scoped T ms n k (set_tokenizer (Some st1) p))
    by (apply scoped_set_tokenizer; [exact Hp | congruence | exact Hin1]).
  destruct (Token.isa t Token.SharpType) eqn:Esharp.
  - unfold bind at 1. unfold bind at 1. unfold tok at 1. cbn [tokenizer set_tokenizer].
    pose proof (scan_until_char_outcome fuel st1 Hin1) as Hscan.
    destruct (scan_until_char fuel LF st1) as [s st2 | msg | f |];
      [| destruct Hscan | | exact I].
    + cbn [ret]. apply Hc. destruct Hscan as [Ht2 Hin2].
      apply (scoped_set_tokenizer T ms n k _ st2 Hp1); [congruence | exact Hin2].
    + destruct Hscan as [-> Hocc]. split.
      * unfold text_length. rewrite Ht1, Ht. reflexivity.
      * exists (N.to_nat (idx st1)).
        unfold Token.isa in Esharp. apply bool_decide_eq_true in Esharp.
        pose proof (peek_Sharp st t st1 Hin Hpeek Esharp) as Hhead.
        destruct (head_char_not_NUL _ _ Hhead ltac:(discriminate)) as (r & Hr).
        unfold rest in Hr, Hocc. rewrite Ht1, Ht in Hr, Hocc.
        split; [apply (drop_get _ _ _ _ Hr) | exact Hocc].
  - rewrite (bind_ok (ret tt) _ _ tt _ eq_refl). apply Hc, Hp1.
Qed.

Ltac safe_step :=
  lazymatch goal with
  | |- safe _ _ _ (bind (tok peek) (fun t => bind (if Token.isa t Token.SharpType then _ else _) _)) =>
      apply safe_comment_skip
  | |- safe _ _ _ (bind module_stack_top _) => apply safe_hoist
  | |- safe _ _ _ (bind _ _) => eapply safe_bind; [| intros ?]
  | |- safe _ _ _ (ret _) => apply safe_ret
  | |- safe _ _ _ out_of_fuel => apply safe_out_of_fuel
  | |- safe _ _ _ (abort _) =>
      apply safe_abort; first [left; reflexivity | right; left; reflexivity]
  | |- safe _ _ _ (tok peek) => apply safe_tok, peek_safe
  | |- safe _ _ _ (tok next) => apply safe_tok, next_safe
  | |- safe _ _ _ (tok (scan_until_type _ _)) => apply safe_tok, scan_until_type_safe
  | |- safe _ _ _ (tok (scan_until_types _ _ _)) => apply safe_tok, scan_until_types_safe
  | |- safe _ _ _ (expect _ _ _) => apply safe_expect
  | |- safe _ _ _ (lookup_or_new_var _) => apply safe_lookup_or_new_var
  | |- safe _ _ _ (get_binop_operator _) =>
      apply safe_get_binop_operator;
      first [apply additive_is_binop; assumption | apply multiplicative_is_binop; assumption]
  | |- safe _ _ _ (get_unaryop_operator _) => apply safe_get_unaryop_operator; assumption
  | |- safe _ _ _ symbol => unfold symbol
  | |- safe _ _ _ var => unfold var
  | |- safe _ _ _ arg => unfold arg
  | |- safe _ _ _ (push_symbol_table _) => apply safe_push_symbol_table
  | |- safe _ _ _ pop_symbol_table => apply safe_pop_symbol_table
  | |- safe _ _ _ (insert_top _ _ _) => apply safe_insert_top
  | |- safe _ _ _ (new_Variable _) => apply safe_new_Variable
  | |- safe _ _ _ (if ?b then _ else _) => destruct b eqn:?
  | |- safe _ _ _ (match ?x with _ => _ end) => destruct x eqn:?
  end.

Lemma atom_safe T ms n k fuel :
  safe T (scoped T ms n (S k)) (scoped T ms n (S k)) (atom fuel).
Proof. unfold atom. repeat safe_step. Qed.

Lemma expr_group_safe T ms n k fuel :
  safe T (scoped T ms n (S k)) (scoped T ms n (S k)) (expr fuel) /\
  safe T (scoped T ms n (S k)) (scoped T ms n (S k)) (arith fuel) /\
  (forall a t, safe T (scoped T ms n (S k)) (scoped T ms n (S k)) (arith_loop fuel a t)) /\
  safe T (scoped T ms n (S k)) (scoped T ms n (S k)) (term fuel) /\
  (forall a t, safe T (scoped T ms n (S k)) (scoped T ms n (S k)) (term_loop fuel a t)) /\
  safe T (scoped T ms n (S k)) (scoped T ms n (S k)) (unary fuel) /\
  safe T (scoped T ms n (S k)) (scoped T ms n (S k)) (factor fuel).
Proof.
  induction fuel as [| fuel IH].
  { split_all; intros; apply safe_out_of_fuel. }
  destruct IH as (He & Ha & Hal & Ht & Htl & Hu & Hf).
  split_all; intros; simpl;
    repeat first [ eassumption | solve [eauto] | apply atom_safe | safe_step ].
Qed.

Lemma expr_safe T ms n k fuel :
  safe T (scoped T ms n (S k)) (scoped T ms n (S k)) (expr fuel).
Proof. apply expr_group_safe. Qed.

Ltac safe_walk known := repeat first [ eassumption | known | safe_step ].

Lemma funcall_loop_safe T ms n k fuel args :
  safe T (scoped T ms n (S k)) (scoped T ms n (S k)) (funcall_loop fuel args).
Proof.
  revert args. induction fuel as [| fuel IH]; intros args; simpl;
    safe_walk ltac:(idtac; lazymatch goal with
                    | |- safe _ _ _ (funcall_loop _ _) => apply IH
                    | |- safe _ _ _ (atom _) => apply atom_safe
                    end).
Qed.

Lemma funcall_safe T ms n k fuel name :
  safe T (scoped T ms n (S k)) (scoped T ms n (S k)) (funcall fuel name).
Proof.
  unfold funcall.
  safe_walk ltac:(idtac; lazymatch goal with
                  | |- safe _ _ _ (funcall_loop _ _) => apply funcall_loop_safe
                  | |- safe _ _ _ (atom _) => apply atom_safe
                  end).
Qed.

Lemma assignment_safe T ms n k fuel name :
  safe T (scoped T ms n (S k)) (scoped T ms n (S k)) (assignment fuel name).
Proof.
  unfold assignment.
  safe_walk ltac:(idtac; lazymatch goal with
                  | |- safe _ _ _ (expr _) => apply expr_safe
                  end).
Qed.

Lemma otherstmt_safe T ms n k fuel :
  safe T (scoped T ms n (S k)) (scoped T ms n (S k)) (otherstmt fuel).
Proof.
  unfold otherstmt.
  safe_walk ltac:(idtac; lazymatch goal with
                  | |- safe _ _ _ (assignment _ _) => apply assignment_safe
                  | |- safe _ _ _ (funcall _ _) => apply funcall_safe
                  end).
Qed.

Lemma externcall_loop_safe T ms n k fuel body :
  safe T (scoped T ms n (S k)) (scoped T ms n (S k)) (externcall_loop fuel body).
Proof.
  revert body. induction fuel as [| fuel IH]; intros body; simpl;
    safe_walk ltac:(idtac; lazymatch goal with
                    | |- safe _ _ _ (externcall_loop _ _) => apply IH
                    end).
Qed.

Lemma externcall_safe T ms n k fuel :
  safe T (scoped T ms n (S k)) (scoped T ms n (S k)) (externcall fuel).
Proof.
  unfold externcall.
  safe_walk ltac:(idtac; lazymatch goal with
                  | |- safe _ _ _ (externcall_loop _ _) => apply externcall_loop_safe
                  end).
Qed.

Lemma functiondef_loop_safe T ms n k fuel args :
  safe T (scoped T ms n (S k)) (scoped T ms n (S k)) (functiondef_loop fuel args).
Proof.
  revert args. induction fuel as [| fuel IH]; intros args; simpl;
    safe_walk ltac:(idtac; lazymatch goal with
                    | |- safe _ _ _ (functiondef_loop _ _) => apply IH
                    end).
Qed.

Lemma block_group_safe T m ms n fuel :
  (forall k, safe T (scoped T (m :: ms) n k) (scoped T (m :: ms) n k) (block fuel)) /\
  (forall k l, safe T (scoped T (m :: ms) n (S k)) (scoped T (m :: ms) n (S k)) (block_loop fuel l)) /\
  (forall k, safe T (scoped T (m :: ms) n (S k)) (scoped T (m :: ms) n (S k)) (stmt fuel)) /\
  (forall k, safe T (scoped T (m :: ms) n (S k)) (scoped T (m :: ms) n (S k)) (ifstmt fuel)) /\
  (forall k, safe T (scoped T (m :: ms) n k) (scoped T (m :: ms) n k) (functiondef fuel)).
Proof.
  induction fuel as [| fuel IH].
  { split_all; intros; apply safe_out_of_fuel. }
  destruct IH as (Hb & Hbl & Hs & Hi & Hf).
  split_all; intros; simpl;
    safe_walk ltac:(idtac; lazymatch goal with
                    | |- safe _ _ _ (block _) => apply Hb
                    | |- safe _ _ _ (block_loop _ _) => apply Hbl
                    | |- safe _ _ _ (stmt _) => apply Hs
                    | |- safe _ _ _ (ifstmt _) => apply Hi
                    | |- safe _ _ _ (functiondef _) => apply Hf
                    | |- safe _ _ _ (expr _) => apply expr_safe
                    | |- safe _ _ _ (externcall _) => apply externcall_safe
                    | |- safe _ _ _ (otherstmt _) => apply otherstmt_safe
                    | |- safe _ _ _ (functiondef_loop _ _) => apply functiondef_loop_safe
                    end).
Qed.

(** ** The module and the parse *)

Lemma safe_update_main T m ms n k f :
  safe T (scoped T (m :: ms) n k) (scoped T (m :: ms) n k) (update_module m (set_main f)).
Proof.
  intros p Hp. pose proof Hp as (Htok & Hvars & Hlen & Hms & Hn & Hm).
  unfold update_module. destruct (modules p !! m) as [x |] eqn:E.
  - split; [exact Htok |]. split; [exact Hvars |]. split; [exact Hlen |].
    split; [exact Hms |]. split; [| exact Hm]. simpl. rewrite length_insert. exact Hn.
  - apply lookup_ge_None in E. apply Forall_cons in Hm. lia.
Qed.

Lemma safe_pop_module T m ms n k :
  safe T (scoped T (m :: ms) n k) (scoped T ms n k) pop_module.
Proof.
  intros p (Htok & Hvars & Hlen & Hms & Hn & Hm). unfold pop_module. rewrite Hms.
  split; [exact Htok |]. split; [exact Hvars |]. split; [exact Hlen |].
  split; [reflexivity |]. split; [exact Hn |]. apply Forall_cons in Hm. apply Hm.
Qed.

Lemma module_safe T ms n k fuel :
  safe T (scoped T ms n k) (scoped T ms (S n) k) (module fuel).
Proof.
  intros p Hp. pose proof Hp as (Htok & Hvars & Hlen & Hms & Hn & Hm).
  unfold module.
  rewrite (bind_ok new_Module _ p (length (modules p))
             (set_modules (modules p ++ [Module_new]) p) eq_refl).
  rewrite (bind_ok (push_module _) _ _ tt _ eq_refl).
  rewrite Hn.
  set (p1 := set_module_stack _ _).
  assert (Hp1 : scoped T (n :: ms) (S n) k p1).
  { split; [exact Htok |]. split; [exact Hvars |]. split; [exact Hlen |].
    split; [simpl; rewrite Hms; reflexivity |].
    split; [simpl; rewrite length_app, Hn; simpl; lia |].
    constructor; [lia |]. eapply Forall_impl; [exact Hm |]. simpl. intros; lia. }
  revert p1 Hp1. clear. intros p1 Hp1.
  refine (safe_bind T _ _ _ (block fuel) _
            (proj1 (block_group_safe T n ms (S n) fuel) k) _ p1 Hp1).
  intros b. eapply safe_bind; [apply safe_update_main |]. intros _.
  eapply safe_bind; [apply safe_pop_module |]. intros _. apply safe_ret.
Qed.

(** A parse returns, ends with one of its messages, does not end, or runs
    into the fault of the comment that no newline ends. *)
Lemma parse_string_safe fuel text :
  N.of_nat (String.length text) + 3 < UINT_MOD ->
  match parse_string fuel text Parser_new with
  | Ok _ _ => True
  | Abort msg => parse_error msg
  | Fault f => comment_fault ("{" +:+ text +:+ "}") f
  | OutOfFuel => True
  end.
Proof.
  intros Hlen. rewrite parse_string_unfold.
  set (T := "{" +:+ text +:+ "}").
  assert (Hs : safe T (scoped T [] 0 0) (scoped T [] 1 0)
                 (bind (module fuel)
                    (fun m => bind (tok peek)
                       (fun t => bind (expect t Token.EOSType "Expected end of string.")
                          (fun _ => ret m))))).
  { eapply safe_bind; [apply module_safe |]. intros m.
    eapply safe_bind; [apply safe_tok, peek_safe |]. intros t.
    eapply safe_bind; [apply safe_expect |]. intros _. apply safe_ret. }
  assert (Hp : scoped T [] 0 0 (set_tokenizer (Some (Tokenizer_new T)) Parser_new)).
  { split.
    - exists (Tokenizer_new T). split; [reflexivity |]. split; [reflexivity |].
      unfold in_text, text_length. simpl. subst T.
      rewrite append_nil_l, length_append. simpl. lia.
    - split; [constructor |]. split; [reflexivity |]. split; [reflexivity |].
      split; [reflexivity | constructor]. }
  specialize (Hs _ Hp).
  destruct (bind (module fuel) _ _) as [a p' | msg | f |]; try exact I; exact Hs.
Qed.

Lemma occurs_append c s1 s2 : occurs c (s1 +:+ s2) = occurs c s1 || occurs c s2.
Proof.
  induction s1 as [| d s1 IH]; [reflexivity |].
  rewrite append_cons. simpl. rewrite IH. apply orb_assoc.
Qed.

Lemma string_drop_append n s1 s2 :
  (n <= String.length s1)%nat ->
  string_drop n (s1 +:+ s2) = string_drop n s1 +:+ s2.
Proof.
  revert s1. induction n as [| n IH]; intros s1 H; [reflexivity |].
  destruct s1 as [| c s1]; [simpl in H; lia |].
  rewrite append_cons. simpl. apply IH. simpl in H. lia.
Qed.

Lemma get_append_Some n s1 s2 c :
  String.get n (s1 +:+ s2) = Some c ->
  ((n < String.length s1)%nat /\ String.get n s1 = Some c) \/
  ((String.length s1 <= n)%nat /\ String.get (n - String.length s1) s2 = Some c).
Proof.
  revert n. induction s1 as [| d s1 IH]; intros n H.
  - right. rewrite append_nil_l in H. simpl. rewrite Nat.sub_0_r. split; [lia | exact H].
  - rewrite append_cons in H. destruct n as [| n]; simpl in *.
    + left. split; [lia | exact H].
    + destruct (IH n H) as [[Hlt Hg] | [Hle Hg]]; [left | right]; split; try lia; exact Hg.
Qed.

(** The comment in terms of the input: the text in braces has a [#]
    without a newline after it when the input has one. *)
Lemma comment_in_text text i :
  String.get i ("{" +:+ text +:+ "}") = Some "#"%char ->
  occurs LF (string_drop i ("{" +:+ text +:+ "}")) = false ->
  exists j, String.get j text = Some "#"%char /\ occurs LF (string_drop j text) = false.
Proof.
  rewrite append_cons, append_nil_l. intros Hg Hocc.
  destruct i as [| j]; [discriminate Hg |]. simpl in Hg, Hocc.
  destruct (get_append_Some j text "}" "#" Hg) as [[Hlt Hj] | [Hle Hj]].
  - exists j. split; [exact Hj |].
    rewrite string_drop_append, occurs_append in Hocc by lia.
    apply orb_false_elim in Hocc. apply Hocc.
  - destruct (j - String.length text)%nat; simpl in Hj; [discriminate Hj |].
    destruct n; discriminate Hj.
Qed.

(** X13.  Parsing an input (of fewer than 2^32 - 3 characters) runs into
    undefined behaviour in one way only: the input has a [#] with no
    newline after it, and the scan of the comment reads the character
    after the terminator of the text in braces.  Nothing else goes wrong:
    no stack is read or popped when it is empty, the tokenizer and the
    module are there when they are used, the assertion of
    [lookup_or_new_var] holds, no substring starts outside the text, and
    the module returned is one that was made. *)
Theorem parse_faults_only_in_a_comment fuel text f :
  N.of_nat (String.length text) + 3 < UINT_MOD ->
  run_parse_string fuel text = Faulted f ->
  f = OutOfBounds (N.of_nat (String.length text) + 3) /\
  exists j, String.get j text = Some "#"%char /\
            occurs LF (string_drop j text) = false.
Proof.
  intros Hlen H. pose proof (parse_string_safe fuel text Hlen) as Hs.
  unfold run_parse_string in H.
  destruct (parse_string fuel text Parser_new) as [m p | msg | f' |] eqn:E;
    try discriminate H.
  - destruct (parse_string_main fuel text m p E) as (statements & p1 & x & _ & Hx & _).
    rewrite Hx in H. discriminate H.
  - injection H as <-. destruct Hs as (-> & i & Hg & Hocc). split.
    + f_equal. rewrite append_cons, append_nil_l. simpl. rewrite length_append. simpl. lia.
    + apply (comment_in_text text i Hg Hocc).
Qed.

Lemma parse_faults_only_in_a_comment_witness :
  exists j, String.get j "a = 1; # no newline" = Some "#"%char /\
            occurs LF (string_drop j "a = 1; # no newline") = false.
Proof.
  exact (proj2 (parse_faults_only_in_a_comment 40 "a = 1; # no newline" (OutOfBounds 22)
                  ltac:(vm_compute; reflexivity) ltac:(vm_compute; reflexivity))).
Defined.

(** X14.  The messages with which a parse (of such an input) can end are
    the one of [atom], the one of [otherstmt], and the ones of [expect],
    which start with [Parsing error: ] and name the place.  The messages
    of [get_binop_operator] and [get_unaryop_operator] are never seen:
    [arith], [term] and [unary] call them only with a token they have
    checked to be an operator. *)
Theorem parse_errors_are_syntax_errors fuel text msg :
  N.of_nat (String.length text) + 3 < UINT_MOD ->
  run_parse_string fuel text = Aborted msg ->
  (msg = "Invalid token type for atom." \/
   msg = "Unexpected token in statement." \/
   exists what pos, msg = "Parsing error: " +:+ what +:+ " near " +:+ pos) /\
  msg <> "Invalid operator for binary operation." /\
  msg <> "Invalid operator for unary operation.".
Proof.
  intros Hlen H. pose proof (parse_string_safe fuel text Hlen) as Hs.
  unfold run_parse_string in H.
  destruct (parse_string fuel text Parser_new) as [m p | msg' | f' |] eqn:E;
    try discriminate H.
  { destruct (modules p !! m); discriminate H. }
  injection H as <-. split; [exact Hs |].
  destruct Hs as [-> | [-> | (what & pos & ->)]];
    split; intros H; try discriminate H;
    apply (f_equal (String.get 0)) in H; vm_compute in H; discriminate H.
Qed.

Lemma parse_errors_are_syntax_errors_witness :
  exists what pos,
    "Parsing error: Expected symbol. near character '1', line 1"
    = "Parsing error: " +:+ what +:+ " near " +:+ pos.
Proof.
  destruct (proj1 (parse_errors_are_syntax_errors 40 "1+2*3;" _
                     ltac:(vm_compute; reflexivity) ltac:(vm_compute; reflexivity)))
    as [H | [H | H]]; [discriminate H | discriminate H | exact H].
Defined.

(** ** A parse that returns *)

Lemma lex_EOS r : Token.type (fst (lex r)) = Token.EOSType -> r = EmptyString.
Proof.
  destruct r as [| c s]; [reflexivity |]. unfold lex. intros H. exfalso.
  repeat match type of H with
  | context [if Ascii.eqb c ?d then _ else _] =>
      lazymatch d with
      | "="%char => fail
      | _ => destruct (Ascii.eqb c d); [discriminate H |]
      end
  end.
  destruct (Ascii.eqb c "=").
  { destruct (Ascii.eqb (head_char s) "="); discriminate H. }
  repeat match type of H with
  | context [if Ascii.eqb c ?d then _ else _] =>
      destruct (Ascii.eqb c d); [discriminate H |]
  end.
  destruct (is_digit c).
  - unfold lex_number in H. destruct (Ascii.eqb _ "."); discriminate H.
  - unfold lex_symbol, get_multichar_token in H. cbn [fst] in H.
    destruct (String.eqb _ _); [discriminate H |].
    destruct (String.eqb _ _); discriminate H.
Qed.

Lemma next_at_EOS st t st1 st2 :
  in_text st -> peek st = Ok t st1 -> Token.type t = Token.EOSType ->
  next st1 = Ok tt st2 -> idx st2 = text_length st2.
Proof.
  intros Hin Hpeek Hty Hnext.
  destruct (peek_lex st Hin) as (l & Hl). rewrite Hl in Hpeek.
  injection Hpeek as <- <-. apply lex_EOS in Hty.
  pose proof (in_text_skipped st l Hin) as Hin1.
  destruct (next_state _ _ Hin1 Hnext) as (Hin2 & Ht2 & Hi2).
  apply rest_nil in Hty. pose proof (in_text_idx st2 Hin2).
  rewrite (text_length_same _ _ Ht2) in *. lia.
Qed.

(** X15.  A parse that returns has read the whole input and leaves the
    parser tidy: the tokenizer is at the end of the text in braces, the
    scope stack and the module stack are empty again, and the module
    returned is the one module that was made.  So an input with anything
    after the closing brace of its block, such as a stray closing brace
    half way, does not parse. *)
Theorem parse_reads_the_whole_input fuel src m p :
  N.of_nat (String.length src) + 3 < UINT_MOD ->
  parse_string fuel src Parser_new = Ok m p ->
  (exists st, tokenizer p = Some st /\
              text st = "{" +:+ src +:+ "}" /\
              idx st = text_length st) /\
  symbol_table_stack p = [] /\ module_stack p = [] /\
  m = O /\ length (modules p) = 1%nat.
Proof.
  intros Hlen H. set (T := "{" +:+ src +:+ "}").
  assert (Hp : scoped T [] 0 0 (set_tokenizer (Some (Tokenizer_new T)) Parser_new)).
  { split.
    - exists (Tokenizer_new T). split; [reflexivity |]. split; [reflexivity |].
      unfold in_text, text_length. simpl. subst T.
      rewrite append_nil_l, length_append. simpl. lia.
    - split; [constructor |]. split; [reflexivity |]. split; [reflexivity |].
      split; [reflexivity | constructor]. }
  rewrite parse_string_unfold in H. fold T in H.
  apply bind_ok_inv in H. destruct H as (m' & p1 & Hmod & H).
  apply bind_ok_inv in H. destruct H as (t & p2 & Hpeek & H).
  apply bind_ok_inv in H. destruct H as ([] & p3 & Hexp & H).
  injection H as <- <-.
  pose proof (module_safe T [] 0 0 fuel _ Hp) as Hp1. rewrite Hmod in Hp1.
  pose proof (safe_tok T [] 1 0 peek (peek_safe T) p1 Hp1) as Hp2. rewrite Hpeek in Hp2.
  pose proof (safe_expect T [] 1 0 t Token.EOSType "Expected end of string." p2 Hp2) as Hp3. rewrite Hexp in Hp3.
  destruct (expect_ok _ _ _ _ _ _ Hexp) as (Hty & Hnext).
  split; [| split; [| split; [| split]]].
  - destruct Hp1 as ((st1 & Hst1 & Ht1 & Hin1) & _).
    destruct (tok_peek_again p1 st1 t p2 Hst1 Hin1 Hpeek) as (_ & st2 & Hst2 & Hin2 & Hpk).
    unfold tok in Hnext. rewrite Hst2 in Hnext.
    destruct (next st2) as [[] st3 | | |] eqn:En; try discriminate Hnext.
    injection Hnext as <-. exists st3. split; [reflexivity |].
    destruct (next_state _ _ Hin2 En) as (_ & Ht3 & _).
    destruct (peek_state _ _ _ Hin1 Hpk) as (_ & Ht2 & _).
    split; [congruence |]. apply (next_at_EOS st1 t st2 st3 Hin1 Hpk Hty En).
  - destruct Hp3 as (_ & _ & Hk & _). destruct (symbol_table_stack p3); [reflexivity | discriminate Hk].
  - apply Hp3.
  - unfold module in Hmod. apply bind_ok_inv in Hmod.
    destruct Hmod as (m0 & q & Hnew & Hmod). injection Hnew as <- <-.
    inv_binds Hmod. match goal with H : ret _ _ = Ok _ _ |- _ => injection H as <- _ end.
    reflexivity.
  - apply Hp3.
Qed.

Lemma parse_reads_the_whole_input_witness :
  exists m p st,
    parse_string 40 "a = 1;" Parser_new = Ok m p /\
    tokenizer p = Some st /\ idx st = 8 /\ symbol_table_stack p = [].
Proof.
  destruct (parse_string 40 "a = 1;" Parser_new) as [m p | | |] eqn:E;
    try (exfalso; vm_compute in E; discriminate E).
  destruct (parse_reads_the_whole_input 40 "a = 1;" m p ltac:(vm_compute; reflexivity) E)
    as ((st & Hst & Ht & Hi) & Hs & _).
  exists m, p, st. split; [reflexivity |]. split; [exact Hst |]. split; [| exact Hs].
  rewrite Hi. unfold text_length. rewrite Ht. reflexivity.
Defined.

(** * Parses that end *)

(** ** The tokenizer moves on *)

Lemma all_chars_drop p n s : all_chars p s = true -> all_chars p (string_drop n s) = true.
Proof.
  revert s. induction n as [| n IH]; intros s H; [exact H |].
  destruct s as [| c s]; [exact H |]. simpl in *.
  apply andb_prop in H. apply IH, H.
Qed.

Lemma plain_head st c s :
  plain (text st) = true -> rest st = String c s ->
  no_token_char c = false /\ Ascii.eqb c "@" = false.
Proof.
  intros Hp E. unfold plain in Hp.
  apply (all_chars_drop _ (N.to_nat (idx st))) in Hp. fold (rest st) in Hp.
  rewrite E in Hp. simpl in Hp. apply andb_prop in Hp. destruct Hp as [Hp _].
  apply andb_prop in Hp. destruct Hp as [H1 H2].
  split; [destruct (no_token_char c) | destruct (Ascii.eqb c "@")]; first [reflexivity | discriminate].
Qed.

(** A token [@] is the character [@]. *)
Lemma lex_At r : Token.type (fst (lex r)) = Token.AtType -> head_char r = "@"%char.
Proof.
  destruct r as [| c s]; [discriminate |]. unfold lex. cbn [head_char].
  destruct (Ascii.eqb_spec c "@") as [-> | Hne]; [reflexivity |].
  intros H. exfalso.
  repeat match type of H with
  | context [if Ascii.eqb c ?d then _ else _] =>
      lazymatch d with
      | "="%char => fail
      | _ => destruct (Ascii.eqb c d); [discriminate H |]
      end
  end.
  destruct (Ascii.eqb c "=").
  { destruct (Ascii.eqb (head_char s) "="); discriminate H. }
  repeat match type of H with
  | context [if Ascii.eqb c ?d then _ else _] =>
      destruct (Ascii.eqb c d); [discriminate H |]
  end.
  destruct (is_digit c).
  - unfold lex_number in H. destruct (Ascii.eqb _ "."); discriminate H.
  - unfold lex_symbol, get_multichar_token in H. cbn [fst] in H.
    destruct (String.eqb _ _); [discriminate H |].
    destruct (String.eqb _ _); discriminate H.
Qed.

(** After a [peek], [next] takes the token peeked. *)
Lemma next_after_peek st t st1 :
  in_text st -> peek st = Ok t st1 ->
  t = fst (lex (rest st1)) /\
  is_whitespace (head_char (rest st1)) = false /\
  next st1 = Ok tt (at_idx (idx st1 + N.of_nat (snd (lex (rest st1)))) st1).
Proof.
  intros Hin H. destruct (peek_lex st Hin) as (l & Hl). rewrite Hl in H.
  injection H as <- <-.
  pose proof (skipped_head_not_whitespace st l) as Hw.
  split; [reflexivity |]. split; [exact Hw |].
  pose proof (skip_whitespace_at_token _ Hw) as Hsk.
  rewrite <- (skipped_at_token _ Hw) in Hsk at 2.
  pose proof (get_token_lex_at (skipped st l) _ (in_text_skipped st l Hin) Hsk) as Hg.
  rewrite (skipped_at_token _ Hw) in Hg.
  unfold next. rewrite (bind_ok _ _ _ _ _ Hg). reflexivity.
Qed.

Lemma rest_advance st n :
  (n <= String.length (rest st))%nat ->
  String.length (rest (at_idx (idx st + N.of_nat n) st)) = (String.length (rest st) - n)%nat.
Proof.
  intros Hn. rewrite !rest_length in *. simpl. lia.
Qed.

Lemma peek_left st t st1 :
  in_text st -> peek st = Ok t st1 ->
  in_text st1 /\ text st1 = text st /\
  (String.length (rest st1) <= String.length (rest st))%nat.
Proof.
  intros Hin H. destruct (peek_state st t st1 Hin H) as (Hin1 & Ht & Hi).
  split; [exact Hin1 |]. split; [exact Ht |].
  rewrite !rest_length, Ht. lia.
Qed.

(** What [next] after a [peek] leaves of the text: less, unless the token
    was the end of the text. *)
Lemma next_left st t st1 :
  in_text st -> peek st = Ok t st1 ->
  exists st2,
    next st1 = Ok tt st2 /\ in_text st2 /\ text st2 = text st1 /\
    (String.length (rest st2) <= String.length (rest st1))%nat /\
    (plain (text st) = true -> Token.type t <> Token.EOSType ->
     (String.length (rest st2) < String.length (rest st1))%nat).
Proof.
  intros Hin H. destruct (next_after_peek st t st1 Hin H) as (Ht & Hw & Hn).
  destruct (peek_left st t st1 Hin H) as (Hin1 & Htx & _).
  eexists. split; [exact Hn |].
  pose proof (lex_bound (rest st1)) as Hb.
  split; [apply in_text_advance; assumption |]. split; [reflexivity |].
  rewrite (rest_advance st1 _ Hb). split; [lia |].
  intros Hp Hty. destruct (rest st1) as [| c s] eqn:E.
  { subst t. exfalso. apply Hty. reflexivity. }
  rewrite <- Htx in Hp. destruct (plain_head st1 c s Hp E) as (Hc & _).
  cbn [head_char] in Hw. pose proof (lex_progress c s Hc Hw). simpl String.length in *. lia.
Qed.

Lemma peek_not_At st t st1 :
  in_text st -> plain (text st) = true -> peek st = Ok t st1 ->
  Token.type t <> Token.AtType.
Proof.
  intros Hin Hp H Hty. destruct (next_after_peek st t st1 Hin H) as (Ht & _ & _).
  destruct (peek_left st t st1 Hin H) as (_ & Htx & _).
  subst t. apply lex_At in Hty. destruct (rest st1) as [| c s] eqn:E; [discriminate Hty |].
  rewrite <- Htx in Hp. destruct (plain_head st1 c s Hp E) as (_ & Hc).
  cbn [head_char] in Hty. subst c. discriminate Hc.
Qed.

(** With more fuel than characters left, the token scan returns. *)
Lemma scan_until_loop_ends stop fuel t st :
  in_text st -> plain (text st) = true -> peek st = Ok t st ->
  (String.length (rest st) < fuel)%nat ->
  exists st', scan_until_loop stop fuel t st = Ok tt st' /\
              in_text st' /\ text st' = text st /\
              (String.length (rest st') <= String.length (rest st))%nat.
Proof.
  revert t st. induction fuel as [| fuel IH]; intros t st Hin Hp Hpeek Hf; [lia |].
  simpl. destruct (stop t).
  { exists st. split; [reflexivity |]. split; [exact Hin |]. split; [reflexivity | lia]. }
  rewrite (bind_ok eos _ st _ st eq_refl).
  destruct (text_length st <=? idx st) eqn:Ee.
  { exists st. split; [reflexivity |]. split; [exact Hin |]. split; [reflexivity | lia]. }
  apply N.leb_gt in Ee.
  destruct (next_left st t st Hin Hpeek) as (st2 & Hn & Hin2 & Ht2 & _ & Hlt).
  assert (Hty : Token.type t <> Token.EOSType).
  { intros Hty. destruct (next_after_peek st t st Hin Hpeek) as (Ht & _ & _).
    subst t. apply lex_EOS, rest_nil in Hty. lia. }
  specialize (Hlt Hp Hty).
  rewrite (bind_ok next _ _ _ _ Hn).
  destruct (peek_in_text st2 Hin2) as (t' & st3 & Hpeek3 & Hin3 & Ht3).
  rewrite (bind_ok peek _ _ _ _ Hpeek3).
  destruct (peek_left st2 t' st3 Hin2 Hpeek3) as (_ & _ & Hle3).
  destruct (IH t' st3 Hin3 ltac:(congruence) (peek_again st2 t' st3 Hin2 Hpeek3) ltac:(lia))
    as (st' & H & Hin' & Ht' & Hle').
  exists st'. split; [exact H |]. split; [exact Hin' |]. split; [congruence | lia].
Qed.

Lemma scan_until_type_ends fuel ty st :
  in_text st -> plain (text st) = true ->
  (String.length (rest st) < fuel)%nat ->
  exists s st', scan_until_type fuel ty st = Ok s st' /\
                in_text st' /\ text st' = text st /\
                (String.length (rest st') <= String.length (rest st))%nat.
Proof.
  intros Hin Hp Hf. unfold scan_until_type.
  rewrite (bind_ok (gets idx) _ st (idx st) st eq_refl).
  destruct (peek_in_text st Hin) as (t & st1 & Hpeek & Hin1 & Ht1).
  rewrite (bind_ok peek _ _ _ _ Hpeek).
  destruct (peek_left st t st1 Hin Hpeek) as (_ & _ & Hle1).
  destruct (scan_until_loop_ends (fun t => Token.isa t ty) fuel t st1 Hin1
              ltac:(congruence) (peek_again st t st1 Hin Hpeek) ltac:(lia))
    as (st' & H & Hin' & Ht' & Hle').
  rewrite (bind_ok _ _ _ _ _ H).
  rewrite (bind_ok (gets idx) _ st' (idx st') st' eq_refl).
  unfold substr.
  destruct (peek_state st t st1 Hin Hpeek) as (_ & _ & Hi1).
  pose proof (in_text_idx st1 Hin1) as Hb1.
  rewrite (text_length_same _ _ Ht1) in Hb1.
  rewrite (text_length_same st st' ltac:(congruence)).
  replace (idx st <=? text_length st) with true by (symmetry; apply N.leb_le; lia).
  eexists _, st'. split; [reflexivity |]. split; [exact Hin' |]. split; [congruence | lia].
Qed.

(** With fuel for the characters left and two more, the scan for the end
    of a comment returns or reads past the terminator. *)
Lemma scan_until_char_ends fuel st :
  in_text st -> (String.length (rest st) + 1 < fuel)%nat ->
  match scan_until_char fuel LF st with
  | Ok _ st' => in_text st' /\ text st' = text st /\
                (String.length (rest st') <= String.length (rest st))%nat
  | OutOfFuel => False
  | Abort _ | Fault _ => True
  end.
Proof.
  intros Hin Hf. destruct (occurs LF (rest st)) eqn:Hocc.
  - rewrite (scan_until_char_found fuel LF st Hin Hocc ltac:(lia)).
    pose proof (span_length (fun d => negb (Ascii.eqb d LF)) (rest st)) as Hs.
    split; [apply in_text_advance; assumption |]. split; [reflexivity |].
    rewrite (rest_advance st _ Hs). lia.
  - rewrite (scan_until_char_past_end fuel LF st Hin ltac:(discriminate) Hocc Hf). exact I.
Qed.

(** ** The rules of [ends] *)

Lemma ends_weaken {A} T s b (m : M Parser A) : ends T true b m -> ends T s b m.
Proof.
  intros H p st Hst Ht Hin Hb. specialize (H p st Hst Ht Hin Hb).
  destruct (m p); try exact H. destruct H as (st' & H1 & H2 & H3 & H4).
  exists st'. split; [exact H1 |]. split; [exact H2 |]. split; [exact H3 |].
  destruct s; lia.
Qed.

Lemma ends_ret {A} T b (a : A) : ends T false b (ret a).
Proof.
  intros p st Hst Ht Hin Hb. simpl. exists st.
  split; [exact Hst |]. split; [exact Ht |]. split; [exact Hin | lia].
Qed.

Lemma ends_abort {A} T s b msg : ends T s b (abort msg : M Parser A).
Proof. intros p st _ _ _ _. exact I. Qed.

Lemma ends_raise {A} T s b f : ends T s b (raise f : M Parser A).
Proof. intros p st _ _ _ _. exact I. Qed.

Lemma ends_bind {A B} T s b (m : M Parser A) (k : A -> M Parser B) :
  ends T false b m -> (forall a, ends T s b (k a)) -> ends T s b (bind m k).
Proof.
  intros Hm Hk p st Hst Ht Hin Hb. specialize (Hm p st Hst Ht Hin Hb).
  unfold bind. destruct (m p) as [a p1 | | |]; try exact Hm.
  destruct Hm as (st1 & Hst1 & Ht1 & Hin1 & Hle).
  specialize (Hk a p1 st1 Hst1 Ht1 Hin1 ltac:(lia)).
  destruct (k a p1); try exact Hk. destruct Hk as (st2 & H1 & H2 & H3 & H4).
  exists st2. split; [exact H1 |]. split; [exact H2 |]. split; [exact H3 | lia].
Qed.

(** After a call that moved the tokenizer on, one character less is left. *)
Lemma ends_bind_drop {A B} T s b (m : M Parser A) (k : A -> M Parser B) :
  ends T true b m ->
  ((1 <= b)%nat -> forall a, ends T false (b - 1) (k a)) ->
  ends T s b (bind m k).
Proof.
  intros Hm Hk p st Hst Ht Hin Hb. specialize (Hm p st Hst Ht Hin Hb).
  unfold bind. destruct (m p) as [a p1 | | |]; try exact Hm.
  destruct Hm as (st1 & Hst1 & Ht1 & Hin1 & Hle).
  specialize (Hk ltac:(lia) a p1 st1 Hst1 Ht1 Hin1 ltac:(lia)).
  destruct (k a p1); try exact Hk. destruct Hk as (st2 & H1 & H2 & H3 & H4).
  exists st2. split; [exact H1 |]. split; [exact H2 |]. split; [exact H3 |].
  destruct s; lia.
Qed.

(** The calls that leave the tokenizer alone. *)
Lemma ends_state {A} T b (m : M Parser A) :
  (forall p, match m p with
             | Ok _ p' => tokenizer p' = tokenizer p
             | OutOfFuel => False
             | Abort _ | Fault _ => True
             end) ->
  ends T false b m.
Proof.
  intros Hm p st Hst Ht Hin Hb. specialize (Hm p).
  destruct (m p) as [a p' | | |]; try exact Hm.
  exists st. split; [congruence |]. split; [exact Ht |]. split; [exact Hin | lia].
Qed.

Lemma ends_tok {A} T b (m : M Tokenizer A) :
  (forall st, text st = T -> in_text st -> (String.length (rest st) <= b)%nat ->
     match m st with
     | Ok _ st' => in_text st' /\ text st' = text st /\
                   (String.length (rest st') <= String.length (rest st))%nat
     | OutOfFuel => False
     | Abort _ | Fault _ => True
     end) ->
  ends T false b (tok m).
Proof.
  intros Hm p st Hst Ht Hin Hb. specialize (Hm st Ht Hin Hb).
  unfold tok. rewrite Hst. destruct (m st) as [a st' | | |]; try exact Hm.
  destruct Hm as (Hin' & Ht' & Hle). exists st'.
  split; [reflexivity |]. split; [congruence |]. split; [exact Hin' | lia].
Qed.

Lemma ends_tok_peek T b : ends T false b (tok peek).
Proof.
  apply ends_tok. intros st _ Hin _.
  destruct (peek_in_text st Hin) as (t & st1 & H & _). rewrite H.
  apply (peek_left st t st1 Hin H).
Qed.

Lemma ends_tok_next T b : ends T false b (tok next).
Proof.
  apply ends_tok. intros st _ Hin _.
  destruct (next_in_text st Hin) as (st1 & H & _). rewrite H.
  destruct (next_state st st1 Hin H) as (Hin1 & Ht & Hi).
  split; [exact Hin1 |]. split; [exact Ht |]. rewrite !rest_length, Ht. lia.
Qed.

Lemma position_outcome st :
  match position st with
  | Ok _ st' => st' = st
  | OutOfFuel => False
  | Abort _ | Fault _ => True
  end.
Proof.
  unfold position, curchar, text_at. cbv beta iota delta [bind gets ret].
  destruct (idx st <? text_length st).
  - destruct (String.get _ _); [reflexivity | exact I].
  - destruct (idx st =? text_length st); [reflexivity | exact I].
Qed.

Lemma ends_expect T b t ty msg : ends T false b (expect t ty msg).
Proof.
  unfold expect. destruct (negb (Token.isa t ty)); [| apply ends_tok_next].
  intros p st Hst _ _ _. unfold bind, tok. rewrite Hst.
  pose proof (position_outcome st) as H. destruct (position st); try exact H. exact I.
Qed.

(** A token peeked is not [@]. *)
Lemma ends_peek {A} T s b (k : Token.t -> M Parser A) :
  plain T = true ->
  (forall t, Token.type t <> Token.AtType -> ends T s b (k t)) ->
  ends T s b (bind (tok peek) k).
Proof.
  intros Hp Hk p st Hst Ht Hin Hb.
  destruct (peek_in_text st Hin) as (t & st1 & H & _).
  destruct (peek_left st t st1 Hin H) as (Hin1 & Ht1 & Hle).
  rewrite (bind_ok _ _ _ _ _ (tok_ok peek p st t st1 Hst H)).
  assert (Hty : Token.type t <> Token.AtType).
  { apply (peek_not_At st t st1 Hin); [rewrite Ht; exact Hp | exact H]. }
  specialize (Hk t Hty (set_tokenizer (Some st1) p) st1 eq_refl ltac:(congruence) Hin1 ltac:(lia)).
  destruct (k t _); try exact Hk. destruct Hk as (st2 & H1 & H2 & H3 & H4).
  exists st2. split; [exact H1 |]. split; [exact H2 |]. split; [exact H3 |]. lia.
Qed.

(** [next] after a [peek] takes a token, unless the text is at its end. *)
Lemma ends_peek_next {A} T b (k : Token.t -> M Parser A) :
  plain T = true ->
  (forall t, Token.type t = Token.EOSType -> ends T true b (k t)) ->
  ((1 <= b)%nat -> forall t, Token.type t <> Token.EOSType -> ends T false (b - 1) (k t)) ->
  ends T true b (bind (tok peek) (fun t => bind (tok next) (fun _ => k t))).
Proof.
  intros Hp He Hk p st Hst Ht Hin Hb.
  destruct (peek_in_text st Hin) as (t & st1 & H & _).
  destruct (peek_left st t st1 Hin H) as (Hin1 & Ht1 & Hle).
  rewrite (bind_ok _ _ _ _ _ (tok_ok peek p st t st1 Hst H)).
  destruct (next_left st t st1 Hin H) as (st2 & Hn & Hin2 & Ht2 & Hle2 & Hlt).
  rewrite (bind_ok _ _ _ _ _ (tok_ok next (set_tokenizer (Some st1) p) st1 tt st2 eq_refl Hn)).
  rewrite Ht in Hlt. specialize (Hlt Hp).
  set (p2 := set_tokenizer (Some st2) (set_tokenizer (Some st1) p)).
  destruct (decide (Token.type t = Token.EOSType)) as [E | E].
  - specialize (He t E p2 st2 eq_refl ltac:(congruence) Hin2 ltac:(lia)).
    destruct (k t p2); try exact He. destruct He as (st3 & H1 & H2 & H3 & H4).
    exists st3. split; [exact H1 |]. split; [exact H2 |]. split; [exact H3 |]. lia.
  - specialize (Hlt E).
    specialize (Hk ltac:(lia) t E p2 st2 eq_refl ltac:(congruence) Hin2 ltac:(lia)).
    destruct (k t p2); try exact Hk. destruct Hk as (st3 & H1 & H2 & H3 & H4).
    exists st3. split; [exact H1 |]. split; [exact H2 |]. split; [exact H3 |]. lia.
Qed.

Lemma tok_peek_next T p st :
  tokenizer p = Some st -> text st = T -> in_text st -> plain T = true ->
  exists t p1 st1 p2 st2,
    tok peek p = Ok t p1 /\
    tokenizer p1 = Some st1 /\ text st1 = T /\ in_text st1 /\
    (String.length (rest st1) <= String.length (rest st))%nat /\
    Token.type t <> Token.AtType /\
    tok next p1 = Ok tt p2 /\
    tokenizer p2 = Some st2 /\ text st2 = T /\ in_text st2 /\
    (String.length (rest st2) <= String.length (rest st1))%nat /\
    (Token.type t <> Token.EOSType ->
     (String.length (rest st2) < String.length (rest st1))%nat).
Proof.
  intros Hst Ht Hin Hp.
  destruct (peek_in_text st Hin) as (t & st1 & H & _).
  destruct (peek_left st t st1 Hin H) as (Hin1 & Ht1 & Hle).
  destruct (next_left st t st1 Hin H) as (st2 & Hn & Hin2 & Ht2 & Hle2 & Hlt).
  exists t, (set_tokenizer (Some st1) p), st1,
    (set_tokenizer (Some st2) (set_tokenizer (Some st1) p)), st2.
  split; [apply (tok_ok peek p st t st1 Hst H) |].
  split; [reflexivity |]. split; [congruence |]. split; [exact Hin1 |].
  split; [exact Hle |].
  split; [apply (peek_not_At st t st1 Hin); [rewrite Ht; exact Hp | exact H] |].
  split; [apply (tok_ok next (set_tokenizer (Some st1) p) st1 tt st2 eq_refl Hn) |].
  split; [reflexivity |]. split; [congruence |]. split; [exact Hin2 |].
  split; [exact Hle2 |]. apply Hlt. rewrite Ht. exact Hp.
Qed.

Lemma expect_fails_outcome t ty msg p :
  Token.isa t ty = false ->
  match expect t ty msg p with
  | Ok _ _ | OutOfFuel => False
  | Abort _ | Fault _ => True
  end.
Proof.
  intros E. unfold expect. rewrite E. cbn [negb]. unfold bind, tok.
  destruct (tokenizer p) as [st |]; [| exact I].
  pose proof (position_outcome st) as H. destruct (position st); try exact H. exact I.
Qed.

Lemma isa_type t ty : Token.isa t ty = true -> Token.type t = ty.
Proof. unfold Token.isa. intros H. apply bool_decide_eq_true in H. exact H. Qed.

(** A token that [expect] takes is gone from the text. *)
Lemma ends_peek_expect {A} T s b ty msg (k : Token.t -> M Parser A) :
  plain T = true -> ty <> Token.EOSType ->
  ((1 <= b)%nat -> forall t, ends T false (b - 1) (k t)) ->
  ends T s b (bind (tok peek) (fun t => bind (expect t ty msg) (fun _ => k t))).
Proof.
  intros Hp Hty Hk p st Hst Ht Hin Hb.
  destruct (tok_peek_next T p st Hst Ht Hin Hp)
    as (t & p1 & st1 & p2 & st2 & Hpeek & Hst1 & Ht1 & Hin1 & Hle1 & _ &
        Hnext & Hst2 & Ht2 & Hin2 & Hle2 & Hlt).
  rewrite (bind_ok _ _ _ _ _ Hpeek).
  destruct (Token.isa t ty) eqn:E.
  - apply isa_type in E. specialize (Hlt ltac:(congruence)).
    assert (He : expect t ty msg p1 = Ok tt p2).
    { unfold expect, Token.isa. rewrite bool_decide_eq_true_2 by exact E. exact Hnext. }
    rewrite (bind_ok _ _ _ _ _ He).
    specialize (Hk ltac:(lia) t p2 st2 Hst2 Ht2 Hin2 ltac:(lia)).
    destruct (k t p2); try exact Hk. destruct Hk as (st3 & H1 & H2 & H3 & H4).
    exists st3. split; [exact H1 |]. split; [exact H2 |]. split; [exact H3 |].
    destruct s; lia.
  - pose proof (expect_fails_outcome t ty msg p1 E) as He. unfold bind at 1.
    destruct (expect t ty msg p1); try exact He; destruct He.
Qed.

(** A token taken after it was tested is gone as well. *)
Lemma ends_peek_if_next {A} T s b ty (k1 k2 : Token.t -> M Parser A) :
  plain T = true -> ty <> Token.EOSType ->
  ((1 <= b)%nat -> forall t, ends T false (b - 1) (k1 t)) ->
  (forall t, Token.type t <> Token.AtType -> ends T s b (k2 t)) ->
  ends T s b (bind (tok peek)
                (fun t => if Token.isa t ty then bind (tok next) (fun _ => k1 t) else k2 t)).
Proof.
  intros Hp Hty Hk1 Hk2 p st Hst Ht Hin Hb.
  destruct (tok_peek_next T p st Hst Ht Hin Hp)
    as (t & p1 & st1 & p2 & st2 & Hpeek & Hst1 & Ht1 & Hin1 & Hle1 & HAt &
        Hnext & Hst2 & Ht2 & Hin2 & Hle2 & Hlt).
  rewrite (bind_ok _ _ _ _ _ Hpeek).
  destruct (Token.isa t ty) eqn:E.
  - apply isa_type in E. specialize (Hlt ltac:(congruence)).
    rewrite (bind_ok _ _ _ _ _ Hnext).
    specialize (Hk1 ltac:(lia) t p2 st2 Hst2 Ht2 Hin2 ltac:(lia)).
    destruct (k1 t p2); try exact Hk1. destruct Hk1 as (st3 & H1 & H2 & H3 & H4).
    exists st3. split; [exact H1 |]. split; [exact H2 |]. split; [exact H3 |].
    destruct s; lia.
  - specialize (Hk2 t HAt p1 st1 Hst1 Ht1 Hin1 ltac:(lia)).
    destruct (k2 t p1); try exact Hk2. destruct Hk2 as (st3 & H1 & H2 & H3 & H4).
    exists st3. split; [exact H1 |]. split; [exact H2 |]. split; [exact H3 |]. lia.
Qed.

Lemma ends_scan_until_type T b fuel ty :
  plain T = true -> (b < fuel)%nat -> ends T false b (tok (scan_until_type fuel ty)).
Proof.
  intros Hp Hf. apply ends_tok. intros st Ht Hin Hb.
  destruct (scan_until_type_ends fuel ty st Hin ltac:(rewrite Ht; exact Hp) ltac:(lia))
    as (s & st' & H & Hin' & Ht' & Hle).
  rewrite H. split; [exact Hin' |]. split; [exact Ht' | exact Hle].
Qed.

Lemma ends_scan_until_char T b fuel :
  (b + 1 < fuel)%nat -> ends T false b (tok (scan_until_char fuel LF)).
Proof.
  intros Hf. apply ends_tok. intros st Ht Hin Hb.
  apply (scan_until_char_ends fuel st Hin). lia.
Qed.

Lemma ends_lookup T b name : ends T false b (lookup name).
Proof. apply ends_state. intros p. rewrite lookup_spec. reflexivity. Qed.

Ltac ends_op :=
  apply ends_state; intros ?;
  cbv beta iota delta
    [new_Module update_module push_module module_stack_top pop_module
     push_symbol_table pop_symbol_table insert_top new_Variable modify];
  repeat match goal with
  | |- context [match ?x with _ => _ end] =>
      lazymatch x with
      | context [match _ with _ => _ end] => fail
      | _ => destruct x; cbv beta iota
      end
  end;
  first [reflexivity | exact I].

(** One step through the body of a parsing function; [known] closes the
    calls of the functions whose case is settled. *)
Ltac ends_step known :=
  lazymatch goal with
  | |- ends _ _ _ (bind (tok peek) (fun t => bind (expect t _ _) _)) =>
      first [ apply ends_peek_expect; [assumption | discriminate | intros ? ?]
            | apply ends_peek; [assumption | intros ? ?] ]
  | |- ends _ _ _ (bind (tok peek) (fun t => if Token.isa t _ then bind (tok next) _ else _)) =>
      apply ends_peek_if_next; [assumption | discriminate | intros ? ? | intros ? ?]
  | |- ends _ _ _ (bind (tok peek) (fun t => bind (tok next) _)) =>
      apply ends_peek_next; [assumption | intros ? ? | intros ? ? ?]
  | |- ends _ _ _ (bind (tok peek) _) => apply ends_peek; [assumption | intros ? ?]
  | |- ends _ _ _ (bind _ _) =>
      first [ apply ends_bind_drop; [solve [known] | intros ? ?]
            | apply ends_bind; [| intros ?] ]
  | |- ends _ _ _ (let _ := _ in _) => cbv zeta
  | |- ends _ _ _ (ret _) => apply ends_ret
  | |- ends _ _ _ (abort _) => apply ends_abort
  | |- ends _ _ _ (raise _) => apply ends_raise
  | |- ends _ _ _ (tok peek) => apply ends_tok_peek
  | |- ends _ _ _ (tok next) => apply ends_tok_next
  | |- ends _ _ _ (tok (scan_until_type _ _)) => apply ends_scan_until_type; [assumption | lia]
  | |- ends _ _ _ (tok (scan_until_char _ LF)) => apply ends_scan_until_char; lia
  | |- ends _ _ _ (expect _ _ _) => apply ends_expect
  | |- ends _ _ _ (lookup _) => apply ends_lookup
  | |- ends _ _ _ (lookup_or_new_var _) => unfold lookup_or_new_var
  | |- ends _ _ _ (get_binop_operator _) => unfold get_binop_operator
  | |- ends _ _ _ (get_unaryop_operator _) => unfold get_unaryop_operator
  | |- ends _ _ _ new_Module => ends_op
  | |- ends _ _ _ (update_module _ _) => ends_op
  | |- ends _ _ _ (push_module _) => ends_op
  | |- ends _ _ _ module_stack_top => ends_op
  | |- ends _ _ _ pop_module => ends_op
  | |- ends _ _ _ (push_symbol_table _) => ends_op
  | |- ends _ _ _ pop_symbol_table => ends_op
  | |- ends _ _ _ (insert_top _ _ _) => ends_op
  | |- ends _ _ _ (new_Variable _) => ends_op
  | |- ends _ _ _ (if ?c then _ else _) => destruct c
  | |- ends _ _ _ (match ?x with _ => _ end) => destruct x eqn:?; try congruence
  | |- ends _ _ _ _ => first [ solve [known] | apply ends_weaken; solve [known] ]
  end.

Ltac ends_walk known := repeat ends_step known.

Lemma symbol_ends T b : plain T = true -> ends T true b symbol.
Proof. intros Hp. unfold symbol. ends_walk fail. Qed.

Lemma arg_ends T b : plain T = true -> ends T true b arg.
Proof. intros Hp. unfold arg. ends_walk fail. Qed.

Lemma atom_ends T b fuel : plain T = true -> (b < fuel)%nat -> ends T true b (atom fuel).
Proof. intros Hp Hf. unfold atom. ends_walk fail. Qed.

(** ** Expressions

    Twenty units of fuel for every character left, and a few for the
    calls that are made before a token is taken. *)
Lemma expr_group_ends T :
  plain T = true ->
  forall fuel,
    (forall b, (20 * b + 8 <= fuel)%nat -> ends T true b (expr fuel)) /\
    (forall b, (20 * b + 7 <= fuel)%nat -> ends T true b (arith fuel)) /\
    (forall b a t, (20 * b + 6 <= fuel)%nat -> ends T false b (arith_loop fuel a t)) /\
    (forall b, (20 * b + 5 <= fuel)%nat -> ends T true b (term fuel)) /\
    (forall b a t, (20 * b + 4 <= fuel)%nat -> ends T false b (term_loop fuel a t)) /\
    (forall b, (20 * b + 3 <= fuel)%nat -> ends T true b (unary fuel)) /\
    (forall b, (20 * b + 2 <= fuel)%nat -> ends T true b (factor fuel)).
Proof.
  intros Hp. induction fuel as [| fuel IH].
  { split_all; intros; lia. }
  destruct IH as (He & Ha & Hal & Ht & Htl & Hu & Hf).
  split_all; intros; simpl; unfold is_unop_token;
    ends_walk ltac:(first [ apply He; lia | apply Ha; lia | apply Hal; lia
                          | apply Ht; lia | apply Htl; lia | apply Hu; lia
                          | apply Hf; lia | apply atom_ends; [assumption | lia] ]).
Qed.

Lemma expr_ends T b fuel :
  plain T = true -> (20 * b + 8 <= fuel)%nat -> ends T true b (expr fuel).
Proof. intros Hp. apply (expr_group_ends T Hp fuel). Qed.

(** ** Statements *)

Lemma funcall_loop_ends T :
  plain T = true ->
  forall fuel b args, (20 * b + 2 <= fuel)%nat -> ends T false b (funcall_loop fuel args).
Proof.
  intros Hp. induction fuel as [| fuel IH]; intros b args Hf; [lia |]. simpl.
  ends_walk ltac:(first [ apply IH; lia | apply atom_ends; [assumption | lia] ]).
Qed.

Lemma funcall_ends T b fuel name :
  plain T = true -> (20 * b + 2 <= fuel)%nat -> ends T true b (funcall fuel name).
Proof.
  intros Hp Hf. unfold funcall.
  ends_walk ltac:(first [ apply funcall_loop_ends; [assumption | lia]
                        | apply atom_ends; [assumption | lia] ]).
Qed.

Lemma assignment_ends T b fuel name :
  plain T = true -> (20 * b + 8 <= fuel)%nat -> ends T true b (assignment fuel name).
Proof.
  intros Hp Hf. unfold assignment.
  ends_walk ltac:(apply expr_ends; [assumption | lia]).
Qed.

Lemma otherstmt_ends T b fuel :
  plain T = true -> (20 * b + 8 <= fuel)%nat -> ends T true b (otherstmt fuel).
Proof.
  intros Hp Hf. unfold otherstmt.
  ends_walk ltac:(first [ apply symbol_ends; assumption
                        | apply assignment_ends; [assumption | lia]
                        | apply funcall_ends; [assumption | lia] ]).
Qed.

Lemma functiondef_loop_ends T :
  plain T = true ->
  forall fuel b args, (20 * b + 2 <= fuel)%nat -> ends T false b (functiondef_loop fuel args).
Proof.
  intros Hp. induction fuel as [| fuel IH]; intros b args Hf; [lia |]. simpl.
  ends_walk ltac:(first [ apply IH; lia | apply arg_ends; assumption ]).
Qed.

Lemma block_group_ends T :
  plain T = true ->
  forall fuel,
    (forall b, (20 * b + 10 <= fuel)%nat -> ends T true b (block fuel)) /\
    (forall b statements, (20 * b + 13 <= fuel)%nat ->
       ends T false b (block_loop fuel statements)) /\
    (forall b, (20 * b + 12 <= fuel)%nat -> ends T true b (stmt fuel)) /\
    (forall b, (20 * b + 10 <= fuel)%nat -> ends T true b (ifstmt fuel)) /\
    (forall b, (20 * b + 10 <= fuel)%nat -> ends T true b (functiondef fuel)).
Proof.
  intros Hp. induction fuel as [| fuel IH].
  { split_all; intros; lia. }
  destruct IH as (Hb & Hbl & Hs & Hi & Hfd).
  split_all; intros; simpl;
    ends_walk ltac:(first [ apply Hb; lia | apply Hbl; lia | apply Hs; lia
                          | apply Hi; lia | apply Hfd; lia
                          | apply expr_ends; [assumption | lia]
                          | apply otherstmt_ends; [assumption | lia]
                          | apply symbol_ends; assumption
                          | apply arg_ends; assumption
                          | apply functiondef_loop_ends; [assumption | lia] ]).
Qed.

Lemma module_ends T b fuel :
  plain T = true -> (20 * b + 10 <= fuel)%nat -> ends T true b (module fuel).
Proof.
  intros Hp Hf. unfold module.
  ends_walk ltac:(apply (block_group_ends T Hp fuel); lia).
Qed.

(** ** The parse of a plain text *)

Lemma plain_in_braces src : plain src = true -> plain ("{" +:+ src +:+ "}") = true.
Proof.
  intros H. unfold plain in *. rewrite !all_chars_append, H. reflexivity.
Qed.

Lemma parse_string_ends fuel src :
  plain src = true ->
  N.of_nat (String.length src) + 3 < UINT_MOD ->
  (enough_fuel (String.length src) <= fuel)%nat ->
  parse_string fuel src Parser_new <> OutOfFuel.
Proof.
  intros Hp Hlen Hf. rewrite parse_string_unfold.
  set (T := "{" +:+ src +:+ "}").
  assert (HT : plain T = true) by apply (plain_in_braces src Hp).
  assert (HlenT : String.length T = (String.length src + 2)%nat).
  { subst T. rewrite !length_append. simpl. lia. }
  assert (H : ends T false (String.length T)
                (bind (module fuel)
                   (fun m => bind (tok peek)
                      (fun t => bind (expect t Token.EOSType "Expected end of string.")
                         (fun _ => ret m))))).
  { unfold enough_fuel in Hf.
    ends_walk ltac:(apply module_ends; [assumption | lia]). }
  specialize (H (set_tokenizer (Some (Tokenizer_new T)) Parser_new) (Tokenizer_new T)
                eq_refl eq_refl).
  intros E. rewrite E in H. apply H.
  - unfold in_text, text_length, Tokenizer_new. cbn [text idx].
    rewrite HlenT. lia.
  - rewrite rest_length. unfold Tokenizer_new. cbn [text idx]. lia.
Qed.

(** X16.  The parse of a plain text ends.  For a text of [n] characters,
    each of them white space, a letter, a digit or a character that is a
    token, and none of them [@], [20 * n + 60] units of fuel are enough:
    the parse returns, aborts or faults, and more fuel changes nothing.  So
    the loops of the parser can only run for ever on a character that
    starts no token or in an extern call. *)
Theorem plain_text_parse_ends fuel src :
  plain src = true ->
  N.of_nat (String.length src) + 3 < UINT_MOD ->
  (enough_fuel (String.length src) <= fuel)%nat ->
  run_parse_string fuel src <> Diverged /\
  run_parse_string fuel src = run_parse_string (enough_fuel (String.length src)) src /\
  parses_to src (run_parse_string fuel src).
Proof.
  intros Hp Hlen Hf.
  assert (Hnd : forall f, (enough_fuel (String.length src) <= f)%nat ->
                          run_parse_string f src <> Diverged).
  { intros f Hle. pose proof (parse_string_ends f src Hp Hlen Hle) as H.
    unfold run_parse_string.
    destruct (parse_string f src Parser_new) as [m p | | |];
      [destruct (modules p !! m) | | |]; first [discriminate | contradiction]. }
  split; [apply Hnd, Hf |]. split.
  - destruct (run_parse_string_mono _ fuel src Hf) as [H | H]; [| exact H].
    exfalso. apply (Hnd _ (Nat.le_refl _) H).
  - exists fuel. split; [reflexivity | apply Hnd, Hf].
Qed.

Lemma plain_text_parse_ends_witness :
  run_parse_string 2000 "def f(a, b) { if (a == 1) { x = (a + 2) * -b; } } f(1, 2);" <> Diverged.
Proof.
  apply (plain_text_parse_ends 2000
           "def f(a, b) { if (a == 1) { x = (a + 2) * -b; } } f(1, 2);").
  - vm_compute. reflexivity.
  - vm_compute. reflexivity.
  - vm_compute. lia.
Defined.

Lemma moved_on_of_ends {A} (m : M Parser A) p st a p' :
  ends (text st) true (String.length (rest st)) m ->
  tokenizer p = Some st -> in_text st -> m p = Ok a p' -> moved_on st p'.
Proof.
  intros Hm Hst Hin H. specialize (Hm p st Hst eq_refl Hin (Nat.le_refl _)).
  rewrite H in Hm. destruct Hm as (st' & H1 & H2 & H3 & H4).
  exists st'. split; [exact H1 |]. split; [exact H2 |]. split; [exact H3 |].
  pose proof (in_text_idx st Hin). pose proof (in_text_idx st' H3).
  rewrite !rest_length, H2 in H4. unfold text_length in *. rewrite H2 in *. lia.
Qed.

Lemma le_M_ok {S A} (m m' : M S A) s a s' : le_M m m' -> m s = Ok a s' -> m' s = Ok a s'.
Proof. intros Hle H. destruct (Hle s) as [E | E]; congruence. Qed.

(** X17.  In a plain text whatever is parsed takes a token: when [atom],
    [expr], [stmt] or [block] returns, the tokenizer is in the same text,
    at least one character further on. *)
Theorem parsing_takes_tokens fuel p st :
  tokenizer p = Some st -> in_text st -> plain (text st) = true ->
  (forall a p', atom fuel p = Ok a p' -> moved_on st p') /\
  (forall e p', expr fuel p = Ok e p' -> moved_on st p') /\
  (forall s p', stmt fuel p = Ok s p' -> moved_on st p') /\
  (forall b p', block fuel p = Ok b p' -> moved_on st p').
Proof.
  intros Hst Hin Hp.
  set (n := String.length (rest st)).
  set (big := (fuel + (20 * n + 13))%nat).
  destruct (expr_group_ends (text st) Hp big) as (He & _).
  destruct (block_group_ends (text st) Hp big) as (Hb & _ & Hs & _).
  destruct (block_group_mono fuel big ltac:(lia)) as (Mb & _ & Ms & _).
  split_all.
  - intros a p' H.
    apply (moved_on_of_ends (atom big) p st a p'); try assumption.
    + apply atom_ends; [exact Hp | lia].
    + apply (le_M_ok _ _ _ _ _ (atom_mono fuel big ltac:(lia)) H).
  - intros e p' H.
    apply (moved_on_of_ends (expr big) p st e p'); try assumption.
    + apply He. lia.
    + apply (le_M_ok _ _ _ _ _ (expr_mono fuel big ltac:(lia)) H).
  - intros s p' H.
    apply (moved_on_of_ends (stmt big) p st s p'); try assumption.
    + apply Hs. lia.
    + apply (le_M_ok _ _ _ _ _ Ms H).
  - intros b p' H.
    apply (moved_on_of_ends (block big) p st b p'); try assumption.
    + apply Hb. lia.
    + apply (le_M_ok _ _ _ _ _ Mb H).
Qed.

Lemma parsing_takes_tokens_witness :
  exists s p' st',
    stmt 20 (mkParser (Some (Tokenizer_new "a = 1; b = 2;")) [O] [SymbolTable.new] [Module_new] 0)
      = Ok s p' /\
    tokenizer p' = Some st' /\ 0 < idx st'.
Proof.
  set (p := mkParser (Some (Tokenizer_new "a = 1; b = 2;")) [O] [SymbolTable.new] [Module_new] 0).
  destruct (stmt 20 p) as [s p' | | |] eqn:E; try (exfalso; vm_compute in E; discriminate E).
  destruct (parsing_takes_tokens 20 p (Tokenizer_new "a = 1; b = 2;") eq_refl
              ltac:(solve_in_text) ltac:(vm_compute; reflexivity))
    as (_ & _ & Hs & _).
  destruct (Hs s p' E) as (st' & H1 & _ & _ & H4).
  exists s, p', st'. split; [reflexivity |]. split; [exact H1 | exact H4].
Defined.

(** * Comments *)

Lemma peek_at_token st :
  in_text st -> is_whitespace (head_char (rest st)) = false ->
  peek st = Ok (fst (lex (rest st))) st.
Proof.
  intros Hin Hw.
  pose proof (skip_whitespace_at_token _ Hw) as Hsk.
  rewrite <- (skipped_at_token _ Hw) in Hsk at 2.
  pose proof (get_token_lex_at st _ Hin Hsk) as Hg.
  rewrite (skipped_at_token _ Hw) in Hg.
  unfold peek. rewrite (bind_ok _ _ _ _ _ Hg). reflexivity.
Qed.

Lemma span_append_stop p s1 c s2 :
  all_chars p s1 = true -> p c = false -> span p (s1 +:+ String c s2) = s1.
Proof.
  intros H Hc. induction s1 as [| d s1 IH].
  - rewrite append_nil_l. simpl. rewrite Hc. reflexivity.
  - rewrite append_cons. simpl in *. apply andb_prop in H. destruct H as [Hd Hs].
    rewrite Hd, (IH Hs). reflexivity.
Qed.

Lemma string_drop_app_length s1 s2 : string_drop (String.length s1) (s1 +:+ s2) = s2.
Proof.
  induction s1 as [| d s1 IH]; [apply append_nil_l |].
  rewrite append_cons. simpl. exact IH.
Qed.

Lemma occurs_false_all c s :
  occurs c s = false -> all_chars (fun d => negb (Ascii.eqb d c)) s = true.
Proof.
  induction s as [| d s IH]; simpl; [reflexivity |].
  intros H. apply orb_false_elim in H. destruct H as [Hd Hs].
  rewrite Hd, (IH Hs). reflexivity.
Qed.

(** At a token that starts no statement, [stmt] ends the parse in
    [symbol]. *)
Lemma stmt_at_other_token fuel p st t p1 st1 :
  tokenizer p = Some st -> in_text st ->
  tok peek p = Ok t p1 -> tokenizer p1 = Some st1 ->
  statement_token t = false ->
  stmt (S fuel) p =
    Abort ("Parsing error: Expected symbol. near character '"
           +:+ String (head_char (rest st1)) ("', line " +:+ decimal (lineno st1))).
Proof.
  intros Hp Hin Hpeek Hp1 Hty.
  destruct (tok_peek_again p st t p1 Hp Hin Hpeek) as (Hagain & st1' & Hp1' & Hin1 & _).
  assert (st1' = st1) as -> by congruence.
  unfold statement_token in Hty. simpl. rewrite (bind_ok _ _ _ _ _ Hpeek).
  assert (Hother : forall f, otherstmt f p1 =
    Abort ("Parsing error: Expected symbol. near character '"
           +:+ String (head_char (rest st1)) ("', line " +:+ decimal (lineno st1)))).
  { intros f. unfold otherstmt, symbol.
    apply bind_abort. rewrite (bind_ok _ _ _ _ _ Hagain). apply bind_abort.
    rewrite (expect_fails t Token.SymbolType _ p1 st1 Hp1 (in_text_idx st1 Hin1));
      [reflexivity |].
    unfold Token.isa. apply bool_decide_eq_false. intros E. rewrite E in Hty. discriminate Hty. }
  destruct (Token.type t); try discriminate Hty; apply bind_abort, Hother.
Qed.

(** X18.  A comment stands before a statement.  In the statement loop of a
    block a [#] is skipped to the end of its line, and a statement is parsed
    next whatever follows: when the token after the comment line starts no
    statement (the closing brace of the block, a second comment, the end of
    the text) the parse ends with the error of [symbol()] at that token.  So
    a comment cannot be the last line of a block or of the input, and two
    comment lines cannot follow each other. *)
Theorem comment_needs_a_statement fuel l p st body tail :
  tokenizer p = Some st -> in_text st ->
  rest st = String "#" (body +:+ String LF tail) ->
  occurs LF body = false ->
  statement_token
    (fst (lex (string_drop (String.length (span is_whitespace tail)) tail))) = false ->
  (String.length (rest st) + 3 < fuel)%nat ->
  exists n,
    block_loop fuel l p =
      Abort ("Parsing error: Expected symbol. near character '"
             +:+ String (head_char (string_drop (String.length (span is_whitespace tail)) tail))
                   ("', line " +:+ decimal n)).
Proof.
  intros Hp Hin Hrest Hbody Hty Hf.
  destruct fuel as [| [| fuel]]; try lia.
  assert (Hpeek : peek st = Ok Token.Sharp st).
  { rewrite (peek_at_token st Hin); rewrite Hrest; reflexivity. }
  assert (Hocc : occurs LF (rest st) = true).
  { rewrite Hrest. change (String "#" (body +:+ String LF tail))
      with (String "#" body +:+ String LF tail).
    rewrite occurs_append. apply orb_true_intro. right. reflexivity. }
  pose proof (scan_until_char_found (S fuel) LF st Hin Hocc ltac:(lia)) as Hscan.
  assert (Hspan : span (fun d => negb (Ascii.eqb d LF)) (rest st) = String "#" body).
  { rewrite Hrest. change (String "#" (body +:+ String LF tail))
      with (String "#" body +:+ String LF tail).
    apply span_append_stop.
    - simpl. apply occurs_false_all, Hbody.
    - reflexivity. }
  rewrite Hspan in Hscan.
  set (st1 := at_idx (idx st + N.of_nat (String.length (String "#" body))) st) in *.
  assert (Hrest1 : rest st1 = String LF tail).
  { subst st1. rewrite rest_at_idx_add, at_idx_same, Hrest.
    change (String "#" (body +:+ String LF tail))
      with (String "#" body +:+ String LF tail).
    apply string_drop_app_length. }
  assert (Hin1 : in_text st1).
  { subst st1. apply in_text_advance; [exact Hin |]. rewrite Hrest. simpl.
    rewrite length_append. lia. }
  set (p1 := set_tokenizer (Some st1) p).
  destruct (peek_lex st1 Hin1) as (n & Hpeek1).
  assert (Hrest2 : rest (skipped st1 n) =
                   string_drop (String.length (span is_whitespace tail)) tail).
  { rewrite rest_skipped, Hrest1. reflexivity. }
  rewrite Hrest2 in Hpeek1.
  pose proof (stmt_at_other_token fuel p1 st1 _ _ (skipped st1 n) eq_refl Hin1
                (tok_ok peek p1 st1 _ _ eq_refl Hpeek1) eq_refl Hty) as Hstmt.
  rewrite Hrest2 in Hstmt. exists n.
  cbn [block_loop].
  rewrite (bind_ok _ _ _ _ _ (tok_same peek p st Token.Sharp Hp Hpeek)).
  change (Token.isa Token.Sharp Token.SharpType) with true. cbv iota.
  rewrite (bind_ok _ _ p tt p1).
  - apply bind_abort. exact Hstmt.
  - rewrite (bind_ok _ _ _ _ _ (tok_ok (scan_until_char (S fuel) LF) p st _ _ Hp Hscan)).
    reflexivity.
Qed.

Lemma comment_needs_a_statement_witness :
  let T := "{x = 1;" +:+ String LF ("# done" +:+ String LF "}") in
  let p := mkParser (Some (at_idx 8 (Tokenizer_new T))) [O] [SymbolTable.new] [Module_new] 1 in
  exists n,
    block_loop 40 [] p =
      Abort ("Parsing error: Expected symbol. near character '}', line " +:+ decimal n).
Proof.
  intros T p.
  destruct (comment_needs_a_statement 40 [] p (at_idx 8 (Tokenizer_new T)) " done" "}"
              eq_refl ltac:(solve_in_text) eq_refl eq_refl eq_refl ltac:(vm_compute; lia))
    as (n & H).
  exists n. exact H.
Defined.

(** * Raw text: string literals and embedded commands *)

Lemma lex_Quote r : Token.type (fst (lex r)) = Token.QuoteType -> head_char r = DQUOTE.
Proof.
  destruct r as [| c s]; [discriminate |]. unfold lex. cbn [head_char].
  destruct (Ascii.eqb_spec c DQUOTE) as [-> | Hne]; [reflexivity |].
  intros H. exfalso.
  repeat match type of H with
  | context [if Ascii.eqb c ?d then _ else _] =>
      lazymatch d with
      | "="%char => fail
      | _ => destruct (Ascii.eqb c d); [discriminate H |]
      end
  end.
  destruct (Ascii.eqb c "=").
  { destruct (Ascii.eqb (head_char s) "="); discriminate H. }
  repeat match type of H with
  | context [if Ascii.eqb c ?d then _ else _] =>
      destruct (Ascii.eqb c d); [discriminate H |]
  end.
  destruct (is_digit c).
  - unfold lex_number in H. destruct (Ascii.eqb _ "."); discriminate H.
  - unfold lex_symbol, get_multichar_token in H. cbn [fst] in H.
    destruct (String.eqb _ _); [discriminate H |].
    destruct (String.eqb _ _); discriminate H.
Qed.

(** The character a single-character token is. *)
Lemma lex_head r :
  match Token.type (fst (lex r)) with
  | Token.LParenType => head_char r = "("%char
  | Token.RParenType => head_char r = ")"%char
  | Token.DollarType => head_char r = "$"%char
  | Token.SemicolonType => head_char r = ";"%char
  | Token.CommaType => head_char r = ","%char
  | _ => True
  end.
Proof.
  destruct r as [| c s]; [exact I |]. unfold lex. cbn [head_char].
  repeat match goal with
  | |- context [if Ascii.eqb c ?d then _ else _] =>
      lazymatch d with
      | "="%char => fail
      | _ => destruct (Ascii.eqb_spec c d) as [-> | ?]; [first [reflexivity | exact I] |]
      end
  end.
  destruct (Ascii.eqb c "=").
  { destruct (Ascii.eqb (head_char s) "="); exact I. }
  repeat match goal with
  | |- context [if Ascii.eqb c ?d then _ else _] =>
      destruct (Ascii.eqb_spec c d) as [-> | ?]; [first [reflexivity | exact I] |]
  end.
  destruct (is_digit c).
  - unfold lex_number. destruct (Ascii.eqb _ "."); exact I.
  - unfold lex_symbol, get_multichar_token. cbn [fst].
    destruct (String.eqb _ _); [exact I |].
    destruct (String.eqb _ _); exact I.
Qed.

(** A span ends before a character it does not take. *)
Lemma span_append_within p s1 c s2 :
  p c = false -> span p (s1 +:+ String c s2) = span p s1.
Proof.
  intros Hc. induction s1 as [| d s1 IH].
  - rewrite append_nil_l. simpl. rewrite Hc. reflexivity.
  - rewrite append_cons. simpl. rewrite IH. reflexivity.
Qed.

Lemma occurs_drop_false c n s : occurs c s = false -> occurs c (string_drop n s) = false.
Proof.
  intros H. destruct (occurs c (string_drop n s)) eqn:E; [| reflexivity].
  apply occurs_drop in E. congruence.
Qed.

Lemma all_chars_head p c s : all_chars p (String c s) = true -> p c = true.
Proof. simpl. intros H. apply andb_prop in H. apply H. Qed.

Lemma substring_append_length s1 s2 : String.substring 0 (String.length s1) (s1 +:+ s2) = s1.
Proof.
  induction s1 as [| c s1 IH].
  - rewrite append_nil_l. destruct s2; reflexivity.
  - rewrite append_cons. simpl. rewrite IH. reflexivity.
Qed.

(** ** The scan up to a token

    [scan_until(type)] and [scan_until(type_a, type_b)] stop at a token of
    one character.  [q] holds of the characters that are such a token, and
    [stop] of the tokens. *)
Section ScanTo.

Variable q : ascii -> bool.
Variable stop : Token.t -> bool.

Hypothesis stop_at : forall c s, q c = true -> stop (fst (lex (String c s))) = true.
Hypothesis stop_only_at : forall r, stop (fst (lex r)) = true -> q (head_char r) = true.
Hypothesis q_alone :
  forall c, q c = true ->
    is_digit c = false /\ is_alphanumeric c = false /\ is_whitespace c = false /\
    Ascii.eqb c "." = false /\ Ascii.eqb c "=" = false.

(** No token runs over a stop character: a token that starts before it
    ends before it. *)
Lemma lex_number_within s1 d s2 :
  q d = true -> (snd (lex_number (s1 +:+ String d s2)) <= String.length s1)%nat.
Proof.
  intros Hd. destruct (q_alone d Hd) as (Hdig & _ & _ & Hdot & _).
  unfold lex_number.
  rewrite (span_append_within is_digit s1 d s2 Hdig).
  pose proof (span_length is_digit s1) as Hds.
  set (ds := span is_digit s1) in *.
  rewrite (string_drop_append _ s1 _ Hds).
  pose proof (string_drop_length (String.length ds) s1) as Hlen.
  destruct (string_drop (String.length ds) s1) as [| e s1'] eqn:E.
  - rewrite append_nil_l. cbn [head_char]. rewrite Hdot. exact Hds.
  - rewrite append_cons. cbn [head_char].
    destruct (Ascii.eqb e "."); [| exact Hds].
    change (string_drop 1 (String e (s1' +:+ String d s2)))
      with (s1' +:+ String d s2).
    rewrite (span_append_within is_digit s1' d s2 Hdig). cbn [snd].
    pose proof (span_length is_digit s1'). simpl in Hlen. lia.
Qed.

Lemma lex_within c s1 d s2 :
  q d = true ->
  (snd (lex (String c s1 +:+ String d s2)) <= S (String.length s1))%nat.
Proof.
  intros Hd. destruct (q_alone d Hd) as (_ & Halnum & _ & _ & Heq).
  rewrite append_cons. unfold lex.
  lex_cases c ltac:(simpl; lia).
  destruct (Ascii.eqb c "=").
  { destruct s1 as [| e s1].
    - rewrite append_nil_l. cbn [head_char]. rewrite Heq. simpl. lia.
    - rewrite append_cons. cbn [head_char]. destruct (Ascii.eqb e "="); simpl; lia. }
  lex_cases c ltac:(simpl; lia).
  rewrite <- append_cons. destruct (is_digit c).
  - apply (lex_number_within (String c s1) d s2 Hd).
  - unfold lex_symbol. cbn [snd].
    rewrite (span_append_within is_alphanumeric (String c s1) d s2 Halnum).
    apply (span_length is_alphanumeric (String c s1)).
Qed.

(** The loop stops at the first stop character. *)
Lemma scan_to fuel :
  forall s1 d s2 st t,
    in_text st -> rest st = s1 +:+ String d s2 ->
    q d = true ->
    all_chars (fun c => negb (q c)) s1 = true ->
    all_chars (fun c => negb (no_token_char c)) s1 = true ->
    peek st = Ok t st ->
    (String.length s1 < fuel)%nat ->
    exists l,
      scan_until_loop stop fuel t st =
        Ok tt (mkTokenizer (text st) (idx st + N.of_nat (String.length s1)) l).
Proof.
  induction fuel as [| fuel IH]; intros s1 d s2 st t Hin Hrest Hd Hq Hlex Hpeek Hf; [lia |].
  destruct (next_after_peek st t st Hin Hpeek) as (Ht & Hw & Hnext).
  destruct (q_alone d Hd) as (_ & _ & Hdw & _).
  cbn [scan_until_loop]. destruct s1 as [| c s1].
  - rewrite append_nil_l in Hrest. rewrite Hrest in Ht. subst t.
    rewrite (stop_at d s2 Hd).
    exists (lineno st). unfold ret. f_equal.
    destruct st as [T i l]. simpl. rewrite N.add_0_r. reflexivity.
  - pose proof (all_chars_head _ _ _ Hq) as Hc. cbv beta in Hc.
    assert (Hstop : stop t = false).
    { destruct (stop t) eqn:E; [| reflexivity]. subst t.
      apply stop_only_at in E. rewrite Hrest, append_cons in E. cbn [head_char] in E.
      rewrite E in Hc. discriminate Hc. }
    rewrite Hstop. cbv iota.
    rewrite (bind_ok eos _ st _ st eq_refl).
    pose proof Hrest as Hrest'. rewrite append_cons in Hrest'.
    destruct (rest_cons st _ _ Hrest') as (Hlt & _).
    replace (text_length st <=? idx st) with false by (symmetry; apply N.leb_gt; exact Hlt).
    cbv iota. rewrite (bind_ok _ _ _ _ _ Hnext).
    set (n := snd (lex (rest st))) in *.
    assert (Hn1 : (0 < n)%nat).
    { subst n. rewrite Hrest'. apply lex_progress.
      - apply all_chars_head in Hlex. destruct (no_token_char c); [discriminate Hlex | reflexivity].
      - rewrite Hrest' in Hw. exact Hw. }
    assert (Hn2 : (n <= S (String.length s1))%nat).
    { subst n. rewrite Hrest. apply lex_within. exact Hd. }
    set (sa := at_idx (idx st + N.of_nat n) st) in *.
    assert (Hina : in_text sa).
    { subst sa. apply in_text_advance; [exact Hin | apply lex_bound]. }
    assert (Hresta : rest sa = string_drop n (String c s1) +:+ String d s2).
    { subst sa. rewrite rest_add, Hrest. apply string_drop_append. simpl. lia. }
    destruct (peek_lex sa Hina) as (l & Hpeeka).
    set (sb := skipped sa l) in *.
    set (w := String.length (span is_whitespace (rest sa))).
    assert (Hw2 : (w <= String.length (string_drop n (String c s1)))%nat).
    { subst w. rewrite Hresta, (span_append_within is_whitespace _ d s2 Hdw).
      apply span_length. }
    assert (Hrestb : rest sb =
              string_drop w (string_drop n (String c s1)) +:+ String d s2).
    { subst sb. rewrite rest_skipped. fold w. rewrite Hresta.
      apply string_drop_append, Hw2. }
    pose proof (string_drop_length n (String c s1)) as Hl1.
    pose proof (string_drop_length w (string_drop n (String c s1))) as Hl2.
    change (String.length (String c s1)) with (S (String.length s1)) in Hl1, Hf.
    rewrite (bind_ok _ _ _ _ _ Hpeeka).
    destruct (IH _ d s2 sb _ (in_text_skipped sa l Hina) Hrestb Hd
                (all_chars_drop _ _ _ (all_chars_drop _ n _ Hq))
                (all_chars_drop _ _ _ (all_chars_drop _ n _ Hlex))
                (peek_again sa _ sb Hina Hpeeka) ltac:(lia)) as (l' & Hloop).
    exists l'. rewrite Hloop. f_equal. subst sb sa. unfold skipped. fold w.
    unfold at_idx. cbn [text idx]. f_equal.
    change (String.length (String c s1)) with (S (String.length s1)). lia.
Qed.

(** What the scan returns is the text it went over. *)
Lemma scan_text fuel st body d tail :
  in_text st -> rest st = body +:+ String d tail ->
  q d = true ->
  all_chars (fun c => negb (q c)) body = true ->
  all_chars (fun c => negb (no_token_char c)) body = true ->
  (String.length body < fuel)%nat ->
  exists l,
    (start <- gets idx ;;
     t <- peek ;;
     scan_until_loop stop fuel t ;;;
     i <- gets idx ;;
     substr start (usub i start)) st =
      Ok body (mkTokenizer (text st) (idx st + N.of_nat (String.length body)) l).
Proof.
  intros Hin Hrest Hd Hq Hlex Hf.
  destruct (q_alone d Hd) as (_ & _ & Hdw & _).
  rewrite (bind_ok (gets idx) _ st (idx st) st eq_refl).
  destruct (peek_lex st Hin) as (l & Hpeek).
  set (sb := skipped st l) in *.
  set (w := String.length (span is_whitespace (rest st))).
  assert (Hw : (w <= String.length body)%nat).
  { subst w. rewrite Hrest, (span_append_within is_whitespace _ d tail Hdw).
    apply span_length. }
  assert (Hrestb : rest sb = string_drop w body +:+ String d tail).
  { subst sb. rewrite rest_skipped. fold w. rewrite Hrest. apply string_drop_append, Hw. }
  pose proof (string_drop_length w body) as Hl.
  rewrite (bind_ok _ _ _ _ _ Hpeek).
  destruct (scan_to fuel _ d tail sb _ (in_text_skipped st l Hin) Hrestb Hd
              (all_chars_drop _ _ _ Hq) (all_chars_drop _ _ _ Hlex)
              (peek_again st _ sb Hin Hpeek) ltac:(lia)) as (l' & Hloop).
  rewrite (bind_ok _ _ _ _ _ Hloop).
  set (se := mkTokenizer (text sb) (idx sb + N.of_nat (String.length (string_drop w body))) l').
  rewrite (bind_ok (gets idx) _ se (idx se) se eq_refl).
  assert (Hidx : idx se = idx st + N.of_nat (String.length body)).
  { subst se sb. unfold skipped. cbn [idx text]. fold w. lia. }
  pose proof (in_text_idx st Hin) as Hi. pose proof (in_text_bound st Hin) as Hb.
  assert (Hlen : N.of_nat (String.length body) + idx st < text_length st).
  { pose proof (rest_length st) as Hr. rewrite Hrest, length_append in Hr.
    simpl in Hr. unfold text_length. lia. }
  rewrite Hidx, usub_small by lia.
  rewrite (substr_in_text _ _ se) by (subst se sb; unfold text_length in *; cbn [text skipped]; lia).
  exists l'. f_equal.
  - replace (idx st + N.of_nat (String.length body) - idx st)
      with (N.of_nat (String.length body)) by lia.
    rewrite Nat2N.id. subst se sb. cbn [text skipped].
    rewrite substring_drop. fold (rest st). rewrite Hrest. apply substring_append_length.
  - subst se sb. unfold skipped. cbn [text idx]. fold w. f_equal. lia.
Qed.

End ScanTo.

(** ** String literals *)

Lemma scan_until_quote fuel st body tail :
  in_text st -> rest st = body +:+ String DQUOTE tail ->
  occurs DQUOTE body = false ->
  all_chars (fun c => negb (no_token_char c)) body = true ->
  (String.length body < fuel)%nat ->
  exists l,
    scan_until_type fuel Token.QuoteType st =
      Ok body (mkTokenizer (text st) (idx st + N.of_nat (String.length body)) l).
Proof.
  intros Hin Hrest Hq Hlex Hf.
  apply (scan_text (fun c => Ascii.eqb c DQUOTE) (fun t => Token.isa t Token.QuoteType))
    with (d := DQUOTE) (tail := tail); try assumption.
  - intros c s E. apply Ascii.eqb_eq in E. subst c. reflexivity.
  - intros r E. apply isa_type, lex_Quote in E. rewrite E. reflexivity.
  - intros c E. apply Ascii.eqb_eq in E. subst c. repeat split; reflexivity.
  - reflexivity.
  - apply occurs_false_all, Hq.
Qed.

(** X19.  A string literal is the text between its quotes as it stands.
    At an opening quote, when the text up to the next quote has no character
    that starts no token, [atom] returns the string node of exactly that
    text: white space and newlines are kept, nothing is an escape, and the
    tokenizer is left after the closing quote. *)
Theorem string_literal_is_raw_text fuel p st body tail :
  tokenizer p = Some st -> in_text st ->
  rest st = String DQUOTE (body +:+ String DQUOTE tail) ->
  occurs DQUOTE body = false ->
  all_chars (fun c => negb (no_token_char c)) body = true ->
  (String.length body < fuel)%nat ->
  exists l,
    atom fuel p =
      Ok (String_ body)
         (set_tokenizer
            (Some (mkTokenizer (text st) (idx st + N.of_nat (String.length body) + 2) l)) p).
Proof.
  intros Hp Hin Hrest Hq Hlex Hf.
  assert (Hpeek : peek st = Ok Token.Quote st).
  { rewrite (peek_at_token st Hin); rewrite Hrest; reflexivity. }
  destruct (next_after_peek st _ st Hin Hpeek) as (_ & _ & Hnext).
  rewrite Hrest in Hnext. change (snd (lex (String DQUOTE (body +:+ String DQUOTE tail)))) with 1%nat in Hnext.
  set (s1 := at_idx (idx st + N.of_nat 1) st) in *.
  assert (Hin1 : in_text s1).
  { subst s1. apply in_text_advance; [exact Hin |]. rewrite Hrest. simpl. lia. }
  assert (Hrest1 : rest s1 = body +:+ String DQUOTE tail).
  { subst s1. rewrite rest_add, Hrest. reflexivity. }
  destruct (scan_until_quote fuel s1 body tail Hin1 Hrest1 Hq Hlex Hf) as (l & Hscan).
  set (s2 := mkTokenizer (text s1) (idx s1 + N.of_nat (String.length body)) l) in *.
  assert (Hin2 : in_text s2).
  { pose proof (in_text_advance s1 (String.length body) Hin1
                  ltac:(rewrite Hrest1, length_append; lia)) as H.
    destruct H as [H1 H2]. split; [exact H1 | exact H2]. }
  assert (Hrest2 : rest s2 = String DQUOTE tail).
  { change (rest s2) with (rest (at_idx (idx s1 + N.of_nat (String.length body)) s1)).
    rewrite rest_add, Hrest1. apply string_drop_app_length. }
  assert (Hpeek2 : peek s2 = Ok Token.Quote s2).
  { rewrite (peek_at_token s2 Hin2); rewrite Hrest2; reflexivity. }
  destruct (next_after_peek s2 _ s2 Hin2 Hpeek2) as (_ & _ & Hnext2).
  rewrite Hrest2 in Hnext2. change (snd (lex (String DQUOTE tail))) with 1%nat in Hnext2.
  exists l. unfold atom.
  rewrite (bind_ok _ _ _ _ _ (tok_same peek p st _ Hp Hpeek)).
  rewrite (bind_ok _ _ _ _ _ (tok_ok next p st _ _ Hp Hnext)).
  cbn [Token.type Token.Quote].
  rewrite (bind_ok _ _ _ _ _ (tok_ok (scan_until_type fuel Token.QuoteType)
                                 (set_tokenizer (Some s1) p) s1 _ _ eq_refl Hscan)).
  rewrite (bind_ok _ _ _ _ _ (tok_ok peek (set_tokenizer (Some s2) (set_tokenizer (Some s1) p))
                                 s2 _ _ eq_refl Hpeek2)).
  unfold expect. change (negb (Token.isa Token.Quote Token.QuoteType)) with false. cbv iota.
  rewrite (bind_ok _ _ _ _ _ (tok_ok next
             (set_tokenizer (Some s2) (set_tokenizer (Some s2) (set_tokenizer (Some s1) p)))
             s2 _ _ eq_refl Hnext2)).
  unfold ret. f_equal. unfold set_tokenizer. cbn. f_equal. f_equal.
  subst s2 s1. unfold at_idx. cbn [text idx lineno]. f_equal. lia.
Qed.

Lemma string_literal_is_raw_text_witness :
  let T := "s = " +:+ String DQUOTE ("a  b" +:+ String LF ("c # 1" +:+ String DQUOTE ";")) in
  let p := mkParser (Some (at_idx 4 (Tokenizer_new T))) [O] [SymbolTable.new] [Module_new] 1 in
  exists p', atom 20 p = Ok (String_ ("a  b" +:+ String LF "c # 1")) p'.
Proof.
  intros T p.
  destruct (string_literal_is_raw_text 20 p (at_idx 4 (Tokenizer_new T))
              ("a  b" +:+ String LF "c # 1") ";"
              eq_refl ltac:(solve_in_text) eq_refl eq_refl eq_refl ltac:(vm_compute; lia))
    as (l & H).
  eexists. exact H.
Defined.

(** ** Embedded commands *)

Lemma occurs_false_all2 c d s :
  occurs c s = false -> occurs d s = false ->
  all_chars (fun e => negb (Ascii.eqb e c || Ascii.eqb e d)) s = true.
Proof.
  induction s as [| e s IH]; simpl; [reflexivity |].
  intros H1 H2. apply orb_false_elim in H1. apply orb_false_elim in H2.
  destruct H1 as [H1 H1']. destruct H2 as [H2 H2'].
  rewrite H1, H2, (IH H1' H2'). reflexivity.
Qed.

Lemma scan_until_command fuel st body d tail :
  in_text st -> rest st = body +:+ String d tail ->
  Ascii.eqb d "$" || Ascii.eqb d ")" = true ->
  occurs "$" body = false -> occurs ")" body = false ->
  all_chars (fun c => negb (no_token_char c)) body = true ->
  (String.length body < fuel)%nat ->
  exists l,
    scan_until_types fuel Token.DollarType Token.RParenType st =
      Ok body (mkTokenizer (text st) (idx st + N.of_nat (String.length body)) l).
Proof.
  intros Hin Hrest Hd H1 H2 Hlex Hf.
  apply (scan_text (fun c => Ascii.eqb c "$" || Ascii.eqb c ")")
           (fun t => Token.isa t Token.DollarType || Token.isa t Token.RParenType))
    with (d := d) (tail := tail); try assumption.
  - intros c s E. apply orb_prop in E.
    destruct E as [E | E]; apply Ascii.eqb_eq in E; subst c; reflexivity.
  - intros r E. apply orb_prop in E. pose proof (lex_head r) as H.
    destruct E as [E | E]; apply isa_type in E; rewrite E in H; rewrite H; reflexivity.
  - intros c E. apply orb_prop in E.
    destruct E as [E | E]; apply Ascii.eqb_eq in E; subst c; repeat split; reflexivity.
  - apply occurs_false_all2; assumption.
Qed.

(** At a token of one character: what [peek], [next] and [expect] do. *)
Lemma at_char_token p st c r t ty :
  tokenizer p = Some st -> in_text st ->
  rest st = String c r -> is_whitespace c = false ->
  lex (String c r) = (t, 1%nat) -> Token.type t = ty ->
  tok peek p = Ok t p /\
  (forall msg, expect t ty msg p = Ok tt (set_tokenizer (Some (at_idx (idx st + 1) st)) p)) /\
  in_text (at_idx (idx st + 1) st) /\
  rest (at_idx (idx st + 1) st) = r.
Proof.
  intros Hp Hin Hrest Hw Hlex Hty.
  assert (Hpeek : peek st = Ok t st).
  { rewrite (peek_at_token st Hin); rewrite Hrest; [rewrite Hlex; reflexivity | exact Hw]. }
  destruct (next_after_peek st t st Hin Hpeek) as (_ & _ & Hnext).
  rewrite Hrest, Hlex in Hnext. cbn [snd] in Hnext.
  change (N.of_nat 1) with 1 in Hnext.
  split; [apply (tok_same peek p st t Hp Hpeek) |].
  split.
  - intros msg. unfold expect, Token.isa. rewrite bool_decide_eq_true_2 by exact Hty.
    apply (tok_ok next p st tt _ Hp Hnext).
  - destruct (rest_cons st c r Hrest) as (Hlt & Hr). split; [| exact Hr].
    destruct Hin as [Hi Hb]. split; [| exact Hb]. unfold text_length in *. simpl. lia.
Qed.

(** X20.  An embedded command without variables is one piece of raw text.
    At [@(] followed by a text that has no [$], no closing parenthesis and
    no character that starts no token, then [);], the statement is the
    extern call of a single string fragment, the text as it stands, and
    the tokenizer is left after the semicolon. *)
Theorem command_is_raw_text fuel p st body tail :
  tokenizer p = Some st -> in_text st ->
  rest st = "@(" +:+ body +:+ ");" +:+ tail ->
  occurs "$" body = false -> occurs ")" body = false ->
  all_chars (fun c => negb (no_token_char c)) body = true ->
  (String.length body + 1 < fuel)%nat ->
  exists l,
    externcall fuel p =
      Ok (ExternCall [StrFragment body])
         (set_tokenizer
            (Some (mkTokenizer (text st) (idx st + N.of_nat (String.length body) + 4) l)) p).
Proof.
  intros Hp Hin Hrest H1 H2 Hlex Hf.
  assert (Hrest0 : rest st = String "@" (String "(" (body +:+ String ")" (String ";" tail))))
    by (rewrite Hrest; reflexivity).
  destruct fuel as [| fuel]; [lia |].
  destruct (at_char_token p st _ _ Token.At Token.AtType Hp Hin Hrest0 eq_refl eq_refl eq_refl)
    as (Hpk0 & Hex0 & Hin1 & Hrest1).
  set (s1 := at_idx (idx st + 1) st) in *. set (p1 := set_tokenizer (Some s1) p) in *.
  destruct (at_char_token p1 s1 _ _ Token.LParen Token.LParenType eq_refl Hin1 Hrest1
              eq_refl eq_refl eq_refl) as (Hpk1 & Hex1 & Hin2 & Hrest2).
  set (s2 := at_idx (idx s1 + 1) s1) in *. set (p2 := set_tokenizer (Some s2) p1) in *.
  destruct (scan_until_command fuel s2 body ")" _ Hin2 Hrest2 eq_refl H1 H2 Hlex ltac:(lia))
    as (l & Hscan).
  set (s3 := mkTokenizer (text s2) (idx s2 + N.of_nat (String.length body)) l) in *.
  set (p3 := set_tokenizer (Some s3) p2).
  assert (Hin3 : in_text s3).
  { pose proof (in_text_advance s2 (String.length body) Hin2
                  ltac:(rewrite Hrest2, length_append; lia)) as H.
    destruct H as [Ha Hb]. split; [exact Ha | exact Hb]. }
  assert (Hrest3 : rest s3 = String ")" (String ";" tail)).
  { change (rest s3) with (rest (at_idx (idx s2 + N.of_nat (String.length body)) s2)).
    rewrite rest_add, Hrest2. apply string_drop_app_length. }
  destruct (at_char_token p3 s3 _ _ Token.RParen Token.RParenType eq_refl Hin3 Hrest3
              eq_refl eq_refl eq_refl) as (Hpk3 & Hex3 & Hin4 & Hrest4).
  set (s4 := at_idx (idx s3 + 1) s3) in *. set (p4 := set_tokenizer (Some s4) p3) in *.
  destruct (at_char_token p4 s4 _ _ Token.Semicolon Token.SemicolonType eq_refl Hin4 Hrest4
              eq_refl eq_refl eq_refl) as (Hpk4 & Hex4 & _ & _).
  assert (Hloop : externcall_loop (S fuel) [] p2 = Ok [StrFragment body] p3).
  { cbn [externcall_loop].
    rewrite (bind_ok _ _ _ _ _ (tok_ok (scan_until_types fuel Token.DollarType Token.RParenType)
                                   p2 s2 _ _ eq_refl Hscan)).
    fold p3. cbv zeta.
    rewrite (bind_ok _ _ _ _ _ Hpk3).
    change (Token.isa Token.RParen Token.DollarType) with false. cbv iota.
    rewrite (bind_ok (ret _) _ p3 _ p3 eq_refl).
    rewrite (bind_ok _ _ _ _ _ Hpk3). reflexivity. }
  exists l. unfold externcall.
  rewrite (bind_ok _ _ _ _ _ Hpk0), (bind_ok _ _ _ _ _ (Hex0 _)).
  rewrite (bind_ok _ _ _ _ _ Hpk1), (bind_ok _ _ _ _ _ (Hex1 _)).
  rewrite (bind_ok _ _ _ _ _ Hloop).
  rewrite (bind_ok _ _ _ _ _ Hpk3), (bind_ok _ _ _ _ _ (Hex3 _)).
  rewrite (bind_ok _ _ _ _ _ Hpk4), (bind_ok _ _ _ _ _ (Hex4 _)).
  unfold ret. f_equal. subst p4 p3 p2 p1. unfold set_tokenizer. cbn. f_equal. f_equal.
  subst s4 s3 s2 s1. unfold at_idx. cbn [text idx lineno]. f_equal. lia.
Qed.

Lemma command_is_raw_text_witness :
  let T := "@(ls -l  /tmp);x = 1;" in
  let p := mkParser (Some (Tokenizer_new T)) [O] [SymbolTable.new] [Module_new] 0 in
  exists p', externcall 20 p = Ok (ExternCall [StrFragment "ls -l  /tmp"]) p'.
Proof.
  intros T p.
  destruct (command_is_raw_text 20 p (Tokenizer_new T) "ls -l  /tmp" "x = 1;"
              eq_refl ltac:(solve_in_text) eq_refl eq_refl eq_refl eq_refl
              ltac:(vm_compute; lia))
    as (l & H).
  eexists. exact H.
Defined.

Lemma span_whole p s : all_chars p s = true -> span p s = s.
Proof.
  induction s as [| c s IH]; simpl; [reflexivity |].
  intros H. apply andb_prop in H. destruct H as [Hc Hs]. rewrite Hc, (IH Hs). reflexivity.
Qed.

(** A word before a character that is no letter and no digit is the
    symbol of that name. *)
Lemma lex_word c w d r :
  is_letter c = true -> all_chars is_alphanumeric (String c w) = true ->
  is_alphanumeric d = false ->
  String c w <> "if" -> String c w <> "def" ->
  lex (String c w +:+ String d r) =
    (Token.Symbol (String c w), String.length (String c w)).
Proof.
  intros Hc Hw Hd Hif Hdef. rewrite append_cons, (lex_letter c _ Hc), <- append_cons.
  unfold lex_symbol. rewrite (span_append_within is_alphanumeric _ d r Hd), (span_whole _ _ Hw).
  unfold get_multichar_token. cbn [Token.value Token.If Token.Def].
  rewrite (proj2 (String.eqb_neq _ _) Hif), (proj2 (String.eqb_neq _ _) Hdef). reflexivity.
Qed.

(** X21.  A variable in an embedded command is the variable of the
    program.  At [@(] followed by a text without [$] and closing
    parenthesis, then [$] and a name, then [);], where the name is bound to
    a variable in a scope that is open, the statement is the extern call of
    two fragments: the text as it stands, and that very variable. *)
Theorem command_variable_is_the_program_variable fuel p st body c w tail v :
  tokenizer p = Some st -> in_text st ->
  rest st = "@(" +:+ body +:+ "$" +:+ String c w +:+ ");" +:+ tail ->
  occurs "$" body = false -> occurs ")" body = false ->
  all_chars (fun c => negb (no_token_char c)) body = true ->
  is_letter c = true -> all_chars is_alphanumeric (String c w) = true ->
  String c w <> "if" -> String c w <> "def" ->
  first_match (String c w) (symbol_table_stack p) = Some (Variable_ v) ->
  (String.length body + 1 < fuel)%nat ->
  exists l,
    externcall fuel p =
      Ok (ExternCall [StrFragment body; VarFragment v])
         (set_tokenizer
            (Some (mkTokenizer (text st)
                     (idx st + N.of_nat (String.length body + String.length (String c w)) + 5) l))
            p).
Proof.
  intros Hp Hin Hrest H1 H2 Hlex Hc Hw Hif Hdef Hv Hf.
  set (name := String c w) in *.
  assert (Hrest0 : rest st =
            String "@" (String "(" (body +:+ String "$" (name +:+ String ")" (String ";" tail)))))
    by (rewrite Hrest; reflexivity).
  destruct fuel as [| fuel]; [lia |].
  destruct (at_char_token p st _ _ Token.At Token.AtType Hp Hin Hrest0 eq_refl eq_refl eq_refl)
    as (Hpk0 & Hex0 & Hin1 & Hrest1).
  set (s1 := at_idx (idx st + 1) st) in *. set (p1 := set_tokenizer (Some s1) p) in *.
  destruct (at_char_token p1 s1 _ _ Token.LParen Token.LParenType eq_refl Hin1 Hrest1
              eq_refl eq_refl eq_refl) as (Hpk1 & Hex1 & Hin2 & Hrest2).
  set (s2 := at_idx (idx s1 + 1) s1) in *. set (p2 := set_tokenizer (Some s2) p1) in *.
  destruct (scan_until_command fuel s2 body "$" _ Hin2 Hrest2 eq_refl H1 H2 Hlex ltac:(lia))
    as (l & Hscan).
  set (s3 := mkTokenizer (text s2) (idx s2 + N.of_nat (String.length body)) l) in *.
  set (p3 := set_tokenizer (Some s3) p2).
  assert (Hin3 : in_text s3).
  { pose proof (in_text_advance s2 (String.length body) Hin2
                  ltac:(rewrite Hrest2, length_append; lia)) as H.
    destruct H as [Ha Hb]. split; [exact Ha | exact Hb]. }
  assert (Hrest3 : rest s3 = String "$" (name +:+ String ")" (String ";" tail))).
  { change (rest s3) with (rest (at_idx (idx s2 + N.of_nat (String.length body)) s2)).
    rewrite rest_add, Hrest2. apply string_drop_app_length. }
  destruct (at_char_token p3 s3 _ _ Token.Dollar Token.DollarType eq_refl Hin3 Hrest3
              eq_refl eq_refl eq_refl) as (Hpk3 & Hex3 & Hin4 & Hrest4).
  set (s4 := at_idx (idx s3 + 1) s3) in *. set (p4 := set_tokenizer (Some s4) p3) in *.
  (* the name *)
  pose proof (lex_word c w ")" (String ";" tail) Hc Hw eq_refl Hif Hdef) as Hword.
  fold name in Hword.
  assert (Hpk4 : peek s4 = Ok (Token.Symbol name) s4).
  { rewrite (peek_at_token s4 Hin4); rewrite Hrest4.
    - rewrite Hword. reflexivity.
    - subst name. rewrite append_cons. cbn [head_char]. apply is_letter_not_whitespace, Hc. }
  destruct (next_after_peek s4 _ s4 Hin4 Hpk4) as (_ & _ & Hnext4).
  rewrite Hrest4, Hword in Hnext4. cbn [snd] in Hnext4.
  set (s5 := at_idx (idx s4 + N.of_nat (String.length name)) s4) in *.
  set (p5 := set_tokenizer (Some s5) p4).
  assert (Hin5 : in_text s5).
  { subst s5. apply in_text_advance; [exact Hin4 |]. rewrite Hrest4, length_append. lia. }
  assert (Hrest5 : rest s5 = String ")" (String ";" tail)).
  { subst s5. rewrite rest_add, Hrest4. apply string_drop_app_length. }
  assert (Hvar : var p4 = Ok v p5).
  { unfold var.
    rewrite (bind_ok _ _ _ _ _ (tok_same peek p4 s4 _ eq_refl Hpk4)). cbv zeta.
    rewrite (bind_ok _ _ _ _ _ (tok_same peek p4 s4 _ eq_refl Hpk4)).
    unfold expect. change (negb (Token.isa (Token.Symbol name) Token.SymbolType)) with false.
    cbv iota. rewrite (bind_ok _ _ _ _ _ (tok_ok next p4 s4 _ _ eq_refl Hnext4)).
    fold p5. apply lookup_or_new_var_found. exact Hv. }
  destruct (at_char_token p5 s5 _ _ Token.RParen Token.RParenType eq_refl Hin5 Hrest5
              eq_refl eq_refl eq_refl) as (Hpk5 & Hex5 & Hin6 & Hrest6).
  set (s6 := at_idx (idx s5 + 1) s5) in *. set (p6 := set_tokenizer (Some s6) p5) in *.
  destruct (at_char_token p6 s6 _ _ Token.Semicolon Token.SemicolonType eq_refl Hin6 Hrest6
              eq_refl eq_refl eq_refl) as (Hpk6 & Hex6 & _ & _).
  assert (Hloop : externcall_loop (S fuel) [] p2 =
                  Ok [StrFragment body; VarFragment v] p5).
  { cbn [externcall_loop].
    rewrite (bind_ok _ _ _ _ _ (tok_ok (scan_until_types fuel Token.DollarType Token.RParenType)
                                   p2 s2 _ _ eq_refl Hscan)).
    fold p3. cbv zeta.
    rewrite (bind_ok _ _ _ _ _ Hpk3).
    change (Token.isa Token.Dollar Token.DollarType) with true. cbv iota.
    assert (Hnext3 : tok next p3 = Ok tt p4).
    { pose proof (Hex3 EmptyString) as H. unfold expect in H.
      change (negb (Token.isa Token.Dollar Token.DollarType)) with false in H. exact H. }
    rewrite (bind_ok _ _ p3 (push_var v (push_str body [])) p5).
    - rewrite (bind_ok _ _ _ _ _ Hpk5). reflexivity.
    - rewrite (bind_ok _ _ _ _ _ Hnext3), (bind_ok _ _ _ _ _ Hvar). reflexivity. }
  exists l. unfold externcall.
  rewrite (bind_ok _ _ _ _ _ Hpk0), (bind_ok _ _ _ _ _ (Hex0 _)).
  rewrite (bind_ok _ _ _ _ _ Hpk1), (bind_ok _ _ _ _ _ (Hex1 _)).
  rewrite (bind_ok _ _ _ _ _ Hloop).
  rewrite (bind_ok _ _ _ _ _ Hpk5), (bind_ok _ _ _ _ _ (Hex5 _)).
  rewrite (bind_ok _ _ _ _ _ Hpk6), (bind_ok _ _ _ _ _ (Hex6 _)).
  unfold ret. f_equal. subst p6 p5 p4 p3 p2 p1. unfold set_tokenizer. cbn. f_equal. f_equal.
  subst s6 s5 s4 s3 s2 s1. unfold at_idx. cbn [text idx lineno]. f_equal. lia.
Qed.

Lemma command_variable_is_the_program_variable_witness :
  let x := mkVariable 0 "x" in
  let p := mkParser (Some (Tokenizer_new "@(echo $x);")) [O]
             [SymbolTable.insert "x" (Variable_ x) UndefinedTy SymbolTable.new]
             [Module_new] 1 in
  exists p', externcall 20 p = Ok (ExternCall [StrFragment "echo "; VarFragment x]) p'.
Proof.
  intros x p.
  destruct (command_variable_is_the_program_variable 20 p (Tokenizer_new "@(echo $x);")
              "echo " "x" "" "" x
              eq_refl ltac:(solve_in_text) eq_refl eq_refl eq_refl eq_refl eq_refl eq_refl
              ltac:(discriminate) ltac:(discriminate) ltac:(vm_compute; reflexivity)
              ltac:(vm_compute; lia))
    as (l & H).
  eexists. exact H.
Defined.
(** * Strings and commands that are not closed *)

Lemma rest_at_end st : idx st = text_length st -> rest st = EmptyString.
Proof.
  intros E. unfold rest, text_length in *. rewrite E, Nat2N.id.
  rewrite <- (append_nil_r (text st)) at 2. apply string_drop_app_length.
Qed.

Lemma rest_later st st' :
  text st' = text st -> idx st <= idx st' ->
  rest st' = string_drop (N.to_nat (idx st' - idx st)) (rest st).
Proof.
  intros Ht Hi. unfold rest. rewrite Ht, <- string_drop_add. f_equal. lia.
Qed.

(** The token peeked is the one at the head of what is left. *)
Lemma peek_stop_char st t c :
  in_text st -> peek st = Ok t st ->
  head_char (rest st) = c -> c <> NUL -> occurs c (rest st) = true.
Proof.
  intros _ _ H Hc. destruct (head_char_not_NUL _ _ H Hc) as (s & ->).
  simpl. rewrite Ascii.eqb_refl. reflexivity.
Qed.

(** With fuel for the characters left, none of which starts no token, the
    token scan returns. *)
Lemma scan_until_loop_returns stop fuel :
  forall t st,
    in_text st ->
    all_chars (fun c => negb (no_token_char c)) (rest st) = true ->
    peek st = Ok t st ->
    (String.length (rest st) < fuel)%nat ->
    exists st', scan_until_loop stop fuel t st = Ok tt st'.
Proof.
  induction fuel as [| fuel IH]; intros t st Hin Hlex Hpeek Hf; [lia |].
  cbn [scan_until_loop]. destruct (stop t); [eexists; reflexivity |].
  rewrite (bind_ok eos _ st _ st eq_refl).
  destruct (text_length st <=? idx st) eqn:Ee; [eexists; reflexivity |].
  apply N.leb_gt in Ee.
  destruct (next_after_peek st t st Hin Hpeek) as (_ & Hw & Hnext).
  rewrite (bind_ok _ _ _ _ _ Hnext).
  destruct (rest st) as [| c s] eqn:Hrest.
  { apply rest_nil in Hrest. lia. }
  set (n := snd (lex (String c s))) in *.
  assert (Hn : (0 < n)%nat).
  { apply lex_progress; [| exact Hw].
    apply all_chars_head in Hlex. destruct (no_token_char c); [discriminate Hlex | reflexivity]. }
  pose proof (lex_bound (String c s)) as Hb. fold n in Hb.
  set (sa := at_idx (idx st + N.of_nat n) st) in *.
  assert (Hina : in_text sa).
  { subst sa. apply in_text_advance; [exact Hin | rewrite Hrest; exact Hb]. }
  assert (Hresta : rest sa = string_drop n (String c s)).
  { subst sa. rewrite rest_add, Hrest. reflexivity. }
  destruct (peek_lex sa Hina) as (l & Hpeeka).
  rewrite (bind_ok _ _ _ _ _ Hpeeka).
  apply IH.
  - apply in_text_skipped, Hina.
  - rewrite rest_skipped, Hresta. apply all_chars_drop, all_chars_drop, Hlex.
  - apply (peek_again sa _ _ Hina Hpeeka).
  - rewrite rest_skipped, Hresta, !string_drop_length. simpl in Hf |- *. lia.
Qed.

Lemma scan_until_type_returns fuel ty st :
  in_text st ->
  all_chars (fun c => negb (no_token_char c)) (rest st) = true ->
  (String.length (rest st) < fuel)%nat ->
  exists s st', scan_until_type fuel ty st = Ok s st'.
Proof.
  intros Hin Hlex Hf. unfold scan_until_type.
  rewrite (bind_ok (gets idx) _ st (idx st) st eq_refl).
  destruct (peek_lex st Hin) as (l & Hpeek).
  rewrite (bind_ok _ _ _ _ _ Hpeek).
  destruct (scan_until_loop_returns (fun t => Token.isa t ty) fuel _ (skipped st l)
              (in_text_skipped st l Hin)
              ltac:(rewrite rest_skipped; apply all_chars_drop, Hlex)
              (peek_again st _ _ Hin Hpeek)
              ltac:(rewrite rest_skipped, string_drop_length; lia)) as (st' & Hloop).
  rewrite (bind_ok _ _ _ _ _ Hloop).
  rewrite (bind_ok (gets idx) _ st' (idx st') st' eq_refl).
  destruct (scan_until_loop_in_text (fun t => Token.isa t ty) fuel
              (fst (lex (rest (skipped st l)))) (skipped st l)
              (in_text_skipped st l Hin)) as [H | (st'' & H & _ & Ht)];
    rewrite Hloop in H; [discriminate H |]. injection H as <-.
  rewrite substr_in_text; [eexists _, _; reflexivity |].
  rewrite (text_length_same st st' Ht). apply in_text_idx, Hin.
Qed.

(** A quoted string that is not closed: the scan for the closing quote
    ends at the end of the text, or never, and [atom] returns nothing. *)
Lemma atom_unterminated fuel p st body :
  tokenizer p = Some st -> in_text st ->
  rest st = String DQUOTE body -> occurs DQUOTE body = false ->
  (atom fuel p = OutOfFuel \/
   exists l, atom fuel p =
     Abort ("Parsing error: Unmatched '" +:+ String DQUOTE "' near character '"
            +:+ String NUL ("', line " +:+ decimal l))) /\
  (all_chars (fun c => negb (no_token_char c)) body = true ->
   (String.length body < fuel)%nat ->
   exists l, atom fuel p =
     Abort ("Parsing error: Unmatched '" +:+ String DQUOTE "' near character '"
            +:+ String NUL ("', line " +:+ decimal l))).
Proof.
  intros Hp Hin Hrest Hq.
  destruct (at_char_token p st _ _ Token.Quote Token.QuoteType Hp Hin Hrest eq_refl eq_refl eq_refl)
    as (Hpk & Hex & Hin1 & Hrest1).
  set (s1 := at_idx (idx st + 1) st) in *. set (p1 := set_tokenizer (Some s1) p) in *.
  assert (Hnext : tok next p = Ok tt p1).
  { pose proof (Hex EmptyString) as H. unfold expect in H.
    change (negb (Token.isa Token.Quote Token.QuoteType)) with false in H. exact H. }
  assert (Hatom : atom fuel p =
            bind (tok (scan_until_type fuel Token.QuoteType))
              (fun str => bind (tok peek)
                 (fun q => bind (expect q Token.QuoteType ("Unmatched '" +:+ String DQUOTE "'"))
                    (fun _ => ret (String_ str)))) p1).
  { unfold atom. rewrite (bind_ok _ _ _ _ _ Hpk), (bind_ok _ _ _ _ _ Hnext). reflexivity. }
  assert (Hdone : forall s s2,
            scan_until_type fuel Token.QuoteType s1 = Ok s s2 ->
            atom fuel p =
              Abort ("Parsing error: Unmatched '" +:+ String DQUOTE "' near character '"
                     +:+ String NUL ("', line " +:+ decimal (lineno s2)))).
  { intros s s2 Hscan.
    destruct (scan_until_stops _ fuel s1 s s2 Hin1 Hscan)
      as (Hin2 & Ht2 & Hi2 & _ & t & Hpeek2 & Hstop).
    assert (Hend : idx s2 = text_length s2).
    { destruct Hstop as [Hstop | Hend]; [| exact Hend]. exfalso.
      destruct (next_after_peek s2 t s2 Hin2 Hpeek2) as (Ht & _ & _). subst t.
      apply isa_type, lex_Quote in Hstop.
      pose proof (peek_stop_char s2 _ DQUOTE Hin2 Hpeek2 Hstop ltac:(discriminate)) as Hocc.
      rewrite (rest_later s1 s2 Ht2 Hi2), Hrest1 in Hocc.
      apply occurs_drop in Hocc. congruence. }
    rewrite Hatom.
    rewrite (bind_ok _ _ _ _ _ (tok_ok _ p1 s1 _ _ eq_refl Hscan)).
    set (p2 := set_tokenizer (Some s2) p1).
    rewrite (bind_ok _ _ _ _ _ (tok_same peek p2 s2 _ eq_refl (peek_at_end s2 Hend))).
    apply bind_abort.
    rewrite (expect_fails Token.EOS Token.QuoteType _ p2 s2 eq_refl (in_text_idx s2 Hin2) eq_refl).
    rewrite (rest_at_end s2 Hend). reflexivity. }
  split.
  - destruct (scan_until_type_in_text fuel Token.QuoteType s1 Hin1)
      as [H | (s & s2 & H & _)].
    + left. rewrite Hatom. apply bind_out_of_fuel, (tok_out_of_fuel _ p1 s1 eq_refl H).
    + right. eexists. apply (Hdone s s2 H).
  - intros Hlex Hf.
    destruct (scan_until_type_returns fuel Token.QuoteType s1 Hin1
                ltac:(rewrite Hrest1; exact Hlex) ltac:(rewrite Hrest1; exact Hf))
      as (s & s2 & H).
    eexists. apply (Hdone s s2 H).
Qed.

(** An embedded command that is not closed: without [$] and [)] up to
    the end of the text the scan of its body ends there, or never, and the
    loop of [externcall] goes round for ever. *)
Lemma externcall_unterminated fuel p st body :
  tokenizer p = Some st -> in_text st ->
  rest st = "@(" +:+ body ->
  occurs "$" body = false -> occurs ")" body = false ->
  externcall fuel p = OutOfFuel.
Proof.
  intros Hp Hin Hrest H1 H2.
  assert (Hrest0 : rest st = String "@" (String "(" body)) by (rewrite Hrest; reflexivity).
  destruct (at_char_token p st _ _ Token.At Token.AtType Hp Hin Hrest0 eq_refl eq_refl eq_refl)
    as (Hpk0 & Hex0 & Hin1 & Hrest1).
  set (s1 := at_idx (idx st + 1) st) in *. set (p1 := set_tokenizer (Some s1) p) in *.
  destruct (at_char_token p1 s1 _ _ Token.LParen Token.LParenType eq_refl Hin1 Hrest1
              eq_refl eq_refl eq_refl) as (Hpk1 & Hex1 & Hin2 & Hrest2).
  set (s2 := at_idx (idx s1 + 1) s1) in *. set (p2 := set_tokenizer (Some s2) p1) in *.
  unfold externcall.
  rewrite (bind_ok _ _ _ _ _ Hpk0), (bind_ok _ _ _ _ _ (Hex0 _)).
  rewrite (bind_ok _ _ _ _ _ Hpk1), (bind_ok _ _ _ _ _ (Hex1 _)).
  apply bind_out_of_fuel.
  destruct fuel as [| fuel]; [reflexivity |]. cbn [externcall_loop].
  destruct (scan_until_types_in_text fuel Token.DollarType Token.RParenType s2 Hin2)
    as [H | (s & s3 & Hscan & _)].
  { apply bind_out_of_fuel, (tok_out_of_fuel _ p2 s2 eq_refl H). }
  destruct (scan_until_stops _ fuel s2 s s3 Hin2 Hscan)
    as (Hin3 & Ht3 & Hi3 & _ & t & Hpeek3 & Hstop).
  assert (Hend : idx s3 = text_length s3).
  { destruct Hstop as [Hstop | Hend]; [| exact Hend]. exfalso.
    destruct (next_after_peek s3 t s3 Hin3 Hpeek3) as (Ht & _ & _). subst t.
    pose proof (lex_head (rest s3)) as Hh.
    apply orb_prop in Hstop. destruct Hstop as [Hstop | Hstop];
      apply isa_type in Hstop; rewrite Hstop in Hh;
      pose proof (peek_stop_char s3 _ _ Hin3 Hpeek3 Hh ltac:(discriminate)) as Hocc;
      rewrite (rest_later s2 s3 Ht3 Hi3), Hrest2 in Hocc;
      apply occurs_drop in Hocc; congruence. }
  rewrite (bind_ok _ _ _ _ _ (tok_ok _ p2 s2 _ _ eq_refl Hscan)).
  set (p3 := set_tokenizer (Some s3) p2). cbv zeta.
  rewrite (bind_ok _ _ _ _ _ (tok_same peek p3 s3 _ eq_refl (peek_at_end s3 Hend))).
  change (Token.isa Token.EOS Token.DollarType) with false. cbv iota.
  rewrite (bind_ok (ret _) _ p3 _ p3 eq_refl).
  rewrite (bind_ok _ _ _ _ _ (tok_same peek p3 s3 _ eq_refl (peek_at_end s3 Hend))).
  change (negb (Token.isa Token.EOS Token.RParenType)) with true. cbv iota.
  apply (externcall_loop_at_end fuel _ p3 s3 eq_refl Hend).
Qed.

(** White space before the token changes nothing: the first thing [atom]
    and [externcall] do is a [peek], which skips it. *)
Lemma peek_skip {A} (k : Token.t -> M Parser A) p st t p1 :
  tokenizer p = Some st -> in_text st -> tok peek p = Ok t p1 ->
  bind (tok peek) k p = bind (tok peek) k p1.
Proof.
  intros Hp Hin H.
  destruct (tok_peek_again p st t p1 Hp Hin H) as (Hagain & _).
  rewrite (bind_ok _ _ _ _ _ H), (bind_ok _ _ _ _ _ Hagain). reflexivity.
Qed.

Lemma peek_over_whitespace p st ws c r :
  tokenizer p = Some st -> in_text st ->
  rest st = ws +:+ String c r ->
  all_chars is_whitespace ws = true -> is_whitespace c = false ->
  exists t st1,
    tok peek p = Ok t (set_tokenizer (Some st1) p) /\
    in_text st1 /\ rest st1 = String c r.
Proof.
  intros Hp Hin Hrest Hws Hc.
  destruct (peek_lex st Hin) as (l & Hpeek).
  exists (fst (lex (rest (skipped st l)))), (skipped st l).
  split; [apply (tok_ok peek p st _ _ Hp Hpeek) |].
  split; [apply in_text_skipped, Hin |].
  rewrite rest_skipped, Hrest, (span_append_stop is_whitespace ws c r Hws Hc).
  apply string_drop_app_length.
Qed.

Lemma atom_unterminated_after_whitespace fuel p st ws body :
  tokenizer p = Some st -> in_text st ->
  rest st = ws +:+ String DQUOTE body ->
  all_chars is_whitespace ws = true -> occurs DQUOTE body = false ->
  (atom fuel p = OutOfFuel \/
   exists l, atom fuel p =
     Abort ("Parsing error: Unmatched '" +:+ String DQUOTE "' near character '"
            +:+ String NUL ("', line " +:+ decimal l))) /\
  (all_chars (fun c => negb (no_token_char c)) body = true ->
   (String.length body < fuel)%nat ->
   exists l, atom fuel p =
     Abort ("Parsing error: Unmatched '" +:+ String DQUOTE "' near character '"
            +:+ String NUL ("', line " +:+ decimal l))).
Proof.
  intros Hp Hin Hrest Hws Hq.
  destruct (peek_over_whitespace p st ws DQUOTE body Hp Hin Hrest Hws eq_refl)
    as (t & st1 & Hpeek & Hin1 & Hrest1).
  assert (E : atom fuel p = atom fuel (set_tokenizer (Some st1) p)).
  { unfold atom. apply (peek_skip _ p st t _ Hp Hin Hpeek). }
  rewrite E.
  apply (atom_unterminated fuel (set_tokenizer (Some st1) p) st1 body eq_refl Hin1 Hrest1 Hq).
Qed.

Lemma externcall_unterminated_after_whitespace fuel p st ws body :
  tokenizer p = Some st -> in_text st ->
  rest st = ws +:+ "@(" +:+ body ->
  all_chars is_whitespace ws = true ->
  occurs "$" body = false -> occurs ")" body = false ->
  externcall fuel p = OutOfFuel.
Proof.
  intros Hp Hin Hrest Hws H1 H2.
  assert (Hrest0 : rest st = ws +:+ String "@" ("(" +:+ body))
    by (rewrite Hrest; reflexivity).
  destruct (peek_over_whitespace p st ws "@" _ Hp Hin Hrest0 Hws eq_refl)
    as (t & st1 & Hpeek & Hin1 & Hrest1).
  assert (E : externcall fuel p = externcall fuel (set_tokenizer (Some st1) p)).
  { unfold externcall. apply (peek_skip _ p st t _ Hp Hin Hpeek). }
  rewrite E.
  apply (externcall_unterminated fuel (set_tokenizer (Some st1) p) st1 body eq_refl Hin1);
    [rewrite Hrest1; reflexivity | exact H1 | exact H2].
Qed.

(** C5, as amended.  [scan_until(char c)] tests no bound: from a position
    of the text, when [c] is not the terminator and does not occur at or
    after the position, the scan reads the terminator, goes on, and reads
    outside the buffer (so it never returns, whatever the fuel).  Its one
    caller is the comment skip of [Parser::block], so the input whose scan
    leaves the buffer is a comment without a newline after it.  The bodies
    of quoted strings and of embedded commands are scanned by
    [scan_until(type)] and [scan_until(type_a, type_b)], which test [eos()]:
    from a position of the text they never read outside it.  A quoted
    string that is not closed (after any white space, a quote with no
    second quote up to the end of the text) gives no string and no read
    outside the text: the scan for the closing quote ends at the end of
    the text, where [atom] ends the parse with the error for the missing
    quote, or it never ends; it does end when every character of the body
    is white space or starts a token.  An embedded command whose body has no [$] and no
    closing parenthesis up to the end of the text never ends: at the end of
    the text the scan returns at once, the token is neither [$] nor [)],
    and the loop of [externcall] goes round again with the tokenizer as it
    was. *)
Theorem scan_until_char_unbounded :
  (forall fuel c st,
     in_text st -> c <> NUL -> occurs c (rest st) = false ->
     (scan_until_char fuel c st = OutOfFuel \/
      scan_until_char fuel c st = Fault (OutOfBounds (text_length st + 1))) /\
     ((String.length (rest st) + 1 < fuel)%nat ->
      scan_until_char fuel c st = Fault (OutOfBounds (text_length st + 1)))) /\
  (forall fuel ty st,
     in_text st ->
     scan_until_type fuel ty st = OutOfFuel \/
     exists s st', scan_until_type fuel ty st = Ok s st' /\ in_text st') /\
  (forall fuel a b st,
     in_text st ->
     scan_until_types fuel a b st = OutOfFuel \/
     exists s st', scan_until_types fuel a b st = Ok s st' /\ in_text st') /\
  parses_to "a = 1; # no newline" (Faulted (OutOfBounds 22)) /\
  parses_to ("a = " +:+ String DQUOTE "abc")
    (Aborted ("Parsing error: Unmatched '" +:+ String DQUOTE "' near character '"
              +:+ String NUL "', line 1")) /\
  (forall fuel body p st,
     tokenizer p = Some st -> idx st = text_length st ->
     externcall_loop fuel body p = OutOfFuel) /\
  diverges "@(echo" /\
  (forall fuel p st ws body,
     tokenizer p = Some st -> in_text st ->
     rest st = ws +:+ String DQUOTE body ->
     all_chars is_whitespace ws = true -> occurs DQUOTE body = false ->
     (atom fuel p = OutOfFuel \/
      exists l, atom fuel p =
        Abort ("Parsing error: Unmatched '" +:+ String DQUOTE "' near character '"
               +:+ String NUL ("', line " +:+ decimal l))) /\
     (all_chars (fun c => negb (no_token_char c)) body = true ->
      (String.length body < fuel)%nat ->
      exists l, atom fuel p =
        Abort ("Parsing error: Unmatched '" +:+ String DQUOTE "' near character '"
               +:+ String NUL ("', line " +:+ decimal l)))) /\
  (forall fuel p st ws body,
     tokenizer p = Some st -> in_text st ->
     rest st = ws +:+ "@(" +:+ body ->
     all_chars is_whitespace ws = true ->
     occurs "$" body = false -> occurs ")" body = false ->
     externcall fuel p = OutOfFuel).
Proof.
  split_all.
  - intros fuel c st Hin Hc Hocc. split.
    + apply scan_until_char_never_returns; assumption.
    + intros Hfuel. apply scan_until_char_past_end; assumption.
  - intros fuel ty st Hin.
    destruct (scan_until_type_in_text fuel ty st Hin) as [H | (s & st' & H & Hin' & _)];
      [left; exact H | right; eauto].
  - intros fuel a b st Hin.
    destruct (scan_until_types_in_text fuel a b st Hin) as [H | (s & st' & H & Hin' & _)];
      [left; exact H | right; eauto].
  - parses_with 40%nat.
  - parses_with 40%nat.
  - intros fuel body p st Hp E. apply (externcall_loop_at_end fuel body p st Hp E).
  - apply diverges_from_parse_string, unterminated_command_never_parsed.
  - intros fuel p st ws body. apply atom_unterminated_after_whitespace.
  - intros fuel p st ws body. apply externcall_unterminated_after_whitespace.
Qed.

Lemma scan_until_char_unbounded_witness :
  let st := at_idx 1 (Tokenizer_new "{# comment}") in
  in_text st /\ LF <> NUL /\ occurs LF (rest st) = false /\
  scan_until_char 20 LF st = Fault (OutOfBounds 12).
Proof.
  intros st.
  assert (Hin : in_text st) by solve_in_text.
  assert (Hc : LF <> NUL) by discriminate.
  split; [exact Hin |]. split; [exact Hc |]. split; [reflexivity |].
  apply (proj1 scan_until_char_unbounded 20%nat LF st Hin Hc eq_refl).
  vm_compute. lia.
Defined.

(** C5, the claim as stated fails: an unterminated quoted string does not
    read past the buffer, the parse ends in a fatal error. *)
Lemma unterminated_string_is_rejected :
  parses_to ("x = " +:+ String DQUOTE "abc")
    (Aborted ("Parsing error: Unmatched '" +:+ String DQUOTE "' near character '"
              +:+ String NUL "', line 1")).
Proof. parses_with 40%nat. Qed.
(** * Comparisons and parentheses *)

(** ** Every call moves forward *)















(** ** The text a call has read *)




(** ** No parenthesis read, no comparison below another *)






(** ** An operand that is a comparison starts with a parenthesis *)









